(** * The view data model of [packages/core/src/view/types.ts]

    A shallow embedding of the definitions of the view engine's type file:
    the flag enumerations, the node and view definitions, the view instance
    data with its node-data accessors, and the services table.  Numbers are
    [Z] with the bit operations of the source written with [Z.shiftl],
    [Z.lor] and [Z.land]; every constant of the enumerations stays far
    below 2^31, so the 32-bit wrap-around of the source's [<<] and [|]
    never comes into play. *)

From Stdlib Require Import ZArith List Lia Bool.
From stdpp Require Import gmap strings list fin_maps.

Local Open Scope Z_scope.

(** ** Flag enumerations *)

(** [const enum ViewFlags]: the bitmask for [ViewDefinition.flags]. *)
Module ViewFlags.
Definition None : Z := 0.
Definition OnPush : Z := Z.shiftl 1 1.

(** The members the enumeration declares. *)
Inductive member := MNone | MOnPush.

Definition value (m : member) : Z :=
  match m with
  | MNone => None
  | MOnPush => OnPush
  end.

(** A flags value is built by or-ing declared members. *)
Definition combine (ms : list member) : Z :=
  fold_right (fun m acc => Z.lor (value m) acc) 0 ms.
End ViewFlags.

(** [const enum NodeFlags]: the bitmask for [NodeDef.flags].
    Naming convention of the source: [Type...] flags are mutually
    exclusive, [Cat...] is a union of several [Type...]. *)
Module NodeFlags.
Definition None : Z := 0.
Definition TypeElement : Z := Z.shiftl 1 0.
Definition TypeText : Z := Z.shiftl 1 1.
Definition CatRenderNode : Z := Z.lor TypeElement TypeText.
Definition TypeNgContent : Z := Z.shiftl 1 2.
Definition TypePipe : Z := Z.shiftl 1 3.
Definition TypePureArray : Z := Z.shiftl 1 4.
Definition TypePureObject : Z := Z.shiftl 1 5.
Definition TypePurePipe : Z := Z.shiftl 1 6.
Definition CatPureExpression : Z :=
  Z.lor (Z.lor TypePureArray TypePureObject) TypePurePipe.
Definition TypeValueProvider : Z := Z.shiftl 1 7.
Definition TypeClassProvider : Z := Z.shiftl 1 8.
Definition TypeFactoryProvider : Z := Z.shiftl 1 9.
Definition TypeUseExistingProvider : Z := Z.shiftl 1 10.
Definition LazyProvider : Z := Z.shiftl 1 11.
Definition PrivateProvider : Z := Z.shiftl 1 12.
Definition TypeDirective : Z := Z.shiftl 1 13.
Definition Component : Z := Z.shiftl 1 14.
Definition CatProvider : Z :=
  Z.lor (Z.lor (Z.lor (Z.lor TypeValueProvider TypeClassProvider)
                      TypeFactoryProvider)
               TypeUseExistingProvider)
        TypeDirective.
Definition OnInit : Z := Z.shiftl 1 15.
Definition OnDestroy : Z := Z.shiftl 1 16.
Definition DoCheck : Z := Z.shiftl 1 17.
Definition OnChanges : Z := Z.shiftl 1 18.
Definition AfterContentInit : Z := Z.shiftl 1 19.
Definition AfterContentChecked : Z := Z.shiftl 1 20.
Definition AfterViewInit : Z := Z.shiftl 1 21.
Definition AfterViewChecked : Z := Z.shiftl 1 22.
Definition EmbeddedViews : Z := Z.shiftl 1 23.
Definition ComponentView : Z := Z.shiftl 1 24.
Definition TypeContentQuery : Z := Z.shiftl 1 25.
Definition TypeViewQuery : Z := Z.shiftl 1 26.
Definition StaticQuery : Z := Z.shiftl 1 27.
Definition DynamicQuery : Z := Z.shiftl 1 28.
Definition CatQuery : Z := Z.lor TypeContentQuery TypeViewQuery.

(** mutually exclusive values... *)
Definition Types : Z :=
  Z.lor (Z.lor (Z.lor (Z.lor (Z.lor CatRenderNode TypeNgContent) TypePipe)
                        CatPureExpression)
                 CatProvider)
          CatQuery.
End NodeFlags.

(** [const enum BindingFlags]: the bitmask for [BindingDef.flags]. *)
Module BindingFlags.
Definition TypeElementAttribute : Z := Z.shiftl 1 0.
Definition TypeElementClass : Z := Z.shiftl 1 1.
Definition TypeElementStyle : Z := Z.shiftl 1 2.
Definition TypeProperty : Z := Z.shiftl 1 3.
Definition SyntheticProperty : Z := Z.shiftl 1 4.
Definition SyntheticHostProperty : Z := Z.shiftl 1 5.
Definition CatSyntheticProperty : Z :=
  Z.lor SyntheticProperty SyntheticHostProperty.

(** mutually exclusive values... *)
Definition Types : Z :=
  Z.lor (Z.lor (Z.lor TypeElementAttribute TypeElementClass)
                 TypeElementStyle)
          TypeProperty.
End BindingFlags.

(** [const enum DepFlags]: the bitmask for DI flags.  [Value] is written
    [2 << 2] in the source. *)
Module DepFlags.
Definition None : Z := 0.
Definition SkipSelf : Z := Z.shiftl 1 0.
Definition Optional : Z := Z.shiftl 1 1.
Definition Value : Z := Z.shiftl 2 2.
End DepFlags.

(** [const enum ViewState]: the bitmask of states of a view instance. *)
Module ViewState.
Definition FirstCheck : Z := Z.shiftl 1 0.
Definition ChecksEnabled : Z := Z.shiftl 1 1.
Definition Errored : Z := Z.shiftl 1 2.
Definition Destroyed : Z := Z.shiftl 1 3.
End ViewState.

(** Enumerations without explicit values number their members from 0. *)
Inductive ArgumentType := Inline | Dynamic.
Inductive OutputType := ElementOutput | DirectiveOutput.
Inductive QueryValueType :=
  | QVElementRef | QVRenderElement | QVTemplateRef | QVViewContainerRef
  | QVProvider.
Inductive QueryBindingType := First | All.
Inductive CheckType := CheckAndUpdate | CheckNoChanges.

(** ** Bit-level helpers *)

(** [hasFlag flags f] is the source's test [(flags & f) !== 0]. *)
Definition hasFlag (flags f : Z) : bool := negb (Z.land flags f =? 0).

(** [hasAll flags f] is the source's test [(flags & f) === f]. *)
Definition hasAll (flags f : Z) : bool := Z.land flags f =? f.

(** A value with exactly one bit set, at some position below 31. *)
Definition isSingleBit (f : Z) : bool :=
  existsb (fun k => f =? Z.shiftl 1 (Z.of_nat k)) (seq 0 31).

(** Bitwise or of a list of masks. *)
Definition orAll (fs : list Z) : Z := fold_right Z.lor 0 fs.

(** All masks of a list are disjoint from each other. *)
Fixpoint pairwiseDisjoint (fs : list Z) : bool :=
  match fs with
  | [] => true
  | f :: rest => forallb (fun g => Z.land f g =? 0) rest && pairwiseDisjoint rest
  end.

(** ** Primary node kinds

    The fourteen [Type...] members of [NodeFlags], as a discriminant. *)
Inductive NodeKind :=
  | KElement | KText | KNgContent | KPipe
  | KPureArray | KPureObject | KPurePipe
  | KValueProvider | KClassProvider | KFactoryProvider | KUseExistingProvider
  | KDirective | KContentQuery | KViewQuery.

Definition allNodeKinds : list NodeKind :=
  [KElement; KText; KNgContent; KPipe; KPureArray; KPureObject; KPurePipe;
   KValueProvider; KClassProvider; KFactoryProvider; KUseExistingProvider;
   KDirective; KContentQuery; KViewQuery].

Definition typeFlag (k : NodeKind) : Z :=
  match k with
  | KElement => NodeFlags.TypeElement
  | KText => NodeFlags.TypeText
  | KNgContent => NodeFlags.TypeNgContent
  | KPipe => NodeFlags.TypePipe
  | KPureArray => NodeFlags.TypePureArray
  | KPureObject => NodeFlags.TypePureObject
  | KPurePipe => NodeFlags.TypePurePipe
  | KValueProvider => NodeFlags.TypeValueProvider
  | KClassProvider => NodeFlags.TypeClassProvider
  | KFactoryProvider => NodeFlags.TypeFactoryProvider
  | KUseExistingProvider => NodeFlags.TypeUseExistingProvider
  | KDirective => NodeFlags.TypeDirective
  | KContentQuery => NodeFlags.TypeContentQuery
  | KViewQuery => NodeFlags.TypeViewQuery
  end.

(** The fourteen [Type...] bits, in declaration order. *)
Definition typeFlags : list Z := map typeFlag allNodeKinds.

(** The dispatch of the engine, [switch (def.flags & NodeFlags.Types)]:
    the kind whose bit is the masked value, if there is one. *)
Definition nodeKind (flags : Z) : option NodeKind :=
  find (fun k => Z.land flags NodeFlags.Types =? typeFlag k) allNodeKinds.

(** Modelled from the spec: the constructors of node definitions are not
    part of this file; the data model says that [flags] tags exactly one
    primary kind plus orthogonal category bits, that is, a [Type...] bit
    or-ed with bits outside [NodeFlags.Types]. *)
Definition nodeFlagsOf (k : NodeKind) (attrs : Z) : Z :=
  Z.lor (typeFlag k) attrs.

Definition wellFormedFlags (flags : Z) : Prop :=
  exists k attrs,
    Z.land attrs NodeFlags.Types = 0 /\ flags = nodeFlagsOf k attrs.

(** The orthogonal bits the specification lists next to the primary kinds:
    lazy, private, component, each lifecycle hook, content-query,
    view-query, static-query, dynamic-query. *)
Definition lifecycleBits : list Z :=
  [NodeFlags.OnInit; NodeFlags.OnDestroy; NodeFlags.DoCheck;
   NodeFlags.OnChanges; NodeFlags.AfterContentInit;
   NodeFlags.AfterContentChecked; NodeFlags.AfterViewInit;
   NodeFlags.AfterViewChecked].

Definition listedCategoryBits : list Z :=
  [NodeFlags.LazyProvider; NodeFlags.PrivateProvider; NodeFlags.Component]
  ++ lifecycleBits
  ++ [NodeFlags.TypeContentQuery; NodeFlags.TypeViewQuery;
      NodeFlags.StaticQuery; NodeFlags.DynamicQuery].

(** The listed bits that are not themselves [Type...] members. *)
Definition attributeBits : list Z :=
  [NodeFlags.LazyProvider; NodeFlags.PrivateProvider; NodeFlags.Component]
  ++ lifecycleBits
  ++ [NodeFlags.StaticQuery; NodeFlags.DynamicQuery].

(** The six binding sub-kinds the specification lists. *)
Definition bindingSubKinds : list Z :=
  [BindingFlags.TypeElementAttribute; BindingFlags.TypeElementClass;
   BindingFlags.TypeElementStyle; BindingFlags.TypeProperty;
   BindingFlags.SyntheticProperty; BindingFlags.SyntheticHostProperty].

(** The four [Type...] members of [BindingFlags]. *)
Definition bindingTypeFlags : list Z :=
  [BindingFlags.TypeElementAttribute; BindingFlags.TypeElementClass;
   BindingFlags.TypeElementStyle; BindingFlags.TypeProperty].

(** ** Categories of node kinds

    The operands of [NodeFlags.Types] in the source: the four [Cat...]
    unions and the two [Type...] members that are in no union. *)
Inductive NodeCategory :=
  | CRenderNode | CNgContent | CPipe | CPureExpression | CProvider | CQuery.

#[global] Instance NodeCategory_eq_dec : EqDecision NodeCategory.
Proof. solve_decision. Defined.

Definition allNodeCategories : list NodeCategory :=
  [CRenderNode; CNgContent; CPipe; CPureExpression; CProvider; CQuery].

Definition categoryMask (c : NodeCategory) : Z :=
  match c with
  | CRenderNode => NodeFlags.CatRenderNode
  | CNgContent => NodeFlags.TypeNgContent
  | CPipe => NodeFlags.TypePipe
  | CPureExpression => NodeFlags.CatPureExpression
  | CProvider => NodeFlags.CatProvider
  | CQuery => NodeFlags.CatQuery
  end.

(** The operand of [NodeFlags.Types] that a [Type...] member is declared
    in. *)
Definition categoryOf (k : NodeKind) : NodeCategory :=
  match k with
  | KElement | KText => CRenderNode
  | KNgContent => CNgContent
  | KPipe => CPipe
  | KPureArray | KPureObject | KPurePipe => CPureExpression
  | KValueProvider | KClassProvider | KFactoryProvider
  | KUseExistingProvider | KDirective => CProvider
  | KContentQuery | KViewQuery => CQuery
  end.

(** ** The one-bit members of the enumerations *)

(** The members of [NodeFlags] declared as [1 << n], in declaration
    order. *)
Definition nodeFlagBits : list Z :=
  [NodeFlags.TypeElement; NodeFlags.TypeText; NodeFlags.TypeNgContent;
   NodeFlags.TypePipe; NodeFlags.TypePureArray; NodeFlags.TypePureObject;
   NodeFlags.TypePurePipe; NodeFlags.TypeValueProvider;
   NodeFlags.TypeClassProvider; NodeFlags.TypeFactoryProvider;
   NodeFlags.TypeUseExistingProvider; NodeFlags.LazyProvider;
   NodeFlags.PrivateProvider; NodeFlags.TypeDirective; NodeFlags.Component;
   NodeFlags.OnInit; NodeFlags.OnDestroy; NodeFlags.DoCheck;
   NodeFlags.OnChanges; NodeFlags.AfterContentInit;
   NodeFlags.AfterContentChecked; NodeFlags.AfterViewInit;
   NodeFlags.AfterViewChecked; NodeFlags.EmbeddedViews;
   NodeFlags.ComponentView; NodeFlags.TypeContentQuery;
   NodeFlags.TypeViewQuery; NodeFlags.StaticQuery; NodeFlags.DynamicQuery].

(** The members of [ViewState]. *)
Definition viewStateBits : list Z :=
  [ViewState.FirstCheck; ViewState.ChecksEnabled; ViewState.Errored;
   ViewState.Destroyed].

(** The members of [DepFlags] other than [None]. *)
Definition depFlagBits : list Z :=
  [DepFlags.SkipSelf; DepFlags.Optional; DepFlags.Value].

(** Two masks of the list meet only when they are the same mask. *)
Definition independentBits (fs : list Z) : bool :=
  forallb (fun f =>
             forallb (fun g => Bool.eqb (negb (Z.land f g =? 0)) (f =? g)) fs)
          fs.

(** Every mask of the list lies inside [mask]. *)
Definition allInside (mask : Z) (fs : list Z) : bool :=
  forallb (fun f => Z.land f mask =? f) fs.

Local Close Scope Z_scope.

(** ** Values

    The source types most payloads as [any].  Scalars are compared with
    [===]; objects are compared by reference, so an object value is its
    reference. *)
Inductive Value :=
  | VUndefined
  | VNull
  | VBool (b : bool)
  | VNum (n : Z)
  | VStr (s : string)
  | VRef (id : nat).

#[global] Instance Value_eq_dec : EqDecision Value.
Proof. solve_decision. Defined.

(** The application state that binding expressions read (components,
    contexts and whatever they refer to), by name. *)
Definition World : Type := gmap string Value.

(** ** Definitions ([Defs] in the source) *)

(** [SecurityContext] is imported from the security module; it is a
    numeric enumeration. *)
Definition SecurityContext : Type := Z.

Record BindingDef := mkBindingDef {
  bd_flags : Z;
  bd_ns : string;
  bd_name : string;
  bd_nonMinifiedName : string;
  bd_securityContext : SecurityContext;
  bd_suffix : string }.

Inductive OutputTarget := TWindow | TDocument | TBody | TComponent.

Record OutputDef := mkOutputDef {
  out_type : OutputType;
  out_target : option OutputTarget;
  out_eventName : string;
  out_propName : string }.

Record DepDef := mkDepDef {
  dep_flags : Z;
  dep_token : Value;
  dep_tokenKey : string }.

Record ProviderDef := mkProviderDef {
  pd_token : Value;
  pd_tokenKey : string;
  pd_value : Value;
  pd_deps : list DepDef }.

Record TextDef := mkTextDef { txt_prefix : string }.

Record QueryBindingDef := mkQueryBindingDef {
  qb_propName : string;
  qb_bindingType : QueryBindingType }.

Record QueryDef := mkQueryDef {
  qd_id : Z;
  qd_filterId : Z;
  qd_bindings : list QueryBindingDef }.

Record NgContentDef := mkNgContentDef { ngc_index : nat }.

(** One call [check(view, nodeIndex, argStyle, v0, v1, ...)] of an update
    function: the node it checks and the expressions it passes.
    Evaluating the expressions reads the application state, may change it
    (a getter with a side effect) and may throw ([None]). *)
Definition Evaluator : Type := World -> World * option (list Value).

Record CheckCall := mkCheckCall {
  cc_nodeIndex : nat;
  cc_argStyle : ArgumentType;
  cc_eval : Evaluator }.

(** [ViewUpdateFn]: a compiled update function is the sequence of its
    [check] calls. *)
Definition ViewUpdateFn : Type := list CheckCall.

(** [ViewDefinition], [NodeDef] and [ElementDef] refer to each other.
    References to node definitions ([parent], [renderParent],
    [componentProvider], the provider maps, [lastRenderRootNode]) are the
    referenced node's position in [nodes]; [null] is [None].  The
    closures [factory], [handleEvent], [componentView] and the renderer
    type are not represented. *)
Inductive ViewDefinition := mkViewDefinition {
  vd_flags : Z;
  vd_updateDirectives : ViewUpdateFn;
  vd_updateRenderer : ViewUpdateFn;
  vd_nodes : list NodeDef;
  vd_nodeFlags : Z;
  vd_rootNodeFlags : Z;
  vd_lastRenderRootNode : option nat;
  vd_bindingCount : nat;
  vd_outputCount : nat;
  vd_nodeMatchedQueries : Z }
with NodeDef := mkNodeDef {
  nd_flags : Z;
  nd_index : nat;
  nd_parent : option nat;
  nd_renderParent : option nat;
  nd_ngContentIndex : option nat;
  nd_childCount : nat;
  nd_childFlags : Z;
  nd_directChildFlags : Z;
  nd_bindingIndex : nat;
  nd_bindings : list BindingDef;
  nd_bindingFlags : Z;
  nd_outputIndex : nat;
  nd_outputs : list OutputDef;
  nd_references : gmap string QueryValueType;
  nd_matchedQueries : gmap Z QueryValueType;
  nd_matchedQueryIds : Z;
  nd_childMatchedQueries : Z;
  nd_element : option ElementDef;
  nd_provider : option ProviderDef;
  nd_text : option TextDef;
  nd_query : option QueryDef;
  nd_ngContent : option NgContentDef }
with ElementDef := mkElementDef {
  el_name : string;
  el_ns : string;
  el_attrs : list (string * string * string);
  el_template : option ViewDefinition;
  el_componentProvider : option nat;
  el_publicProviders : gmap string nat;
  el_allProviders : gmap string nat }.

(** ** Data ([Data] in the source) *)

(** A provider instance or an injected value: a scalar or reference, or
    an object given by its properties. *)
Inductive Any :=
  | AVal (v : Value)
  | AObj (props : gmap string Value).

(** The injector of the root, a collaborator of the engine: it resolves
    a token or has nothing for it. *)
Definition Injector : Type := Value -> option Any.

(** [RootData]; the renderer, renderer factory, sanitizer and module
    reference are capabilities of collaborators and carry no data here. *)
Record RootData := mkRootData {
  root_injector : Injector;
  root_projectableNodes : list (list Value);
  root_selectorOrNode : Value }.

(** The position of a view below the root view: for each step, the node
    that hosts the next view and, for an embedded view, its position in
    the container. *)
Inductive PathStep :=
  | ViaComponent (hostNode : nat)
  | ViaEmbedded (anchorNode : nat) (position : nat).

Definition ViewPath : Type := list PathStep.

(** [TemplateData]: the views created from the template but inserted
    elsewhere are named by their position. *)
Record TemplateData := mkTemplateData { _projectedViews : list ViewPath }.

(** [ViewData] and [NodeData].  A view owns its component view and its
    embedded views; the back-references [parent] and
    [viewContainerParent] are given by the position of the view in the
    tree and are not stored.  [nodes] is the sparse store
    [{[key: number]: NodeData}].  A disposable is named by a number. *)
Inductive ViewData :=
  | mkViewData (def : ViewDefinition) (root : RootData)
      (parentNodeDef : option nat) (component context : Value)
      (nodes : gmap nat NodeData) (state : Z) (oldValues : list Value)
      (disposables : list nat)
with NodeData :=
  | TextData (renderText : Value)
  | ElementData (renderElement : Value) (componentView : option ViewData)
      (viewContainer : option ViewContainerData)
      (template : option TemplateData)
  | ProviderData (instance : gmap string Value)
  | PureExpressionData (value : list Value)
  | QueryList (results : list Value) (dirty : bool)
with ViewContainerData :=
  | mkViewContainerData (_embeddedViews : list ViewData).

Definition v_def (v : ViewData) : ViewDefinition :=
  match v with mkViewData d _ _ _ _ _ _ _ _ => d end.
Definition v_root (v : ViewData) : RootData :=
  match v with mkViewData _ r _ _ _ _ _ _ _ => r end.
Definition v_parentNodeDef (v : ViewData) : option nat :=
  match v with mkViewData _ _ p _ _ _ _ _ _ => p end.
Definition v_component (v : ViewData) : Value :=
  match v with mkViewData _ _ _ c _ _ _ _ _ => c end.
Definition v_context (v : ViewData) : Value :=
  match v with mkViewData _ _ _ _ c _ _ _ _ => c end.
Definition v_nodes (v : ViewData) : gmap nat NodeData :=
  match v with mkViewData _ _ _ _ _ n _ _ _ => n end.
Definition v_state (v : ViewData) : Z :=
  match v with mkViewData _ _ _ _ _ _ s _ _ => s end.
Definition v_oldValues (v : ViewData) : list Value :=
  match v with mkViewData _ _ _ _ _ _ _ o _ => o end.
Definition v_disposables (v : ViewData) : list nat :=
  match v with mkViewData _ _ _ _ _ _ _ _ d => d end.

Definition embeddedViews (c : ViewContainerData) : list ViewData :=
  match c with mkViewContainerData vs => vs end.

(** *** Accessors for [view.nodes]

    Each accessor is [return <any>view.nodes[index];]: the slot as it is,
    [undefined] ([None]) when the key is absent.  The cast to the
    accessor's result type is erased at run time. *)
Definition asTextData (view : ViewData) (index : nat) : option NodeData :=
  v_nodes view !! index.

Definition asElementData (view : ViewData) (index : nat) : option NodeData :=
  v_nodes view !! index.

Definition asProviderData (view : ViewData) (index : nat) : option NodeData :=
  v_nodes view !! index.

Definition asPureExpressionData (view : ViewData) (index : nat)
  : option NodeData :=
  v_nodes view !! index.

Definition asQueryList (view : ViewData) (index : nat) : option NodeData :=
  v_nodes view !! index.

(** The five payload shapes. *)
Inductive DataShape :=
  | SText | SElement | SProvider | SPureExpression | SQueryList.

#[global] Instance DataShape_eq_dec : EqDecision DataShape.
Proof. solve_decision. Defined.

Definition shapeOf (d : NodeData) : DataShape :=
  match d with
  | TextData _ => SText
  | ElementData _ _ _ _ => SElement
  | ProviderData _ => SProvider
  | PureExpressionData _ => SPureExpression
  | QueryList _ _ => SQueryList
  end.

(** The accessors with the shape their result type names. *)
Definition accessors : list (DataShape * (ViewData -> nat -> option NodeData)) :=
  [(SText, asTextData); (SElement, asElementData);
   (SProvider, asProviderData); (SPureExpression, asPureExpressionData);
   (SQueryList, asQueryList)].

(** Modelled from the spec: view instantiation is not part of this file;
    the data model says that the payload shape of a slot is determined by
    the kind of the node definition at that position (a content slot has
    no payload). *)
Definition shapeOfKind (k : NodeKind) : option DataShape :=
  match k with
  | KElement => Some SElement
  | KText => Some SText
  | KNgContent => None
  | KPipe | KValueProvider | KClassProvider | KFactoryProvider
  | KUseExistingProvider | KDirective => Some SProvider
  | KPureArray | KPureObject | KPurePipe => Some SPureExpression
  | KContentQuery | KViewQuery => Some SQueryList
  end.

(** The shape the definition of [view] asks for at [index]. *)
Definition expectedShape (view : ViewData) (index : nat) : option DataShape :=
  match vd_nodes (v_def view) !! index with
  | Some n =>
      match nodeKind (nd_flags n) with
      | Some k => shapeOfKind k
      | None => None
      end
  | None => None
  end.

(** Every slot that the definition asks for holds a payload of the shape
    its node kind determines. *)
Definition populated (view : ViewData) : Prop :=
  forall index s, expectedShape view index = Some s ->
    exists d, v_nodes view !! index = Some d /\ shapeOf d = s.

(** ** Well-formed view flags *)

(** A [ViewDefinition.flags] value is an or of declared [ViewFlags]
    members. *)
Definition wellFormedViewFlags (f : Z) : Prop :=
  exists ms, f = ViewFlags.combine ms.

(** ** Dependency resolution ([Services.resolveDep])

    Modelled from the spec: [Services.resolveDep] is an empty slot of the
    services table in this file (its implementation lives in the provider
    module).  The definitions below follow section 4.3 of the
    specification: the maps consulted, in order, are (a) the requesting
    element's all-providers map, when the request is not skip-self and
    private services are allowed, (b) the element's public-providers map,
    (c) the public-providers maps of the render-parent elements upward,
    through the enclosing views, until the root, and then (d) the root
    injector.  A skip-self request starts at (c): the testable properties
    of the specification ask that an element that provides the token
    itself is skipped.  The specification gives no rule for the third
    flag, [DepFlags.Value], and none is modelled. *)

Inductive DepError :=
  | NoProvider (token : Value) (tokenKey : string) (element : nat).

Inductive DepResult :=
  | Resolved (value : Any)
  | Failed (error : DepError).

(** A station of the walk: a view and one provider map of an element of
    its definition. *)
Definition Station : Type := ViewData * gmap string nat.

Definition publicProvidersOf (n : NodeDef) : gmap string nat :=
  match nd_element n with
  | Some e => el_publicProviders e
  | None => ∅
  end.

Definition allProvidersOf (n : NodeDef) : gmap string nat :=
  match nd_element n with
  | Some e => el_allProviders e
  | None => ∅
  end.

(** The render-parent elements of one view, from [el] upward.  A
    render-parent precedes its children in the depth-first order, so the
    number of nodes bounds the walk. *)
Fixpoint renderParentStations (fuel : nat) (view : ViewData) (el : option nat)
  : list Station :=
  match fuel, el with
  | S fuel', Some i =>
      match vd_nodes (v_def view) !! i with
      | Some n =>
          (view, publicProvidersOf n)
            :: renderParentStations fuel' view (nd_renderParent n)
      | None => []
      end
  | _, _ => []
  end.

(** The walk continues in the enclosing view at the node that owns the
    view left behind. *)
Fixpoint ancestorStations (views : list ViewData) (start : option nat)
  : list Station :=
  match views with
  | [] => []
  | v :: rest =>
      renderParentStations (length (vd_nodes (v_def v))) v start
        ++ ancestorStations rest (v_parentNodeDef v)
  end.

Definition ownStations (view : ViewData) (elDef : NodeDef)
    (allowPrivateServices : bool) (depDef : DepDef) : list Station :=
  if hasFlag (dep_flags depDef) DepFlags.SkipSelf then []
  else (if allowPrivateServices then [(view, allProvidersOf elDef)] else [])
         ++ [(view, publicProvidersOf elDef)].

(** The provider chain of a request; [ancestors] are the enclosing views
    of [view], nearest first. *)
Definition providerChain (ancestors : list ViewData) (view : ViewData)
    (elDef : NodeDef) (allowPrivateServices : bool) (depDef : DepDef)
  : list Station :=
  ownStations view elDef allowPrivateServices depDef
    ++ ancestorStations (view :: ancestors) (nd_renderParent elDef).

(** First match wins. *)
Fixpoint firstMatch (tokenKey : string) (chain : list Station)
  : option (ViewData * nat) :=
  match chain with
  | [] => None
  | (v, providers) :: rest =>
      match providers !! tokenKey with
      | Some p => Some (v, p)
      | None => firstMatch tokenKey rest
      end
  end.

(** The instance of the provider node [index] of [view]. *)
Definition providerInstance (view : ViewData) (index : nat) : Any :=
  match asProviderData view index with
  | Some (ProviderData instance) => AObj instance
  | _ => AVal VUndefined
  end.

(** Modelled from the spec: [Services.resolveDep], an empty slot of the
    services table in this file; section 4.3 of the specification.  The
    first map of the chain that has the token key gives the provider
    instance; an exhausted chain falls back to the root injector; when
    that has nothing, an optional dependency yields the caller's
    not-found value and any other fails with the no-provider error. *)
Definition resolveDep (ancestors : list ViewData) (view : ViewData)
    (elDef : NodeDef) (allowPrivateServices : bool) (depDef : DepDef)
    (notFoundValue : option Any) : DepResult :=
  match firstMatch (dep_tokenKey depDef)
          (providerChain ancestors view elDef allowPrivateServices depDef) with
  | Some (v, p) => Resolved (providerInstance v p)
  | None =>
      match root_injector (v_root view) (dep_token depDef) with
      | Some a => Resolved a
      | None =>
          if hasFlag (dep_flags depDef) DepFlags.Optional
          then Resolved (default (AVal VUndefined) notFoundValue)
          else Failed (NoProvider (dep_token depDef) (dep_tokenKey depDef)
                         (nd_index elDef))
      end
  end.

(** The chain is exhausted with no match: no consulted map has the token
    key and the root injector has nothing for the token. *)
Definition chainExhausted (ancestors : list ViewData) (view : ViewData)
    (elDef : NodeDef) (allowPrivateServices : bool) (depDef : DepDef) : Prop :=
  Forall (fun st : Station => snd st !! dep_tokenKey depDef = None)
         (providerChain ancestors view elDef allowPrivateServices depDef) /\
  root_injector (v_root view) (dep_token depDef) = None.

(** ** Building a view definition

    Modelled from the spec: the function that assembles a
    [ViewDefinition] from the nodes of a template, and computes the
    aggregated fields, is not part of this file.  The specification and
    the field comments of [NodeDef] and [ViewDefinition] say what the
    fields hold: [nodes] is the depth-first sequence of the template's
    tree; [index] is the position; [parent] the enclosing node;
    [childCount] the number of transitive children; [childFlags] and
    [directChildFlags] the or of the flags of the transitive and of the
    direct children (not of the node itself); [matchedQueryIds] the
    query ids matched by the node; [childMatchedQueries] the or of the
    query ids matched by one of the children, including the ids matched
    inside the templates of those children; [nodeMatchedQueries] the same
    or over all nodes of the view; [bindingIndex] and [outputIndex] the
    start of the node's slice of the view's bindings and outputs.
    [renderParent], the provider maps and the references are taken from
    the input nodes as they are. *)

(** The template as a tree: a node with the fields its constructor
    supplies, and its children. *)
#[local] Unset Elimination Schemes.
Inductive NodeTree :=
  | Tree (node : NodeDef) (children : list NodeTree).
#[local] Set Elimination Schemes.

Definition treeNode (t : NodeTree) : NodeDef :=
  match t with Tree n _ => n end.

(** The query ids a node contributes to the filters above it: its own
    matches and those of its template. *)
Definition matchedWithTemplate (n : NodeDef) : Z :=
  Z.lor (nd_matchedQueryIds n)
        (match nd_element n with
         | Some e =>
             match el_template e with
             | Some t => vd_nodeMatchedQueries t
             | None => 0%Z
             end
         | None => 0%Z
         end).

Definition withTreeFields (n : NodeDef) (index : nat) (parent : option nat)
    (childCount : nat) (childFlags directChildFlags childMatchedQueries : Z)
  : NodeDef :=
  {| nd_flags := nd_flags n;
     nd_index := index;
     nd_parent := parent;
     nd_renderParent := nd_renderParent n;
     nd_ngContentIndex := nd_ngContentIndex n;
     nd_childCount := childCount;
     nd_childFlags := childFlags;
     nd_directChildFlags := directChildFlags;
     nd_bindingIndex := nd_bindingIndex n;
     nd_bindings := nd_bindings n;
     nd_bindingFlags := nd_bindingFlags n;
     nd_outputIndex := nd_outputIndex n;
     nd_outputs := nd_outputs n;
     nd_references := nd_references n;
     nd_matchedQueries := nd_matchedQueries n;
     nd_matchedQueryIds := nd_matchedQueryIds n;
     nd_childMatchedQueries := childMatchedQueries;
     nd_element := nd_element n;
     nd_provider := nd_provider n;
     nd_text := nd_text n;
     nd_query := nd_query n;
     nd_ngContent := nd_ngContent n |}.

(** Depth-first sequence of a tree whose root gets position [start]. *)
Fixpoint flattenTree (parent : option nat) (start : nat) (t : NodeTree)
  : list NodeDef :=
  match t with
  | Tree n kids =>
      let below :=
        (fix forest (start' : nat) (ts : list NodeTree) : list NodeDef :=
           match ts with
           | [] => []
           | t' :: ts' =>
               let l := flattenTree (Some start) start' t' in
               l ++ forest (start' + length l) ts'
           end) (S start) kids in
      withTreeFields n start parent (length below)
        (orAll (map nd_flags below))
        (orAll (map (fun t' => nd_flags (treeNode t')) kids))
        (orAll (map matchedWithTemplate below))
        :: below
  end.

Fixpoint flattenForest (parent : option nat) (start : nat)
    (ts : list NodeTree) : list NodeDef :=
  match ts with
  | [] => []
  | t :: ts' =>
      let l := flattenTree parent start t in
      l ++ flattenForest parent (start + length l) ts'
  end.

Definition withSliceStarts (n : NodeDef) (bindingIndex outputIndex : nat)
  : NodeDef :=
  {| nd_flags := nd_flags n;
     nd_index := nd_index n;
     nd_parent := nd_parent n;
     nd_renderParent := nd_renderParent n;
     nd_ngContentIndex := nd_ngContentIndex n;
     nd_childCount := nd_childCount n;
     nd_childFlags := nd_childFlags n;
     nd_directChildFlags := nd_directChildFlags n;
     nd_bindingIndex := bindingIndex;
     nd_bindings := nd_bindings n;
     nd_bindingFlags := nd_bindingFlags n;
     nd_outputIndex := outputIndex;
     nd_outputs := nd_outputs n;
     nd_references := nd_references n;
     nd_matchedQueries := nd_matchedQueries n;
     nd_matchedQueryIds := nd_matchedQueryIds n;
     nd_childMatchedQueries := nd_childMatchedQueries n;
     nd_element := nd_element n;
     nd_provider := nd_provider n;
     nd_text := nd_text n;
     nd_query := nd_query n;
     nd_ngContent := nd_ngContent n |}.

Definition bindingsOf (ns : list NodeDef) : nat :=
  sum_list (map (fun n => length (nd_bindings n)) ns).

Definition outputsOf (ns : list NodeDef) : nat :=
  sum_list (map (fun n => length (nd_outputs n)) ns).

(** Each node's slice starts after the slices of the nodes before it. *)
Definition assignSlices (ns : list NodeDef) : list NodeDef :=
  imap (fun i n =>
          withSliceStarts n (bindingsOf (take i ns)) (outputsOf (take i ns)))
       ns.

(** The last root node that is an element or a text node. *)
Definition lastRenderRoot (ns : list NodeDef) : option nat :=
  nd_index <$>
    last (filter (fun n => nd_parent n = None /\
                           hasFlag (nd_flags n) NodeFlags.CatRenderNode = true)
                 ns).

(** Modelled from the spec: the function that assembles a
    [ViewDefinition], which is not part of this file; the nodes are the
    depth-first flattening of the template's trees, with the aggregated
    fields computed as the field comments of [NodeDef] and
    [ViewDefinition] describe them. *)
Definition viewDef (flags : Z) (trees : list NodeTree)
    (updateDirectives updateRenderer : ViewUpdateFn) : ViewDefinition :=
  let ns := assignSlices (flattenForest None 0 trees) in
  {| vd_flags := flags;
     vd_updateDirectives := updateDirectives;
     vd_updateRenderer := updateRenderer;
     vd_nodes := ns;
     vd_nodeFlags := orAll (map nd_flags ns);
     vd_rootNodeFlags := orAll (map (fun t => nd_flags (treeNode t)) trees);
     vd_lastRenderRootNode := lastRenderRoot ns;
     vd_bindingCount := bindingsOf ns;
     vd_outputCount := outputsOf ns;
     vd_nodeMatchedQueries := orAll (map matchedWithTemplate ns) |}.

(** A well-formed view definition is one assembled this way, the
    templates of its nodes included. *)
Inductive WellFormedDef : ViewDefinition -> Prop :=
  | wf_viewDef flags trees updateDirectives updateRenderer :
      (forall j m e t,
         vd_nodes (viewDef flags trees updateDirectives updateRenderer) !! j
           = Some m ->
         nd_element m = Some e -> el_template e = Some t ->
         WellFormedDef t) ->
      WellFormedDef (viewDef flags trees updateDirectives updateRenderer).

(** [j] is a transitive child of [i]: following the [parent] references
    from [j] leads to [i]. *)
Inductive transitiveChild (nodes : list NodeDef) (i : nat) : nat -> Prop :=
  | tc_direct j m :
      nodes !! j = Some m -> nd_parent m = Some i ->
      transitiveChild nodes i j
  | tc_step j m q :
      nodes !! j = Some m -> nd_parent m = Some q ->
      transitiveChild nodes i q ->
      transitiveChild nodes i j.

(** The direct children of [i]: the nodes whose [parent] is [i]. *)
Definition directChildren (nodes : list NodeDef) (i : nat) : list NodeDef :=
  filter (fun m => nd_parent m = Some i) nodes.

(** The [count] entries that follow position [i]. *)
Definition following (nodes : list NodeDef) (i count : nat) : list NodeDef :=
  take count (drop (S i) nodes).

(** A query with filter id [filterId] has a match in the view
    definition: a node matches it, or it has a match in the template of a
    node. *)
Inductive matchInside (filterId : Z) : ViewDefinition -> Prop :=
  | match_node def j m :
      vd_nodes def !! j = Some m ->
      hasAll (nd_matchedQueryIds m) filterId = true ->
      matchInside filterId def
  | match_template def j m e t :
      vd_nodes def !! j = Some m ->
      nd_element m = Some e -> el_template e = Some t ->
      matchInside filterId t ->
      matchInside filterId def.

(** A query has a match at node [m]: [m] matches it, or it has a match
    in the template of [m]. *)
Definition matchAt (filterId : Z) (m : NodeDef) : Prop :=
  hasAll (nd_matchedQueryIds m) filterId = true \/
  exists e t, nd_element m = Some e /\ el_template e = Some t /\
              matchInside filterId t.

(** *** Invariants of the depth-first layout

    [Placed parent start l]: the list [l] occupies the positions from
    [start] on; every node carries its position, its subtree lies inside
    [l], subtrees nest, and the [parent] reference of a node is [parent]
    for the roots of [l] and otherwise the nearest earlier node whose
    subtree contains it. *)
Definition Placed (parent : option nat) (start : nat) (l : list NodeDef)
  : Prop :=
  forall k n, l !! k = Some n ->
    nd_index n = start + k /\
    k + nd_childCount n < length l /\
    (forall j m, l !! j = Some m -> k < j -> j <= k + nd_childCount n ->
       j + nd_childCount m <= k + nd_childCount n) /\
    ((nd_parent n = parent /\
      forall k' n', l !! k' = Some n' -> k' < k ->
        k' + nd_childCount n' < k) \/
     (exists k' n', l !! k' = Some n' /\ k' < k /\
        k <= k' + nd_childCount n' /\
        nd_parent n = Some (start + k') /\
        forall k'' n'', l !! k'' = Some n'' -> k' < k'' -> k'' < k ->
          k'' + nd_childCount n'' < k)).

(** The aggregates over the transitive children of each node of [l]. *)
Definition Aggregated (l : list NodeDef) : Prop :=
  forall k n, l !! k = Some n ->
    k + nd_childCount n < length l /\
    nd_childFlags n = orAll (map nd_flags (following l k (nd_childCount n))) /\
    nd_childMatchedQueries n
      = orAll (map matchedWithTemplate (following l k (nd_childCount n))).

(** The aggregate over the direct children of each node of [l]. *)
Definition DirectAggregated (start : nat) (l : list NodeDef) : Prop :=
  forall k n, l !! k = Some n ->
    nd_directChildFlags n
      = orAll (map nd_flags (directChildren l (start + k))).

(** A reference to a node before position [start], or none. *)
Definition refersBefore (parent : option nat) (start : nat) : Prop :=
  match parent with
  | Some q => q < start
  | None => True
  end.

(** Two node definitions that differ at most in the starts of their
    binding and output slices. *)
Definition sameTreeFields (n n' : NodeDef) : Prop :=
  n' = withSliceStarts n (nd_bindingIndex n') (nd_outputIndex n').

(** ** The check cycle ([Services.checkAndUpdateView],
       [Services.checkNoChangesView])

    Modelled from the spec: the entries [checkAndUpdateView],
    [checkNoChangesView], [updateDirectives] and [updateRenderer] of the
    services table are empty slots in this file (the engine lives in the
    view module).  The definitions below follow section 4.2 of the
    specification.  A check of a view runs when the view is not
    destroyed, not errored and has [ChecksEnabled]; it has two phases,
    each over the nodes in definition order: the update-directives phase
    re-evaluates the bindings that the directives update function passes
    for each node, the update-renderer phase those of the renderer update
    function, and after the bindings of a node the views the node owns
    (its component view, then its embedded views) are checked, before the
    next node.  [CheckAndUpdate] compares each recomputed value with the
    cached one and, where they differ or on the first check, stores it,
    pushes it to the directive instance or to the renderer and invokes
    the hooks; it clears [FirstCheck] at the end, and marks the view
    [Errored] when an expression throws.  [CheckNoChanges] runs the same
    traversal, changes nothing and invokes nothing, and raises the
    changed-after-checked error at the first recomputed value that
    differs from its cached value.  Whether [ChecksEnabled] is set is
    decided by dirty propagation, outside the check; the specification
    gives no rule for queries inside a check and none is modelled. *)

Inductive Phase := UpdateDirectives | UpdateRenderer.

Inductive LifecycleHook :=
  | HookOnInit | HookOnChanges | HookDoCheck
  | HookAfterContentInit | HookAfterContentChecked
  | HookAfterViewInit | HookAfterViewChecked.

(** What a check does that can be observed: a recomputed binding
    compared with its cached value, a hook invoked on a node, a value
    pushed through the renderer. *)
Inductive Event :=
  | EvBinding (path : ViewPath) (phase : Phase) (node binding : nat)
      (cached value : Value)
  | EvHook (path : ViewPath) (node : nat) (hook : LifecycleHook)
  | EvRender (path : ViewPath) (node binding : nat) (value : Value).

Inductive CheckError :=
  | ChangedAfterChecked (path : ViewPath) (node binding : nat)
      (cached value : Value)
  | CheckCycleError (path : ViewPath) (node : nat)
  | DestroyedViewAccess (path : ViewPath)
  | OutOfFuel.

(** The state of a running check: the view as mutated so far, the
    application state, what was observed, and the error raised, if any. *)
Record Run := mkRun {
  run_view : ViewData;
  run_world : World;
  run_trace : list Event;
  run_error : option CheckError }.

(** Statements after a [throw] do not run. *)
Definition andThen (r : Run) (f : Run -> Run) : Run :=
  match run_error r with
  | Some _ => r
  | None => f r
  end.

Definition forEach {A : Type} (f : A -> Run -> Run) (l : list A) (r : Run)
  : Run :=
  fold_left (fun r x => andThen r (f x)) l r.

Definition setNodes (v : ViewData) (nodes : gmap nat NodeData) : ViewData :=
  match v with
  | mkViewData d r p c x _ s o ds => mkViewData d r p c x nodes s o ds
  end.

Definition setState (v : ViewData) (state : Z) : ViewData :=
  match v with
  | mkViewData d r p c x n _ o ds => mkViewData d r p c x n state o ds
  end.

Definition setOldValues (v : ViewData) (oldValues : list Value) : ViewData :=
  match v with
  | mkViewData d r p c x n s _ ds => mkViewData d r p c x n s oldValues ds
  end.

(** [oldValues[i]]: a missing entry reads as [undefined]. *)
Definition cachedValue (oldValues : list Value) (i : nat) : Value :=
  default VUndefined (oldValues !! i).

(** [oldValues[i] = v]: an assignment past the end extends the array. *)
Definition setOldValue (oldValues : list Value) (i : nat) (v : Value)
  : list Value :=
  if decide (i < length oldValues) then <[i := v]> oldValues
  else oldValues ++ replicate (i - length oldValues) VUndefined ++ [v].

(** The [k]-th value passed to [check]; a missing argument is
    [undefined]. *)
Definition argument (values : list Value) (k : nat) : Value :=
  default VUndefined (values !! k).

Definition bindingName (n : NodeDef) (k : nat) : string :=
  match nd_bindings n !! k with
  | Some b => bd_name b
  | None => ""
  end.

(** [CheckNoChanges] on the bindings [k, k+1, ...] of a node: compare,
    and stop at the first difference. *)
Fixpoint compareBindings (path : ViewPath) (phase : Phase) (i : nat)
    (n : NodeDef) (oldValues values : list Value) (k count : nat)
  : list Event * option CheckError :=
  match count with
  | 0 => ([], None)
  | S count' =>
      let v := argument values k in
      let c := cachedValue oldValues (nd_bindingIndex n + k) in
      if decide (c = v) then
        let '(evs, e) :=
          compareBindings path phase i n oldValues values (S k) count' in
        (EvBinding path phase i k c v :: evs, e)
      else
        ([EvBinding path phase i k c v],
         Some (ChangedAfterChecked path i k c v))
  end.

(** [CheckAndUpdate] on the bindings [k, k+1, ...] of a node: compare,
    store the values that changed, and report which did. *)
Fixpoint updateBindings (path : ViewPath) (phase : Phase) (i : nat)
    (n : NodeDef) (firstCheck : bool) (values : list Value) (k count : nat)
    (oldValues : list Value)
  : list Value * list (nat * Value) * list Event :=
  match count with
  | 0 => (oldValues, [], [])
  | S count' =>
      let v := argument values k in
      let c := cachedValue oldValues (nd_bindingIndex n + k) in
      let changed := firstCheck || negb (bool_decide (c = v)) in
      let oldValues1 :=
        if changed then setOldValue oldValues (nd_bindingIndex n + k) v
        else oldValues in
      let '(oldValues2, changes, evs) :=
        updateBindings path phase i n firstCheck values (S k) count'
          oldValues1 in
      (oldValues2,
       (if changed then [(k, v)] else []) ++ changes,
       EvBinding path phase i k c v :: evs)
  end.

(** The hooks of a directive node at its check. *)
Definition directiveHooks (n : NodeDef) (firstCheck changed : bool)
  : list LifecycleHook :=
  (if changed && hasFlag (nd_flags n) NodeFlags.OnChanges
   then [HookOnChanges] else [])
  ++ (if firstCheck && hasFlag (nd_flags n) NodeFlags.OnInit
      then [HookOnInit] else [])
  ++ (if hasFlag (nd_flags n) NodeFlags.DoCheck then [HookDoCheck] else []).

(** What the changed bindings of a node do, by the kind of the node: a
    directive gets its inputs set and its hooks invoked, a pure
    expression is recomputed, an element or a text node is updated
    through the renderer. *)
Definition applyChanges (path : ViewPath) (i : nat) (n : NodeDef)
    (firstCheck : bool) (values : list Value) (changes : list (nat * Value))
    (view : ViewData) : ViewData * list Event :=
  match nodeKind (nd_flags n) with
  | Some KDirective =>
      let hooks :=
        map (EvHook path i)
            (directiveHooks n firstCheck (negb (bool_decide (changes = [])))) in
      match asProviderData view i with
      | Some (ProviderData instance) =>
          let instance' :=
            fold_left (fun inst kv => <[bindingName n kv.1 := kv.2]> inst)
                      changes instance in
          (setNodes view (<[i := ProviderData instance']> (v_nodes view)),
           hooks)
      | _ => (view, hooks)
      end
  | Some KPureArray | Some KPureObject | Some KPurePipe =>
      match asPureExpressionData view i, changes with
      | Some (PureExpressionData _), _ :: _ =>
          (setNodes view
             (<[i := PureExpressionData
                       (map (argument values)
                            (seq 0 (length (nd_bindings n))))]>
                (v_nodes view)),
           [])
      | _, _ => (view, [])
      end
  | Some KElement | Some KText =>
      (view, map (fun kv => EvRender path i kv.1 kv.2) changes)
  | _ => (view, [])
  end.

Definition firstCheckOf (v : ViewData) : bool :=
  hasFlag (v_state v) ViewState.FirstCheck.

(** A view is checked when it has [ChecksEnabled] and is neither errored
    nor destroyed. *)
Definition eligible (v : ViewData) : bool :=
  hasFlag (v_state v) ViewState.ChecksEnabled
  && negb (hasFlag (v_state v) ViewState.Errored)
  && negb (hasFlag (v_state v) ViewState.Destroyed).

Definition addEvents (r : Run) (evs : list Event) : Run :=
  mkRun (run_view r) (run_world r) (run_trace r ++ evs) (run_error r).

(** The node check function of a check type, [NodeCheckFn]. *)
Definition checkNode (ct : CheckType) (path : ViewPath) (phase : Phase)
    (i : nat) (n : NodeDef) (values : list Value) (r : Run) : Run :=
  let view := run_view r in
  match ct with
  | CheckNoChanges =>
      let '(evs, e) :=
        compareBindings path phase i n (v_oldValues view) values 0
          (length (nd_bindings n)) in
      mkRun view (run_world r) (run_trace r ++ evs) e
  | CheckAndUpdate =>
      let '(oldValues', changes, evs) :=
        updateBindings path phase i n (firstCheckOf view) values 0
          (length (nd_bindings n)) (v_oldValues view) in
      let '(view', evs') :=
        applyChanges path i n (firstCheckOf view) values changes
          (setOldValues view oldValues') in
      mkRun view' (run_world r) (run_trace r ++ evs ++ evs') None
  end.

(** One call of an update function: evaluate the expressions, then
    check the node.  When an expression throws, the check-cycle error
    is raised and [CheckAndUpdate] marks the view [Errored].  The
    specification says in general that a check that throws sets
    [Errored], and of [CheckNoChanges] that it must not mutate state;
    for an expression that throws under [CheckNoChanges] the second,
    more specific sentence is followed: the error is raised and the
    state word is left alone. *)
Definition runCall (ct : CheckType) (path : ViewPath) (phase : Phase)
    (i : nat) (n : NodeDef) (c : CheckCall) (r : Run) : Run :=
  match cc_eval c (run_world r) with
  | (w', Some values) =>
      checkNode ct path phase i n values
        (mkRun (run_view r) w' (run_trace r) None)
  | (w', None) =>
      mkRun
        (match ct with
         | CheckAndUpdate =>
             setState (run_view r)
               (Z.lor (v_state (run_view r)) ViewState.Errored)
         | CheckNoChanges => run_view r
         end)
        w' (run_trace r) (Some (CheckCycleError path i))
  end.

(** The calls an update function makes for node [i]. *)
Definition callsFor (fn : list CheckCall) (i : nat) : list CheckCall :=
  filter (fun c => cc_nodeIndex c = i) fn.

(** The nodes of a definition with their positions. *)
Definition indexed (nodes : list NodeDef) : list (nat * NodeDef) :=
  imap (fun i n => (i, n)) nodes.

(** The loop over the nodes of a phase: the calls for a node, then what
    follows them for that node. *)
Definition checkNodes (ct : CheckType) (path : ViewPath) (phase : Phase)
    (calls : list CheckCall) (after : nat -> NodeDef -> Run -> Run)
    (items : list (nat * NodeDef)) (r : Run) : Run :=
  forEach (fun '(i, n) r =>
             andThen (forEach (runCall ct path phase i n) (callsFor calls i) r)
                     (after i n))
          items r.

(** [Services.updateDirectives(view, checkType)]. *)
Definition updateDirectives (ct : CheckType) (path : ViewPath) (r : Run)
  : Run :=
  let def := v_def (run_view r) in
  checkNodes ct path UpdateDirectives (vd_updateDirectives def)
    (fun _ _ r => r) (indexed (vd_nodes def)) r.

(** The embedded views of the container of node [i], in order; the
    views keep what their checks did to them, also when one fails. *)
Fixpoint checkEmbedded (check : ViewPath -> World -> ViewData -> Run)
    (path : ViewPath) (i k : nat) (views : list ViewData) (w : World)
  : list ViewData * World * list Event * option CheckError :=
  match views with
  | [] => ([], w, [], None)
  | e :: rest =>
      let c := check (path ++ [ViaEmbedded i k]) w e in
      match run_error c with
      | Some err => (run_view c :: rest, run_world c, run_trace c, Some err)
      | None =>
          let '(rest', w', evs, err) :=
            checkEmbedded check path i (S k) rest (run_world c) in
          (run_view c :: rest', w', run_trace c ++ evs, err)
      end
  end.

(** The component view of node [i], if it has one. *)
Definition checkComponentView (check : ViewPath -> World -> ViewData -> Run)
    (path : ViewPath) (i : nat) (componentView : option ViewData) (w : World)
  : option ViewData * World * list Event * option CheckError :=
  match componentView with
  | Some child =>
      let c := check (path ++ [ViaComponent i]) w child in
      (Some (run_view c), run_world c, run_trace c, run_error c)
  | None => (None, w, [], None)
  end.

(** The view container of node [i], if it has one. *)
Definition checkContainer (check : ViewPath -> World -> ViewData -> Run)
    (path : ViewPath) (i : nat) (viewContainer : option ViewContainerData)
    (w : World)
  : option ViewContainerData * World * list Event * option CheckError :=
  match viewContainer with
  | Some (mkViewContainerData views) =>
      let '(views', w', evs, err) := checkEmbedded check path i 0 views w in
      (Some (mkViewContainerData views'), w', evs, err)
  | None => (None, w, [], None)
  end.

(** The views that the element node [i] owns: its component view, then
    its embedded views. *)
Definition checkOwnedViews (check : ViewPath -> World -> ViewData -> Run)
    (path : ViewPath) (i : nat) (r : Run) : Run :=
  match asElementData (run_view r) i with
  | Some (ElementData renderElement componentView viewContainer template) =>
      let '(componentView', w1, evs1, err1) :=
        checkComponentView check path i componentView (run_world r) in
      let '(viewContainer', w2, evs2, err2) :=
        match err1 with
        | None => checkContainer check path i viewContainer w1
        | Some _ => (viewContainer, w1, [], err1)
        end in
      mkRun
        (setNodes (run_view r)
           (<[i := ElementData renderElement componentView' viewContainer'
                     template]> (v_nodes (run_view r))))
        w2 (run_trace r ++ evs1 ++ evs2) err2
  | _ => r
  end.

(** What follows the calls of a node in the renderer phase: the views
    that an element node owns are checked. *)
Definition afterRenderer (check : ViewPath -> World -> ViewData -> Run)
    (path : ViewPath) (i : nat) (n : NodeDef) (r : Run) : Run :=
  match nodeKind (nd_flags n) with
  | Some KElement => checkOwnedViews check path i r
  | _ => r
  end.

(** [Services.updateRenderer(view, checkType)], with the owned views of
    a node checked after the node's own bindings. *)
Definition updateRenderer (ct : CheckType)
    (check : ViewPath -> World -> ViewData -> Run) (path : ViewPath)
    (r : Run) : Run :=
  let def := v_def (run_view r) in
  checkNodes ct path UpdateRenderer (vd_updateRenderer def)
    (afterRenderer check path) (indexed (vd_nodes def)) r.

(** The hooks invoked after a phase, in node order: the [init] hook on
    the first check, the [checked] hook on every check. *)
Definition phaseHooks (path : ViewPath) (nodes : list NodeDef)
    (firstCheck : bool) (initFlag : Z) (initHook : LifecycleHook)
    (checkedFlag : Z) (checkedHook : LifecycleHook) : list Event :=
  flat_map
    (fun '(i, n) =>
       (if firstCheck && hasFlag (nd_flags n) initFlag
        then [EvHook path i initHook] else [])
       ++ (if hasFlag (nd_flags n) checkedFlag
           then [EvHook path i checkedHook] else []))
    (indexed nodes).

Definition afterContentHooks (path : ViewPath) (v : ViewData) : list Event :=
  phaseHooks path (vd_nodes (v_def v)) (firstCheckOf v)
    NodeFlags.AfterContentInit HookAfterContentInit
    NodeFlags.AfterContentChecked HookAfterContentChecked.

Definition afterViewHooks (path : ViewPath) (v : ViewData) : list Event :=
  phaseHooks path (vd_nodes (v_def v)) (firstCheckOf v)
    NodeFlags.AfterViewInit HookAfterViewInit
    NodeFlags.AfterViewChecked HookAfterViewChecked.

(** What only [CheckAndUpdate] does between and after the phases. *)
Definition whenUpdating (ct : CheckType) (f : Run -> Run) (r : Run) : Run :=
  match ct with
  | CheckAndUpdate => f r
  | CheckNoChanges => r
  end.

Definition clearFirstCheck (r : Run) : Run :=
  mkRun (setState (run_view r)
           (Z.land (v_state (run_view r)) (Z.lnot ViewState.FirstCheck)))
        (run_world r) (run_trace r) (run_error r).

(** Modelled from the spec: the check of one view and of the views
    below it, which the empty slots [checkAndUpdateView] and
    [checkNoChangesView] of the services table stand for; section 4.2 of
    the specification.  [fuel] bounds the depth of the view tree. *)
Fixpoint checkView (ct : CheckType) (fuel : nat) (path : ViewPath)
    (w : World) (v : ViewData) : Run :=
  match fuel with
  | 0 => mkRun v w [] (Some OutOfFuel)
  | S fuel' =>
      if eligible v then
        let r1 := updateDirectives ct path (mkRun v w [] None) in
        let r2 :=
          andThen r1
            (whenUpdating ct
               (fun r => addEvents r (afterContentHooks path (run_view r)))) in
        let r3 := andThen r2 (updateRenderer ct (checkView ct fuel') path) in
        let r4 :=
          andThen r3
            (whenUpdating ct
               (fun r => addEvents r (afterViewHooks path (run_view r)))) in
        andThen r4 (whenUpdating ct clearFirstCheck)
      else mkRun v w [] None
  end.

(** Modelled from the spec: the entry points, [Services.checkAndUpdateView]
    and [Services.checkNoChangesView], empty slots in this file; an
    operation on a destroyed view is an error. *)
Definition checkViewFrom (ct : CheckType) (fuel : nat) (w : World)
    (v : ViewData) : Run :=
  if hasFlag (v_state v) ViewState.Destroyed
  then mkRun v w [] (Some (DestroyedViewAccess []))
  else checkView ct fuel [] w v.

Definition checkAndUpdateView (fuel : nat) (w : World) (v : ViewData) : Run :=
  checkViewFrom CheckAndUpdate fuel w v.

Definition checkNoChangesView (fuel : nat) (w : World) (v : ViewData) : Run :=
  checkViewFrom CheckNoChanges fuel w v.

(** *** Reading a trace *)

Definition isComparison (ev : Event) : Prop :=
  match ev with
  | EvBinding _ _ _ _ _ _ => True
  | _ => False
  end.

(** A recomputed binding whose value differs from the cached one. *)
Definition differs (ev : Event) : Prop :=
  match ev with
  | EvBinding _ _ _ _ cached value => cached <> value
  | _ => False
  end.

(** The bindings a check recomputed, in order: view, phase, node,
    binding and recomputed value. *)
Definition visit (ev : Event)
  : option (ViewPath * Phase * nat * nat * Value) :=
  match ev with
  | EvBinding path phase node binding _ value =>
      Some (path, phase, node, binding, value)
  | _ => None
  end.

Definition visits (evs : list Event)
  : list (ViewPath * Phase * nat * nat * Value) :=
  omap visit evs.

(** The trace and the error of a check that only compares: every event
    is a comparison; a changed-after-checked error names the last
    comparison, which differs, and no comparison before it differs;
    without that error no comparison differs. *)
Definition NoChangesTrace (evs : list Event) (err : option CheckError)
  : Prop :=
  Forall isComparison evs /\
  match err with
  | Some (ChangedAfterChecked path node binding cached value) =>
      exists evs' phase,
        evs = evs' ++ [EvBinding path phase node binding cached value] /\
        cached <> value /\
        Forall (fun ev => ~ differs ev) evs'
  | _ => Forall (fun ev => ~ differs ev) evs
  end.

(** A step of a check that leaves the view alone and only compares. *)
Definition Quiet (f : Run -> Run) : Prop :=
  forall r, run_error r = None ->
    run_view (f r) = run_view r /\
    exists evs, run_trace (f r) = run_trace r ++ evs /\
                NoChangesTrace evs (run_error (f r)).

(** A check of views that leaves them alone and only compares. *)
Definition QuietCheck (check : ViewPath -> World -> ViewData -> Run) : Prop :=
  forall path w v,
    run_view (check path w v) = v /\
    NoChangesTrace (run_trace (check path w v)) (run_error (check path w v)).

(** *** Comparing the two check types

    [sameShape va vb]: the two views have the same definition, are both
    checked or both skipped, and own views of the same shape at the same
    element nodes.  What an update changes (cached values, instances,
    pure values, the first-check bit) is left out. *)
Definition isElementData (s : option NodeData) : Prop :=
  match s with
  | Some (ElementData _ _ _ _) => True
  | _ => False
  end.

#[local] Unset Elimination Schemes.
Inductive sameShape : ViewData -> ViewData -> Prop :=
  | shape_refl v : sameShape v v
  | shape_views va vb :
      v_def va = v_def vb -> eligible va = eligible vb ->
      (forall i, sameSlot (v_nodes va !! i) (v_nodes vb !! i)) ->
      sameShape va vb
with sameSlot : option NodeData -> option NodeData -> Prop :=
  | slot_refl s : sameSlot s s
  | slot_element re re' cv cv' vc vc' t t' :
      option_Forall2 sameShape cv cv' -> sameContainer vc vc' ->
      sameSlot (Some (ElementData re cv vc t))
               (Some (ElementData re' cv' vc' t'))
  | slot_other a b :
      ~ isElementData a -> ~ isElementData b -> sameSlot a b
with sameContainer
  : option ViewContainerData -> option ViewContainerData -> Prop :=
  | container_refl c : sameContainer c c
  | container_views l l' :
      Forall2 sameShape l l' ->
      sameContainer (Some (mkViewContainerData l))
                    (Some (mkViewContainerData l')).
#[local] Set Elimination Schemes.

(** A step of a check only adds to the trace. *)
Definition Extends (f : Run -> Run) : Prop :=
  forall r, exists evs, run_trace (f r) = run_trace r ++ evs.

(** Two running checks, an updating one [a] and a comparing one [b],
    that have recomputed the same bindings in the same application
    state. *)
Definition Lock (a b : Run) : Prop :=
  run_error a = None /\ run_error b = None /\
  run_world a = run_world b /\
  sameShape (run_view a) (run_view b) /\
  visits (run_trace a) = visits (run_trace b).

(** The comparing check has stopped at an error, having recomputed an
    initial part of what the updating check recomputes. *)
Definition Behind (a b : Run) : Prop :=
  run_error b <> None /\
  visits (run_trace b) `prefix_of` visits (run_trace a).

Definition Together (a b : Run) : Prop := Lock a b \/ Behind a b.

Definition Steps (fa fb : Run -> Run) : Prop :=
  forall a b, Lock a b -> Together (fa a) (fb b).

Definition ChecksTogether
    (checkA checkB : ViewPath -> World -> ViewData -> Run) : Prop :=
  forall path w va vb, sameShape va vb ->
    Together (checkA path w va) (checkB path w vb).

(** The bindings [k, ..., k + count - 1] of node [i] with the values
    passed for them. *)
Definition visitsOfBindings (path : ViewPath) (phase : Phase) (i : nat)
    (values : list Value) (k count : nat)
  : list (ViewPath * Phase * nat * nat * Value) :=
  map (fun k => (path, phase, i, k, argument values k)) (seq k count).

(** The same for the results of checking owned views: the views as
    checked, the application state, the events and the error. *)
Definition TogetherParts {X : Type} (R : X -> X -> Prop)
    (pa pb : X * World * list Event * option CheckError) : Prop :=
  (pa.2 = None /\ pb.2 = None /\ pa.1.1.2 = pb.1.1.2 /\
   R pa.1.1.1 pb.1.1.1 /\ visits pa.1.2 = visits pb.1.2) \/
  (pb.2 <> None /\ visits pb.1.2 `prefix_of` visits pa.1.2).

(** *** Pure bindings

    An evaluator is pure when evaluating it leaves the application state
    as it is; its values are then a function of that state alone. *)
Definition pureCall (c : CheckCall) : Prop :=
  forall w, (cc_eval c w).1 = w.

(** The calls of both update functions of a definition. *)
Definition allCalls (def : ViewDefinition) : list CheckCall :=
  vd_updateDirectives def ++ vd_updateRenderer def.

(** The update functions check a node at most once in a cycle. *)
Definition oneCallPerNode (def : ViewDefinition) : Prop :=
  NoDup (map cc_nodeIndex (allCalls def)).

(** The views a node payload owns. *)
Definition ownedViews (d : NodeData) : list ViewData :=
  match d with
  | ElementData _ componentView viewContainer _ =>
      option_list componentView
        ++ match viewContainer with
           | Some c => embeddedViews c
           | None => []
           end
  | _ => []
  end.

(** A view of a well-formed definition whose bindings have pure
    evaluators and are checked once, and so for all views below it. *)
Inductive Checkable : ViewData -> Prop :=
  | checkable v :
      WellFormedDef (v_def v) ->
      oneCallPerNode (v_def v) ->
      Forall pureCall (allCalls (v_def v)) ->
      (forall i d c, v_nodes v !! i = Some d -> c ∈ ownedViews d ->
                     Checkable c) ->
      Checkable v.

(** The slice of the cached values that belongs to node [n] holds the
    values [values]. *)
Definition Cached (oldValues : list Value) (n : NodeDef)
    (values : list Value) : Prop :=
  forall k, k < length (nd_bindings n) ->
    cachedValue oldValues (nd_bindingIndex n + k) = argument values k.

(** The slices of the nodes follow each other in node order. *)
Definition slicesInOrder (nodes : list NodeDef) : Prop :=
  forall i n, nodes !! i = Some n ->
    nd_bindingIndex n = bindingsOf (take i nodes).

(** *** What a successful update establishes *)

(** [CheckNoChanges] on view [c] at [path] raises nothing and leaves the
    application state [w] as it is. *)
Definition VerifiesAt (fuel : nat) (w : World) (path : ViewPath)
    (c : ViewData) : Prop :=
  run_error (checkView CheckNoChanges fuel path w c) = None /\
  run_world (checkView CheckNoChanges fuel path w c) = w.

(** The views owned by slot [i] of [v] verify. *)
Definition OwnedVerify (fuel : nat) (w : World) (path : ViewPath)
    (v : ViewData) (i : nat) : Prop :=
  match v_nodes v !! i with
  | Some (ElementData _ cv vc _) =>
      (forall c, cv = Some c ->
         VerifiesAt fuel w (path ++ [ViaComponent i]) c) /\
      (forall views k e,
         vc = Some (mkViewContainerData views) -> views !! k = Some e ->
         VerifiesAt fuel w (path ++ [ViaEmbedded i k]) e)
  | _ => True
  end.

(** The calls of [calls] for node [i] evaluate in [w], without changing
    it, to values that the cache of [v] holds. *)
Definition CallsCached (w : World) (calls : list CheckCall) (v : ViewData)
    (i : nat) (n : NodeDef) : Prop :=
  forall c, c ∈ callsFor calls i ->
    exists values, cc_eval c w = (w, Some values) /\
                   Cached (v_oldValues v) n values.

(** The views owned by the slots of [v] are checkable. *)
Definition OwnedCheckable (v : ViewData) : Prop :=
  forall i d c, v_nodes v !! i = Some d -> c ∈ ownedViews d -> Checkable c.

(** A successful update of a checkable view leaves the application state
    as it is and yields a checkable view that verifies and is checked
    or skipped as before. *)
Definition SettlesViews (fuel : nat) : Prop :=
  forall path w v, Checkable v ->
    run_error (checkView CheckAndUpdate fuel path w v) = None ->
    run_world (checkView CheckAndUpdate fuel path w v) = w /\
    Checkable (run_view (checkView CheckAndUpdate fuel path w v)) /\
    VerifiesAt fuel w path (run_view (checkView CheckAndUpdate fuel path w v)) /\
    eligible (run_view (checkView CheckAndUpdate fuel path w v)) = eligible v.

(** The invariant of a running update of a view with definition [def]
    and state bits [state] in the application state [w]. *)
Definition Updating (def : ViewDefinition) (w : World) (state : Z) (r : Run)
  : Prop :=
  run_error r = None /\
  v_def (run_view r) = def /\ run_world r = w /\
  v_state (run_view r) = state /\ OwnedCheckable (run_view r).

(** The cached values outside the slices of the nodes in [J] are the
    same in [v] and [v']. *)
Definition CacheFrame (J : nat -> Prop) (nodes : list NodeDef)
    (v v' : ViewData) : Prop :=
  forall idx,
    (forall j n k, J j -> nodes !! j = Some n ->
       k < length (nd_bindings n) -> idx <> nd_bindingIndex n + k) ->
    cachedValue (v_oldValues v') idx = cachedValue (v_oldValues v) idx.

(** The slots outside [J] are the same in [v] and [v']. *)
Definition SlotFrame (J : nat -> Prop) (v v' : ViewData) : Prop :=
  forall j, ~ J j -> v_nodes v' !! j = v_nodes v !! j.

(** A running [CheckNoChanges] of view [v] in the application state [w]
    that has raised nothing. *)
Definition Verifying (v : ViewData) (w : World) (r : Run) : Prop :=
  run_error r = None /\ run_view r = v /\ run_world r = w.

(** *** Depth of the view tree

    [Within n v]: the tree of views under [v] has at most [n] levels, so
    a check of [v] with fuel [n] reaches every view of it. *)
Inductive Within : nat -> ViewData -> Prop :=
  | within n v :
      (forall i d c, v_nodes v !! i = Some d -> c ∈ ownedViews d ->
                     Within n c) ->
      Within (S n) v.

(** A step of a [CheckNoChanges] of view [v] that leaves the view alone
    and does not run out of fuel. *)
Definition Fuelled (v : ViewData) (f : Run -> Run) : Prop :=
  forall r, run_error r = None -> run_view r = v ->
    run_view (f r) = v /\ run_error (f r) <> Some OutOfFuel.

(** *** What a verification compares

    The views a check reaches, by their paths, and the comparison it
    owes for each binding that an update function passes: the cached
    value, read from [oldValues] at the binding's place in the node's
    slice, against the value the call's expression has in the
    application state. *)

(** The calls of the update function of a phase. *)
Definition phaseCalls (phase : Phase) (def : ViewDefinition)
  : list CheckCall :=
  match phase with
  | UpdateDirectives => vd_updateDirectives def
  | UpdateRenderer => vd_updateRenderer def
  end.

(** The node a step of a path goes through. *)
Definition hostOf (s : PathStep) : nat :=
  match s with
  | ViaComponent i => i
  | ViaEmbedded i _ => i
  end.

(** The view that [v] owns along the step [s]: the component view of an
    element node, or the embedded view at a position of the element's
    view container. *)
Definition ownedView (v : ViewData) (s : PathStep) : option ViewData :=
  match vd_nodes (v_def v) !! hostOf s with
  | Some n =>
      match nodeKind (nd_flags n), v_nodes v !! hostOf s with
      | Some KElement, Some (ElementData _ componentView viewContainer _) =>
          match s with
          | ViaComponent _ => componentView
          | ViaEmbedded _ k =>
              match viewContainer with
              | Some c => embeddedViews c !! k
              | None => None
              end
          end
      | _, _ => None
      end
  | None => None
  end.

(** The view at [path] below [v]; the views below a view that is not
    checked are not reached. *)
Fixpoint viewAt (v : ViewData) (path : ViewPath) : option ViewData :=
  match path with
  | [] => Some v
  | s :: rest =>
      if eligible v then
        match ownedView v s with
        | Some c => viewAt c rest
        | None => None
        end
      else None
  end.

(** [P] holds of every application state that the expressions of the
    checked views below [root] leave, when it holds of the state they
    start in.  For expressions without side effects, [P] can be "is the
    initial state". *)
Definition KeepsWorld (P : World -> Prop) (root : ViewData) : Prop :=
  forall path u c w,
    viewAt root path = Some u -> eligible u = true ->
    c ∈ allCalls (v_def u) -> P w -> P (cc_eval c w).1.

(** The checked view [u] owes the comparison of [cached] with [value]
    for the binding [binding] of its node [node] in the phase [phase]:
    a call of the phase's update function for that node evaluates, in a
    state with [P], to values of which [value] is the one at [binding]
    ([undefined] when missing), and [cached] is the entry of
    [oldValues] at the binding's place in the slice of the node. *)
Definition owedBy (P : World -> Prop) (u : ViewData) (phase : Phase)
    (node binding : nat) (cached value : Value) : Prop :=
  exists n c w values,
    eligible u = true /\
    vd_nodes (v_def u) !! node = Some n /\
    c ∈ phaseCalls phase (v_def u) /\ cc_nodeIndex c = node /\
    binding < length (nd_bindings n) /\
    P w /\ (cc_eval c w).2 = Some values /\
    cached = default VUndefined
               (v_oldValues u !! (nd_bindingIndex n + binding)) /\
    value = default VUndefined (values !! binding).

(** An event of a check of [root] that is a comparison owed by the view
    at the event's path. *)
Definition genuine (P : World -> Prop) (root : ViewData) (ev : Event)
  : Prop :=
  match ev with
  | EvBinding path phase node binding cached value =>
      exists u, viewAt root path = Some u /\
                owedBy P u phase node binding cached value
  | _ => False
  end.

(** The same for the check of a view [u] that lies at [p]: the paths of
    its events start with [p]. *)
Definition genuineBelow (P : World -> Prop) (u : ViewData) (p : ViewPath)
    (ev : Event) : Prop :=
  match ev with
  | EvBinding path phase node binding cached value =>
      exists rel u', path = p ++ rel /\ viewAt u rel = Some u' /\
                     owedBy P u' phase node binding cached value
  | _ => False
  end.

(** An expression of a call for [node] of the checked view [u] throws in
    a state with [P]. *)
Definition threwAt (P : World -> Prop) (u : ViewData) (node : nat) : Prop :=
  exists n c w,
    eligible u = true /\
    vd_nodes (v_def u) !! node = Some n /\
    c ∈ allCalls (v_def u) /\ cc_nodeIndex c = node /\
    P w /\ (cc_eval c w).2 = None.

(** What an error other than changed-after-checked says of a
    verification of [root]: a check-cycle error names a view and a node
    with an expression that throws; the destroyed-view error is raised
    at the entry, for a destroyed [root]. *)
Definition genuineError (P : World -> Prop) (root : ViewData)
    (err : option CheckError) : Prop :=
  match err with
  | Some (CheckCycleError path node) =>
      exists u, viewAt root path = Some u /\ threwAt P u node
  | Some (DestroyedViewAccess path) =>
      path = [] /\ hasFlag (v_state root) ViewState.Destroyed = true
  | _ => True
  end.

Definition errorBelow (P : World -> Prop) (u : ViewData) (p : ViewPath)
    (err : option CheckError) : Prop :=
  match err with
  | Some (CheckCycleError path node) =>
      exists rel u', path = p ++ rel /\ viewAt u rel = Some u' /\
                     threwAt P u' node
  | Some (DestroyedViewAccess _) => False
  | _ => True
  end.

(** Every comparison that the checked views below [root] owe is among
    the events [evs], and its two values are equal: for each call of an
    update function of such a view, for a node of the view, and each
    binding of the node. *)
Definition AllCompared (P : World -> Prop) (root : ViewData)
    (evs : list Event) : Prop :=
  forall path u phase c n k,
    viewAt root path = Some u -> eligible u = true ->
    c ∈ phaseCalls phase (v_def u) ->
    vd_nodes (v_def u) !! cc_nodeIndex c = Some n ->
    k < length (nd_bindings n) ->
    exists w values,
      P w /\ (cc_eval c w).2 = Some values /\
      default VUndefined (v_oldValues u !! (nd_bindingIndex n + k))
      = default VUndefined (values !! k) /\
      EvBinding path phase (cc_nodeIndex c) k
        (default VUndefined (v_oldValues u !! (nd_bindingIndex n + k)))
        (default VUndefined (values !! k)) ∈ evs.

Definition ComparedBelow (P : World -> Prop) (u : ViewData) (p : ViewPath)
    (evs : list Event) : Prop :=
  forall rel u' phase c n k,
    viewAt u rel = Some u' -> eligible u' = true ->
    c ∈ phaseCalls phase (v_def u') ->
    vd_nodes (v_def u') !! cc_nodeIndex c = Some n ->
    k < length (nd_bindings n) ->
    exists w values,
      P w /\ (cc_eval c w).2 = Some values /\
      EvBinding (p ++ rel) phase (cc_nodeIndex c) k
        (default VUndefined (v_oldValues u' !! (nd_bindingIndex n + k)))
        (default VUndefined (values !! k)) ∈ evs.

(** The comparisons owed for a call [c] for the node [i] of the view
    [u] at [p] are among [evs]. *)
Definition CallCompared (P : World -> Prop) (u : ViewData) (p : ViewPath)
    (phase : Phase) (i : nat) (n : NodeDef) (c : CheckCall)
    (evs : list Event) : Prop :=
  exists w values,
    P w /\ (cc_eval c w).2 = Some values /\
    forall k, k < length (nd_bindings n) ->
      EvBinding p phase i k
        (default VUndefined (v_oldValues u !! (nd_bindingIndex n + k)))
        (default VUndefined (values !! k)) ∈ evs.

(** The comparisons owed below the views that [u] owns at the node [i]
    are among [evs]. *)
Definition OwnedCompared (P : World -> Prop) (u : ViewData) (p : ViewPath)
    (i : nat) (evs : list Event) : Prop :=
  forall s c, hostOf s = i -> ownedView u s = Some c ->
    ComparedBelow P c (p ++ [s]) evs.

(** Some binding of a checked view below [root] has, in the application
    state [w], a value that differs from its cached value. *)
Definition Stale (w : World) (root : ViewData) : Prop :=
  exists path u phase c n k values,
    viewAt root path = Some u /\ eligible u = true /\
    c ∈ phaseCalls phase (v_def u) /\
    vd_nodes (v_def u) !! cc_nodeIndex c = Some n /\
    k < length (nd_bindings n) /\
    (cc_eval c w).2 = Some values /\
    default VUndefined (v_oldValues u !! (nd_bindingIndex n + k))
    <> default VUndefined (values !! k).

(** The expressions of the checked views below [root] have no side
    effect, and none throws in the application state [w]. *)
Definition Settled (w : World) (root : ViewData) : Prop :=
  forall path u c,
    viewAt root path = Some u -> eligible u = true ->
    c ∈ allCalls (v_def u) ->
    pureCall c /\ (cc_eval c w).2 <> None.

(** A step of a check keeps an invariant of the running check. *)
Definition Keeping (I : Run -> Prop) (f : Run -> Run) : Prop :=
  forall r, run_error r = None -> I r -> I (f r).

(** The invariant of a verification of the view [u] at [p]: the view is
    as it was, the application state has [P], every event so far is a
    comparison owed below [u], and so for the error. *)
Definition Sound (P : World -> Prop) (u : ViewData) (p : ViewPath)
    (r : Run) : Prop :=
  run_view r = u /\ P (run_world r) /\
  Forall (genuineBelow P u p) (run_trace r) /\
  errorBelow P u p (run_error r).

(** ** Sample definitions and views used by the examples *)

(** A node definition with the given flags and nothing else. *)
Definition plainNode (flags : Z) : NodeDef :=
  {| nd_flags := flags; nd_index := 0; nd_parent := None;
     nd_renderParent := None; nd_ngContentIndex := None;
     nd_childCount := 0; nd_childFlags := 0; nd_directChildFlags := 0;
     nd_bindingIndex := 0; nd_bindings := []; nd_bindingFlags := 0;
     nd_outputIndex := 0; nd_outputs := [];
     nd_references := ∅; nd_matchedQueries := ∅;
     nd_matchedQueryIds := 0; nd_childMatchedQueries := 0;
     nd_element := None; nd_provider := None; nd_text := None;
     nd_query := None; nd_ngContent := None |}.

Definition plainElement : ElementDef :=
  {| el_name := "div"; el_ns := ""; el_attrs := [];
     el_template := None; el_componentProvider := None;
     el_publicProviders := ∅; el_allProviders := ∅ |}.

(** A view definition with the given nodes and no bindings. *)
Definition plainViewDef (nodes : list NodeDef) : ViewDefinition :=
  {| vd_flags := ViewFlags.None; vd_updateDirectives := [];
     vd_updateRenderer := []; vd_nodes := nodes;
     vd_nodeFlags := 0; vd_rootNodeFlags := 0;
     vd_lastRenderRootNode := None; vd_bindingCount := 0;
     vd_outputCount := 0; vd_nodeMatchedQueries := 0 |}.

Definition emptyRoot : RootData :=
  {| root_injector := fun _ => None; root_projectableNodes := [];
     root_selectorOrNode := VNull |}.

(** A view of one element: [<div>]. *)
Definition oneElementView : ViewData :=
  mkViewData
    (plainViewDef
       [{| nd_flags := NodeFlags.TypeElement; nd_index := 0;
           nd_parent := None; nd_renderParent := None;
           nd_ngContentIndex := None; nd_childCount := 0;
           nd_childFlags := 0; nd_directChildFlags := 0;
           nd_bindingIndex := 0; nd_bindings := []; nd_bindingFlags := 0;
           nd_outputIndex := 0; nd_outputs := [];
           nd_references := ∅; nd_matchedQueries := ∅;
           nd_matchedQueryIds := 0; nd_childMatchedQueries := 0;
           nd_element := Some plainElement; nd_provider := None;
           nd_text := None; nd_query := None; nd_ngContent := None |}])
    emptyRoot None VNull VNull
    {[ 0 := ElementData (VRef 1) None None None ]}
    ViewState.ChecksEnabled [] [].

(** A view of one text node. *)
Definition oneTextView : ViewData :=
  mkViewData
    (plainViewDef
       [{| nd_flags := NodeFlags.TypeText; nd_index := 0;
           nd_parent := None; nd_renderParent := None;
           nd_ngContentIndex := None; nd_childCount := 0;
           nd_childFlags := 0; nd_directChildFlags := 0;
           nd_bindingIndex := 0; nd_bindings := []; nd_bindingFlags := 0;
           nd_outputIndex := 0; nd_outputs := [];
           nd_references := ∅; nd_matchedQueries := ∅;
           nd_matchedQueryIds := 0; nd_childMatchedQueries := 0;
           nd_element := None; nd_provider := None;
           nd_text := Some {| txt_prefix := "a" |}; nd_query := None;
           nd_ngContent := None |}])
    emptyRoot None VNull VNull
    {[ 0 := TextData (VRef 2) ]}
    ViewState.ChecksEnabled [] [].

(** Two nested elements, [<a><b></b></a>], each with a provider for the
    token key ["X"]: node 0 is [a], node 1 its provider, node 2 is [b]
    (render parent [a]), node 3 the provider of [b]. *)
Definition elementWith (providers : gmap string nat) : ElementDef :=
  {| el_name := "a"; el_ns := ""; el_attrs := [];
     el_template := None; el_componentProvider := None;
     el_publicProviders := providers; el_allProviders := providers |}.

Definition nodeAt (flags : Z) (index : nat) (parent : option nat)
    (childCount : nat) (element : option ElementDef) : NodeDef :=
  {| nd_flags := flags; nd_index := index; nd_parent := parent;
     nd_renderParent := parent; nd_ngContentIndex := None;
     nd_childCount := childCount; nd_childFlags := 0;
     nd_directChildFlags := 0;
     nd_bindingIndex := 0; nd_bindings := []; nd_bindingFlags := 0;
     nd_outputIndex := 0; nd_outputs := [];
     nd_references := ∅; nd_matchedQueries := ∅;
     nd_matchedQueryIds := 0; nd_childMatchedQueries := 0;
     nd_element := element; nd_provider := None; nd_text := None;
     nd_query := None; nd_ngContent := None |}.

Definition nestedProvidersDef : ViewDefinition :=
  plainViewDef
    [nodeAt NodeFlags.TypeElement 0 None 3 (Some (elementWith {[ "X" := 1 ]}));
     nodeAt NodeFlags.TypeClassProvider 1 (Some 0) 0 None;
     nodeAt NodeFlags.TypeElement 2 (Some 0) 1 (Some (elementWith {[ "X" := 3 ]}));
     nodeAt NodeFlags.TypeClassProvider 3 (Some 2) 0 None].

Definition nestedProvidersView : ViewData :=
  mkViewData nestedProvidersDef emptyRoot None VNull VNull
    {[ 0 := ElementData (VRef 1) None None None;
       1 := ProviderData {[ "owner" := VStr "a" ]};
       2 := ElementData (VRef 2) None None None;
       3 := ProviderData {[ "owner" := VStr "b" ]} ]}
    ViewState.ChecksEnabled [] [].

Definition elementB : NodeDef :=
  nodeAt NodeFlags.TypeElement 2 (Some 0) 1 (Some (elementWith {[ "X" := 3 ]})).

Definition depOn (flags : Z) (key : string) : DepDef :=
  {| dep_flags := flags; dep_token := VStr key; dep_tokenKey := key |}.

(** A node as a template constructor supplies it: flags and matched
    query ids. *)
Definition nodeOf (flags matchedQueryIds : Z) : NodeDef :=
  {| nd_flags := flags; nd_index := 0; nd_parent := None;
     nd_renderParent := None; nd_ngContentIndex := None;
     nd_childCount := 0; nd_childFlags := 0; nd_directChildFlags := 0;
     nd_bindingIndex := 0; nd_bindings := []; nd_bindingFlags := 0;
     nd_outputIndex := 0; nd_outputs := [];
     nd_references := ∅; nd_matchedQueries := ∅;
     nd_matchedQueryIds := matchedQueryIds; nd_childMatchedQueries := 0;
     nd_element := None; nd_provider := None; nd_text := None;
     nd_query := None; nd_ngContent := None |}.

(** [<div>text<span dir></span></div>text]: the text in the [div]
    matches the query with filter id 1, the [span] the one with filter id
    2, its directive the one with filter id 4. *)
Definition sampleTrees : list NodeTree :=
  [Tree (nodeOf NodeFlags.TypeElement 0)
     [Tree (nodeOf NodeFlags.TypeText 1) [];
      Tree (nodeOf NodeFlags.TypeElement 2)
        [Tree (nodeOf (Z.lor NodeFlags.TypeDirective NodeFlags.OnInit) 4) []]];
   Tree (nodeOf NodeFlags.TypeText 0) []].

Definition sampleDef : ViewDefinition :=
  viewDef ViewFlags.OnPush sampleTrees [] [].

(** A single text node that matches the query with filter id 1. *)
Definition oneMatchDef : ViewDefinition :=
  viewDef ViewFlags.None [Tree (nodeOf NodeFlags.TypeText 1) []] [] [].

(** *** A component with a text bound to [name]

    The scenario of the specification: a host element with a component
    directive whose input [title] is bound to the application's [title];
    the component view has one text node bound to [name]. *)

Definition binding (flags : Z) (name : string) : BindingDef :=
  {| bd_flags := flags; bd_ns := ""; bd_name := name;
     bd_nonMinifiedName := name; bd_securityContext := 0%Z; bd_suffix := "" |}.

Definition nodeWith (flags : Z) (bindings : list BindingDef) : NodeDef :=
  {| nd_flags := flags; nd_index := 0; nd_parent := None;
     nd_renderParent := None; nd_ngContentIndex := None;
     nd_childCount := 0; nd_childFlags := 0; nd_directChildFlags := 0;
     nd_bindingIndex := 0; nd_bindings := bindings; nd_bindingFlags := 0;
     nd_outputIndex := 0; nd_outputs := [];
     nd_references := ∅; nd_matchedQueries := ∅;
     nd_matchedQueryIds := 0; nd_childMatchedQueries := 0;
     nd_element := None; nd_provider := None; nd_text := None;
     nd_query := None; nd_ngContent := None |}.

(** The expression [name]: reads the application state, changes
    nothing. *)
Definition readName (name : string) : Evaluator :=
  fun w => (w, Some [default VUndefined (w !! name)]).

(** An expression with a side effect: it returns a counter and
    increments it. *)
Definition nextTick : Evaluator :=
  fun w =>
    match w !! "tick" with
    | Some (VNum t) => (<["tick" := VNum (t + 1)]> w, Some [VNum t])
    | _ => (<["tick" := VNum 1]> w, Some [VNum 0])
    end.

Definition textViewDef (expression : Evaluator) : ViewDefinition :=
  viewDef ViewFlags.None
    [Tree (nodeWith NodeFlags.TypeText
             [binding BindingFlags.TypeProperty "text"]) []]
    []
    [{| cc_nodeIndex := 0; cc_argStyle := Inline; cc_eval := expression |}].

Definition textView (expression : Evaluator) : ViewData :=
  mkViewData (textViewDef expression) emptyRoot (Some 1) VNull VNull
    {[ 0 := TextData (VRef 10) ]}
    (Z.lor ViewState.FirstCheck ViewState.ChecksEnabled)
    [VUndefined] [].

Definition hostViewDef : ViewDefinition :=
  viewDef ViewFlags.None
    [Tree (nodeWith NodeFlags.TypeElement [])
       [Tree (nodeWith
                (Z.lor (Z.lor (Z.lor NodeFlags.TypeDirective NodeFlags.Component)
                              (Z.lor NodeFlags.OnInit NodeFlags.OnChanges))
                       (Z.lor NodeFlags.DoCheck NodeFlags.AfterViewInit))
                [binding BindingFlags.TypeProperty "title"]) []]]
    [{| cc_nodeIndex := 1; cc_argStyle := Inline;
        cc_eval := readName "title" |}]
    [].

Definition hostView (componentView : ViewData) : ViewData :=
  mkViewData hostViewDef emptyRoot None VNull VNull
    {[ 0 := ElementData (VRef 1) (Some componentView) None None;
       1 := ProviderData ∅ ]}
    (Z.lor ViewState.FirstCheck ViewState.ChecksEnabled)
    [VUndefined] [].

Definition worldA : World := {[ "name" := VStr "A"; "title" := VStr "t" ]}.
Definition worldB : World := {[ "name" := VStr "B"; "title" := VStr "t" ]}.

(** The two views as a first check in [worldA] leaves them: the first
    check is over, the values of [name] and [title] are cached, and the
    directive has its input. *)
Definition checkedTextView (expression : Evaluator) (cached : Value)
  : ViewData :=
  mkViewData (textViewDef expression) emptyRoot (Some 1) VNull VNull
    {[ 0 := TextData (VRef 10) ]}
    ViewState.ChecksEnabled [cached] [].

Definition checkedHostView (componentView : ViewData) : ViewData :=
  mkViewData hostViewDef emptyRoot None VNull VNull
    {[ 0 := ElementData (VRef 1) (Some componentView) None None;
       1 := ProviderData {[ "title" := VStr "t" ]} ]}
    ViewState.ChecksEnabled [VStr "t"] [].

(** An expression that throws. *)
Definition throwing : Evaluator := fun w => (w, None).

(** * Properties *)

(** ** Flag enumerations *)

Local Open Scope Z_scope.

Lemma land_lor_outside (flags b mask : Z) :
  Z.land b mask = 0 -> Z.land (Z.lor flags b) mask = Z.land flags mask.
Proof.
  intros Hb. rewrite Z.land_lor_distr_l, Hb. apply Z.lor_0_r.
Qed.

Lemma land_inside (flags b mask : Z) :
  Z.land mask b = b -> Z.land flags b = Z.land (Z.land flags mask) b.
Proof.
  intros Hb. rewrite <- Z.land_assoc, Hb. reflexivity.
Qed.

Lemma typeFlag_in_Types (k : NodeKind) :
  Z.land NodeFlags.Types (typeFlag k) = typeFlag k.
Proof. destruct k; reflexivity. Qed.

Lemma typeFlag_meet (k k' : NodeKind) :
  Z.land (typeFlag k) (typeFlag k') <> 0 <-> k' = k.
Proof.
  split.
  - destruct k, k'; vm_compute; congruence.
  - intros ->. destruct k; vm_compute; congruence.
Qed.

Lemma wellFormedFlags_mask (flags : Z) (k : NodeKind) (attrs : Z) :
  Z.land attrs NodeFlags.Types = 0 -> flags = nodeFlagsOf k attrs ->
  Z.land flags NodeFlags.Types = typeFlag k.
Proof.
  intros Ha ->. unfold nodeFlagsOf.
  rewrite land_lor_outside by exact Ha.
  rewrite Z.land_comm. apply typeFlag_in_Types.
Qed.

Lemma nodeKind_of_mask (flags : Z) (k : NodeKind) :
  Z.land flags NodeFlags.Types = typeFlag k -> nodeKind flags = Some k.
Proof.
  intros H. unfold nodeKind. rewrite H. destruct k; reflexivity.
Qed.

(** C3: the fourteen [Type...] bits of [NodeFlags] are single bits,
    pairwise disjoint, [NodeFlags.Types] is exactly their bitwise or, and
    the flags of a well-formed node definition contain exactly one of
    them: the engine's dispatch finds a kind [k], and a [Type...] bit is
    set in the flags if and only if it is the bit of [k]. *)
Theorem node_kinds_mutually_exclusive :
  length typeFlags = 14%nat /\
  forallb isSingleBit typeFlags = true /\
  pairwiseDisjoint typeFlags = true /\
  NodeFlags.Types = orAll typeFlags /\
  (forall flags, wellFormedFlags flags ->
     exists k, nodeKind flags = Some k /\
       forall k', hasFlag flags (typeFlag k') = true <-> k' = k).
Proof.
  repeat split; try reflexivity.
  intros flags (k & attrs & Ha & Hf).
  pose proof (wellFormedFlags_mask flags k attrs Ha Hf) as Hm.
  exists k. split; [now apply nodeKind_of_mask|].
  intros k'. unfold hasFlag.
  rewrite (land_inside flags (typeFlag k') NodeFlags.Types)
    by apply typeFlag_in_Types.
  rewrite Hm, negb_true_iff, Z.eqb_neq. apply typeFlag_meet.
Qed.

Lemma node_kinds_mutually_exclusive_witness :
  wellFormedFlags (Z.lor NodeFlags.TypeDirective NodeFlags.OnInit) /\
  exists k, nodeKind (Z.lor NodeFlags.TypeDirective NodeFlags.OnInit) = Some k /\
    forall k', hasFlag (Z.lor NodeFlags.TypeDirective NodeFlags.OnInit)
                 (typeFlag k') = true <-> k' = k.
Proof.
  assert (Hwf : wellFormedFlags (Z.lor NodeFlags.TypeDirective NodeFlags.OnInit)).
  { exists KDirective, NodeFlags.OnInit. split; reflexivity. }
  split; [exact Hwf|].
  exact (proj2 (proj2 (proj2 (proj2 node_kinds_mutually_exclusive))) _ Hwf).
Defined.

(** The claim of C4 as the specification words it: every listed category
    bit is disjoint from [NodeFlags.Types].  It fails at the two query
    bits, which the source declares as [Type...] members. *)
Lemma listed_category_bits_not_all_orthogonal :
  ~ Forall (fun b => Z.land b NodeFlags.Types = 0) listedCategoryBits /\
  Z.land NodeFlags.TypeContentQuery NodeFlags.Types <> 0 /\
  nodeKind (Z.lor NodeFlags.TypeElement NodeFlags.TypeContentQuery)
    <> nodeKind NodeFlags.TypeElement.
Proof.
  split; [|split].
  - intros H. rewrite Forall_forall in H.
    specialize (H NodeFlags.TypeContentQuery).
    assert (Hin : NodeFlags.TypeContentQuery ∈ listedCategoryBits).
    { apply list_elem_of_In. vm_compute. tauto. }
    specialize (H Hin). vm_compute in H. discriminate.
  - vm_compute. discriminate.
  - vm_compute. discriminate.
Qed.

(** C4 (amended): lazy, private, component, the eight lifecycle bits,
    static-query and dynamic-query are disjoint from [NodeFlags.Types], so
    or-ing one of them into any flags changes neither [flags & Types] nor
    the kind the dispatch finds; content-query and view-query are inside
    [NodeFlags.Types]. *)
Theorem attribute_bits_orthogonal :
  Forall (fun b =>
            Z.land b NodeFlags.Types = 0 /\
            forall flags,
              Z.land (Z.lor flags b) NodeFlags.Types
                = Z.land flags NodeFlags.Types /\
              nodeKind (Z.lor flags b) = nodeKind flags)
         attributeBits /\
  Z.land NodeFlags.TypeContentQuery NodeFlags.Types
    = NodeFlags.TypeContentQuery /\
  Z.land NodeFlags.TypeViewQuery NodeFlags.Types = NodeFlags.TypeViewQuery.
Proof.
  split; [|split; reflexivity].
  assert (Hstep : forall b, Z.land b NodeFlags.Types = 0 ->
            Z.land b NodeFlags.Types = 0 /\
            forall flags,
              Z.land (Z.lor flags b) NodeFlags.Types
                = Z.land flags NodeFlags.Types /\
              nodeKind (Z.lor flags b) = nodeKind flags).
  { intros b Hb. split; [exact Hb|]. intros flags.
    pose proof (land_lor_outside flags b _ Hb) as E.
    split; [exact E|]. unfold nodeKind. now rewrite E. }
  unfold attributeBits, lifecycleBits. simpl app.
  repeat (apply Forall_cons; split; [apply Hstep; reflexivity|]).
  apply Forall_nil. exact I.
Qed.

(** The claim of C5 as the specification words it: [BindingFlags.Types]
    is the or of all six sub-kind bits.  The source leaves the two
    synthetic bits out of the mask. *)
Lemma binding_types_mask_is_not_all_six :
  BindingFlags.Types <> orAll bindingSubKinds /\
  Z.land BindingFlags.SyntheticProperty BindingFlags.Types = 0 /\
  Z.land BindingFlags.SyntheticHostProperty BindingFlags.Types = 0.
Proof. repeat split; vm_compute; discriminate. Qed.

(** C5 (amended): the six sub-kind bits are single bits, pairwise
    disjoint; [BindingFlags.Types] is the or of the four [Type...] bits
    (attribute, class, style, property); the two synthetic bits lie
    outside it, so or-ing them into any flags leaves [flags & Types]
    unchanged. *)
Theorem binding_types_mask :
  forallb isSingleBit bindingSubKinds = true /\
  pairwiseDisjoint bindingSubKinds = true /\
  BindingFlags.Types = orAll bindingTypeFlags /\
  BindingFlags.CatSyntheticProperty
    = Z.lor BindingFlags.SyntheticProperty BindingFlags.SyntheticHostProperty /\
  Z.land BindingFlags.CatSyntheticProperty BindingFlags.Types = 0 /\
  (forall flags s,
     Z.land s BindingFlags.CatSyntheticProperty = s ->
     Z.land (Z.lor flags s) BindingFlags.Types
       = Z.land flags BindingFlags.Types).
Proof.
  repeat split; try reflexivity.
  intros flags s Hs. apply land_lor_outside.
  rewrite <- Hs, <- Z.land_assoc.
  change (Z.land BindingFlags.CatSyntheticProperty BindingFlags.Types) with 0.
  apply Z.land_0_r.
Qed.

Lemma binding_types_mask_witness :
  Z.land BindingFlags.SyntheticProperty BindingFlags.CatSyntheticProperty
    = BindingFlags.SyntheticProperty /\
  Z.land (Z.lor BindingFlags.TypeProperty BindingFlags.SyntheticProperty)
         BindingFlags.Types
    = Z.land BindingFlags.TypeProperty BindingFlags.Types.
Proof.
  split; [reflexivity|].
  apply (proj2 (proj2 (proj2 (proj2 (proj2 binding_types_mask))))).
  reflexivity.
Defined.

Lemma ViewFlags_combine_cases (ms : list ViewFlags.member) :
  ViewFlags.combine ms = ViewFlags.None \/
  ViewFlags.combine ms = ViewFlags.OnPush.
Proof.
  induction ms as [|m ms IH]; [now left|].
  change (ViewFlags.combine (m :: ms))
    with (Z.lor (ViewFlags.value m) (ViewFlags.combine ms)).
  destruct m, IH as [-> | ->]; vm_compute; auto.
Qed.

(** C10: the [ViewFlags] enumeration declares the members [None] and
    [OnPush] and no other flag bit, so the flags of a view definition,
    an or of declared members, are [None] or [OnPush]; the only bit that
    can be set is bit 1. *)
Theorem view_flags_only_on_push :
  (forall m, ViewFlags.value m = ViewFlags.None \/
             ViewFlags.value m = ViewFlags.OnPush) /\
  (forall d : ViewDefinition, wellFormedViewFlags (vd_flags d) ->
     (vd_flags d = ViewFlags.None \/ vd_flags d = ViewFlags.OnPush) /\
     forall n, Z.testbit (vd_flags d) n = true -> n = 1).
Proof.
  split.
  - intros []; [now left|now right].
  - intros d [ms ->].
    destruct (ViewFlags_combine_cases ms) as [E|E]; rewrite E;
      (split; [auto|]); intros n Hn.
    + change ViewFlags.None with 0 in Hn. now rewrite Z.bits_0 in Hn.
    + change ViewFlags.OnPush with (2 ^ 1) in Hn.
      destruct (Z.eq_dec n 1) as [->|Hne]; [reflexivity|].
      destruct (Z.neg_nonneg_cases n) as [Hneg|Hpos].
      * now rewrite Z.testbit_neg_r in Hn by exact Hneg.
      * now rewrite Z.pow2_bits_false in Hn by lia.
Qed.

Lemma view_flags_only_on_push_witness :
  wellFormedViewFlags (vd_flags sampleDef) /\
  (vd_flags sampleDef = ViewFlags.None \/
   vd_flags sampleDef = ViewFlags.OnPush) /\
  (forall n, Z.testbit (vd_flags sampleDef) n = true -> n = 1).
Proof.
  assert (H : wellFormedViewFlags (vd_flags sampleDef)).
  { exists [ViewFlags.MOnPush]. reflexivity. }
  split; [exact H|].
  exact (proj2 view_flags_only_on_push sampleDef H).
Defined.

Local Close Scope Z_scope.

(** ** Node-data accessors *)

Lemma accessors_read_slot (view : ViewData) (index : nat) :
  Forall (fun a => snd a view index = v_nodes view !! index) accessors.
Proof. repeat constructor. Qed.

Lemma oneElementView_populated : populated oneElementView.
Proof.
  intros index s H. unfold expectedShape in H.
  destruct index as [|index]; [|destruct index; discriminate H].
  vm_compute in H. injection H as <-.
  eexists. split; [reflexivity|reflexivity].
Qed.

Lemma oneTextView_populated : populated oneTextView.
Proof.
  intros index s H. unfold expectedShape in H.
  destruct index as [|index]; [|destruct index; discriminate H].
  vm_compute in H. injection H as <-.
  eexists. split; [reflexivity|reflexivity].
Qed.

(** The accessors carry no check of their own; applying the accessor of
    another kind is a programming error, not a failure at run time: the
    text accessor applied to an element slot returns the element
    payload, which has the shape the node definition's kind
    determines. *)
Example wrong_accessor_returns_the_slot :
  populated oneElementView /\
  expectedShape oneElementView 0 = Some SElement /\
  asTextData oneElementView 0 = Some (ElementData (VRef 1) None None None) /\
  shapeOf (ElementData (VRef 1) None None None) = SElement.
Proof.
  split; [exact oneElementView_populated|]. repeat split; reflexivity.
Qed.

(** C1: each of the five accessors returns the slot [view.nodes[index]]
    as it is.  So an accessor applied to a slot that holds a payload [d]
    returns [d]; in a view populated as its definition says, the
    accessor for kind K applied to a slot of a definition of kind K
    returns that slot's payload, which has the shape K; and every
    accessor returns at a position the payload whose shape the node
    definition's kind determines, so that no call site observes another
    shape. *)
Theorem accessors_return_slot (view : ViewData) (index : nat) :
  Forall (fun a => snd a view index = v_nodes view !! index) accessors /\
  (forall d, v_nodes view !! index = Some d ->
     Forall (fun a => snd a view index = Some d) accessors) /\
  (populated view ->
   forall s, expectedShape view index = Some s ->
     Forall (fun a => exists d, snd a view index = Some d /\ shapeOf d = s)
            accessors) /\
  (populated view ->
   forall s a, (s, a) ∈ accessors -> expectedShape view index = Some s ->
     exists d, v_nodes view !! index = Some d /\
               a view index = Some d /\ shapeOf d = s).
Proof.
  split; [apply accessors_read_slot|]. split; [|split].
  - intros d Hd. repeat constructor; exact Hd.
  - intros Hp s Hs. destruct (Hp index s Hs) as (d & Hd & Hshape).
    repeat constructor; exists d; (split; [exact Hd|exact Hshape]).
  - intros Hp s a Hin Hs. destruct (Hp index s Hs) as (d & Hd & Hshape).
    exists d. split; [exact Hd|]. split; [|exact Hshape].
    pose proof (accessors_read_slot view index) as Hread.
    rewrite Forall_forall in Hread. specialize (Hread (s, a) Hin).
    simpl in Hread. now rewrite Hread.
Qed.

Lemma accessors_return_slot_witness :
  v_nodes oneTextView !! 0%nat = Some (TextData (VRef 2)) /\
  populated oneTextView /\ expectedShape oneTextView 0 = Some SText /\
  (SText, asTextData) ∈ accessors /\
  Forall (fun a => snd a oneTextView 0%nat = Some (TextData (VRef 2)))
         accessors /\
  Forall (fun a => exists d, snd a oneTextView 0%nat = Some d /\ shapeOf d = SText)
         accessors /\
  exists d, v_nodes oneTextView !! 0%nat = Some d /\
            asTextData oneTextView 0 = Some d /\ shapeOf d = SText.
Proof.
  assert (Hin : (SText, asTextData) ∈ accessors) by left.
  split; [reflexivity|]. split; [exact oneTextView_populated|].
  split; [reflexivity|]. split; [exact Hin|]. split; [|split].
  - apply (proj1 (proj2 (accessors_return_slot oneTextView 0%nat))).
    reflexivity.
  - apply (proj1 (proj2 (proj2 (accessors_return_slot oneTextView 0%nat)))).
    + exact oneTextView_populated.
    + reflexivity.
  - apply (proj2 (proj2 (proj2 (accessors_return_slot oneTextView 0%nat)))
             oneTextView_populated SText asTextData Hin).
    reflexivity.
Defined.

(** ** Dependency resolution *)

Lemma firstMatch_none (key : string) (chain : list Station) :
  Forall (fun st : Station => snd st !! key = None) chain ->
  firstMatch key chain = None.
Proof.
  induction 1 as [|[v providers] rest Hhd _ IH]; [reflexivity|].
  simpl in *. now rewrite Hhd.
Qed.

Lemma firstMatch_none_inv (key : string) (chain : list Station) :
  firstMatch key chain = None ->
  Forall (fun st : Station => snd st !! key = None) chain.
Proof.
  induction chain as [|[v providers] rest IH]; intros H; [constructor|].
  simpl in H. destruct (providers !! key) eqn:E; [discriminate|].
  constructor; [exact E|now apply IH].
Qed.

(** C7: when the provider chain of a request is exhausted with no match,
    a request without the [Optional] flag fails with the no-provider
    error that carries the token and the requesting element, and a request
    with the [Optional] flag yields the caller's not-found value. *)
Theorem resolveDep_chain_exhausted
    (ancestors : list ViewData) (view : ViewData) (elDef : NodeDef)
    (allowPrivateServices : bool) (depDef : DepDef)
    (notFoundValue : option Any) :
  chainExhausted ancestors view elDef allowPrivateServices depDef ->
  (hasFlag (dep_flags depDef) DepFlags.Optional = false ->
   resolveDep ancestors view elDef allowPrivateServices depDef notFoundValue
     = Failed (NoProvider (dep_token depDef) (dep_tokenKey depDef)
                 (nd_index elDef))) /\
  (hasFlag (dep_flags depDef) DepFlags.Optional = true ->
   resolveDep ancestors view elDef allowPrivateServices depDef notFoundValue
     = Resolved (default (AVal VUndefined) notFoundValue)).
Proof.
  intros [Hchain Hroot]. unfold resolveDep.
  rewrite (firstMatch_none _ _ Hchain), Hroot.
  split; intros ->; reflexivity.
Qed.

Lemma nested_chain_exhausted (flags : Z) :
  chainExhausted [] nestedProvidersView elementB true (depOn flags "Y").
Proof.
  split; [|reflexivity]. apply firstMatch_none_inv.
  unfold providerChain, ownStations.
  destruct (hasFlag _ _); reflexivity.
Qed.

Lemma resolveDep_chain_exhausted_witness :
  chainExhausted [] nestedProvidersView elementB true
    (depOn DepFlags.Optional "Y") /\
  chainExhausted [] nestedProvidersView elementB true
    (depOn DepFlags.None "Y") /\
  resolveDep [] nestedProvidersView elementB true (depOn DepFlags.None "Y")
    (Some (AVal (VStr "fallback")))
    = Failed (NoProvider (VStr "Y") "Y" 2) /\
  resolveDep [] nestedProvidersView elementB true
    (depOn DepFlags.Optional "Y") (Some (AVal (VStr "fallback")))
    = Resolved (AVal (VStr "fallback")).
Proof.
  split; [apply nested_chain_exhausted|].
  split; [apply nested_chain_exhausted|]. split.
  - exact (proj1 (resolveDep_chain_exhausted [] nestedProvidersView elementB
                    true (depOn DepFlags.None "Y")
                    (Some (AVal (VStr "fallback")))
                    (nested_chain_exhausted _)) eq_refl).
  - exact (proj2 (resolveDep_chain_exhausted [] nestedProvidersView elementB
                    true (depOn DepFlags.Optional "Y")
                    (Some (AVal (VStr "fallback")))
                    (nested_chain_exhausted _)) eq_refl).
Defined.

(** A failure is only ever the no-provider error of an exhausted chain
    of a request that is not optional. *)
Lemma resolveDep_failed_inv
    (ancestors : list ViewData) (view : ViewData) (elDef : NodeDef)
    (allowPrivateServices : bool) (depDef : DepDef)
    (notFoundValue : option Any) (e : DepError) :
  resolveDep ancestors view elDef allowPrivateServices depDef notFoundValue
    = Failed e ->
  chainExhausted ancestors view elDef allowPrivateServices depDef /\
  hasFlag (dep_flags depDef) DepFlags.Optional = false /\
  e = NoProvider (dep_token depDef) (dep_tokenKey depDef) (nd_index elDef).
Proof.
  unfold resolveDep, chainExhausted.
  destruct (firstMatch _ _) as [[v p]|] eqn:Hm; [discriminate|].
  destruct (root_injector _ _) eqn:Hr; [discriminate|].
  destruct (hasFlag _ _) eqn:Ho; [discriminate|].
  intros [= <-]. split; [|split; reflexivity].
  split; [now apply firstMatch_none_inv|reflexivity].
Qed.

(** The ordering scenario of the specification: [b] asks for ["X"]; by
    default it gets its own provider, with skip-self the provider of its
    parent [a]. *)
Example resolveDep_own_then_parent :
  resolveDep [] nestedProvidersView elementB true (depOn DepFlags.None "X") None
    = Resolved (AObj {[ "owner" := VStr "b" ]}) /\
  resolveDep [] nestedProvidersView elementB true
    (depOn DepFlags.SkipSelf "X") None
    = Resolved (AObj {[ "owner" := VStr "a" ]}).
Proof. split; reflexivity. Qed.

(** ** View definitions: the depth-first layout *)

Lemma NodeTree_ind (P : NodeTree -> Prop) :
  (forall n kids, Forall P kids -> P (Tree n kids)) ->
  forall t, P t.
Proof.
  intros step. fix IH 1. intros [n kids]. apply step.
  induction kids as [|t kids IHkids]; constructor; [apply IH|exact IHkids].
Qed.

Lemma flattenTree_unfold (parent : option nat) (start : nat) (n : NodeDef)
    (kids : list NodeTree) :
  flattenTree parent start (Tree n kids)
  = withTreeFields n start parent
      (length (flattenForest (Some start) (S start) kids))
      (orAll (map nd_flags (flattenForest (Some start) (S start) kids)))
      (orAll (map (fun t' => nd_flags (treeNode t')) kids))
      (orAll (map matchedWithTemplate
                (flattenForest (Some start) (S start) kids)))
      :: flattenForest (Some start) (S start) kids.
Proof.
  assert (E : forall ts s',
             (fix forest (start' : nat) (ts : list NodeTree) : list NodeDef :=
                match ts with
                | [] => []
                | t' :: ts' =>
                    let l := flattenTree (Some start) start' t' in
                    l ++ forest (start' + length l) ts'
                end) s' ts
             = flattenForest (Some start) s' ts).
  { induction ts as [|t ts IH]; intros s'; [reflexivity|].
    simpl. now rewrite IH. }
  simpl. now rewrite !E.
Qed.

Lemma Placed_nil (parent : option nat) (start : nat) : Placed parent start [].
Proof. intros k n H. discriminate H. Qed.

Lemma Placed_cons (parent : option nat) (start : nat) (n0 : NodeDef)
    (below : list NodeDef) :
  nd_index n0 = start -> nd_parent n0 = parent ->
  nd_childCount n0 = length below ->
  Placed (Some start) (S start) below ->
  Placed parent start (n0 :: below).
Proof.
  intros Hidx Hpar Hcc Hbelow [|k] n Hn; simpl in Hn.
  - injection Hn as <-. rewrite Hcc. simpl.
    split; [lia|]. split; [lia|]. split.
    + intros [|j] m Hm Hlt Hle; [lia|]. simpl in Hm.
      destruct (Hbelow j m Hm) as (_ & Hr & _). lia.
    + left. split; [exact Hpar|]. intros k' n' _ Hk'. lia.
  - destruct (Hbelow k n Hn) as (Hi & Hr & Hlam & Hp). simpl.
    split; [lia|]. split; [lia|]. split.
    + intros [|j] m Hm Hlt Hle; [lia|]. simpl in Hm.
      specialize (Hlam j m Hm). lia.
    + right. destruct Hp as [[Hp Hroot]|(k' & n' & Hn' & Hlt & Hle & Hp & Hnear)].
      * exists 0, n0. simpl. split; [reflexivity|]. split; [lia|].
        split; [lia|]. split; [rewrite Hp; f_equal; lia|].
        intros [|k''] n'' Hn'' H1 H2; [lia|]. simpl in Hn''.
        specialize (Hroot k'' n'' Hn''). lia.
      * exists (S k'), n'. simpl. split; [exact Hn'|]. split; [lia|].
        split; [lia|]. split; [rewrite Hp; f_equal; lia|].
        intros [|k''] n'' Hn'' H1 H2; [lia|]. simpl in Hn''.
        specialize (Hnear k'' n'' Hn''). lia.
Qed.

Lemma Placed_app (parent : option nat) (start : nat) (l1 l2 : list NodeDef) :
  Placed parent start l1 ->
  Placed parent (start + length l1) l2 ->
  Placed parent start (l1 ++ l2).
Proof.
  intros H1 H2 k n Hn. rewrite length_app.
  apply lookup_app_Some in Hn as [Hn|[Hge Hn]].
  - destruct (H1 k n Hn) as (Hi & Hr & Hlam & Hp).
    split; [exact Hi|]. split; [lia|]. split.
    + intros j m Hm Hlt Hle.
      apply lookup_app_Some in Hm as [Hm|[Hge _]]; [|lia].
      now apply (Hlam j m).
    + destruct Hp as [[Hp Hroot]|(k' & n' & Hn' & Hlt & Hle & Hp & Hnear)].
      * left. split; [exact Hp|]. intros k' n' Hn' Hlt.
        apply lookup_app_Some in Hn' as [Hn'|[Hge' _]]; [|lia].
        now apply (Hroot k' n').
      * right. exists k', n'. split; [now apply lookup_app_l_Some|].
        split; [lia|]. split; [lia|]. split; [exact Hp|].
        intros k'' n'' Hn'' Ha Hb.
        apply lookup_app_Some in Hn'' as [Hn''|[Hge' _]]; [|lia].
        now apply (Hnear k'' n'').
  - destruct (H2 _ n Hn) as (Hi & Hr & Hlam & Hp).
    split; [lia|]. split; [lia|]. split.
    + intros j m Hm Hlt Hle.
      apply lookup_app_Some in Hm as [Hm|[Hge' Hm]].
      { apply lookup_lt_Some in Hm. lia. }
      specialize (Hlam _ m Hm). lia.
    + destruct Hp as [[Hp Hroot]|(k' & n' & Hn' & Hlt & Hle & Hp & Hnear)].
      * left. split; [exact Hp|]. intros k' n' Hn' Hlt.
        apply lookup_app_Some in Hn' as [Hn'|[Hge' Hn']].
        { destruct (H1 k' n' Hn') as (_ & Hr' & _). lia. }
        specialize (Hroot _ n' Hn'). lia.
      * right. exists (length l1 + k'), n'.
        split.
        { rewrite lookup_app_r by lia.
          now replace (length l1 + k' - length l1) with k' by lia. }
        split; [lia|]. split; [lia|].
        split; [rewrite Hp; f_equal; lia|].
        intros k'' n'' Hn'' Ha Hb.
        apply lookup_app_Some in Hn'' as [Hn''|[Hge' Hn'']].
        { apply lookup_lt_Some in Hn''. lia. }
        specialize (Hnear _ n'' Hn''). lia.
Qed.

Lemma flatten_Placed (t : NodeTree) :
  forall parent start, Placed parent start (flattenTree parent start t).
Proof.
  induction t as [n kids IH] using NodeTree_ind. intros parent start.
  rewrite flattenTree_unfold.
  apply Placed_cons; try reflexivity.
  generalize (S start) as s. generalize (Some start) as p.
  induction IH as [|t kids Ht _ IHkids]; intros p s; simpl.
  - apply Placed_nil.
  - apply Placed_app; [apply Ht|apply IHkids].
Qed.

Lemma flattenForest_Placed (ts : list NodeTree) :
  forall parent start, Placed parent start (flattenForest parent start ts).
Proof.
  induction ts as [|t ts IH]; intros parent start; simpl.
  - apply Placed_nil.
  - apply Placed_app; [apply flatten_Placed|apply IH].
Qed.

Lemma following_cons_0 (n0 : NodeDef) (below : list NodeDef) :
  following (n0 :: below) 0 (length below) = below.
Proof. unfold following. simpl. rewrite drop_0. apply firstn_all. Qed.

Lemma following_cons_S (n0 : NodeDef) (below : list NodeDef) (k c : nat) :
  following (n0 :: below) (S k) c = following below k c.
Proof. reflexivity. Qed.

Lemma following_app_l (l1 l2 : list NodeDef) (k c : nat) :
  k + c < length l1 -> following (l1 ++ l2) k c = following l1 k c.
Proof.
  intros H. unfold following.
  rewrite drop_app_le by lia. apply take_app_le.
  rewrite length_drop. lia.
Qed.

Lemma following_app_r (l1 l2 : list NodeDef) (k c : nat) :
  following (l1 ++ l2) (length l1 + k) c = following l2 k c.
Proof.
  unfold following. rewrite drop_app_ge by lia.
  now replace (S (length l1 + k) - length l1) with (S k) by lia.
Qed.

Lemma Aggregated_cons (n0 : NodeDef) (below : list NodeDef) :
  nd_childCount n0 = length below ->
  nd_childFlags n0 = orAll (map nd_flags below) ->
  nd_childMatchedQueries n0 = orAll (map matchedWithTemplate below) ->
  Aggregated below -> Aggregated (n0 :: below).
Proof.
  intros Hcc Hcf Hcq Hbelow [|k] n Hn; simpl in Hn.
  - injection Hn as <-. rewrite Hcc, following_cons_0. simpl.
    split; [lia|]. split; assumption.
  - destruct (Hbelow k n Hn) as (Hr & Hf & Hq).
    rewrite following_cons_S. simpl. split; [lia|]. split; assumption.
Qed.

Lemma Aggregated_app (l1 l2 : list NodeDef) :
  Aggregated l1 -> Aggregated l2 -> Aggregated (l1 ++ l2).
Proof.
  intros H1 H2 k n Hn. rewrite length_app.
  apply lookup_app_Some in Hn as [Hn|[Hge Hn]].
  - destruct (H1 k n Hn) as (Hr & Hf & Hq).
    rewrite following_app_l by exact Hr. split; [lia|]. split; assumption.
  - destruct (H2 _ n Hn) as (Hr & Hf & Hq).
    replace k with (length l1 + (k - length l1)) at 2 3 by lia.
    rewrite following_app_r. split; [lia|]. split; assumption.
Qed.

Lemma flatten_Aggregated (t : NodeTree) :
  forall parent start, Aggregated (flattenTree parent start t).
Proof.
  induction t as [n kids IH] using NodeTree_ind. intros parent start.
  rewrite flattenTree_unfold.
  apply Aggregated_cons; try reflexivity.
  generalize (S start) as s. generalize (Some start) as p.
  induction IH as [|t kids Ht _ IHkids]; intros p s; simpl.
  - intros k m H. discriminate H.
  - apply Aggregated_app; [apply Ht|apply IHkids].
Qed.

Lemma flattenForest_Aggregated (ts : list NodeTree) :
  forall parent start, Aggregated (flattenForest parent start ts).
Proof.
  induction ts as [|t ts IH]; intros parent start; simpl.
  - intros k n H. discriminate H.
  - apply Aggregated_app; [apply flatten_Aggregated|apply IH].
Qed.

(** The parent reference of a node of a placed list is the list's parent
    or an earlier position of the list. *)
Lemma Placed_parent_cases (parent : option nat) (start : nat)
    (l : list NodeDef) (k : nat) (n : NodeDef) :
  Placed parent start l -> l !! k = Some n ->
  nd_parent n = parent \/
  exists q, nd_parent n = Some q /\ start <= q /\ q < start + k.
Proof.
  intros H Hn. destruct (H k n Hn) as (_ & _ & _ & Hp).
  destruct Hp as [[Hp _]|(k' & n' & _ & Hlt & _ & Hp & _)]; [now left|].
  right. exists (start + k'). split; [exact Hp|lia].
Qed.

Lemma filter_parent_nil (l : list NodeDef) (p : option nat) :
  (forall k n, l !! k = Some n -> nd_parent n <> p) ->
  filter (fun m => nd_parent m = p) l = [].
Proof.
  induction l as [|n l IH]; intros H; [reflexivity|].
  rewrite filter_cons_False by exact (H 0 n eq_refl).
  apply IH. intros k n' Hn'. exact (H (S k) n' Hn').
Qed.

Lemma refersBefore_neq (parent : option nat) (start q : nat) :
  refersBefore parent start -> start <= q -> parent <> Some q.
Proof. intros H Hq ->. simpl in H. lia. Qed.

Lemma directChildren_outside (parent : option nat) (start : nat)
    (l : list NodeDef) (i : nat) :
  Placed parent start l -> parent <> Some i ->
  (i < start \/ start + length l <= S i) ->
  directChildren l i = [].
Proof.
  intros Hpl Hne Hi. apply filter_parent_nil. intros k n Hn.
  pose proof (lookup_lt_Some _ _ _ Hn) as Hlen.
  destruct (Placed_parent_cases _ _ _ _ _ Hpl Hn) as [->|(q & -> & H1 & H2)];
    [exact Hne|].
  intros [= ->]. lia.
Qed.

Lemma flattenForest_cons (parent : option nat) (start : nat) (t : NodeTree)
    (ts : list NodeTree) :
  flattenForest parent start (t :: ts)
  = flattenTree parent start t
      ++ flattenForest parent (start + length (flattenTree parent start t)) ts.
Proof. reflexivity. Qed.

Lemma flattenForest_roots (ts : list NodeTree) :
  forall parent start, refersBefore parent start ->
    map nd_flags
        (filter (fun m => nd_parent m = parent)
                (flattenForest parent start ts))
    = map (fun t => nd_flags (treeNode t)) ts.
Proof.
  induction ts as [|[n kids] ts IH]; intros parent start Hp; [reflexivity|].
  rewrite flattenForest_cons, filter_app, map_app, flattenTree_unfold.
  rewrite filter_cons_True by reflexivity.
  rewrite filter_parent_nil.
  - simpl. f_equal. apply IH. destruct parent; simpl in *; lia.
  - intros k m Hm.
    destruct (Placed_parent_cases _ _ _ _ _
                (flattenForest_Placed kids (Some start) (S start)) Hm)
      as [->|(q & -> & H1 & _)].
    + intros <-. simpl in Hp. lia.
    + apply not_eq_sym, (refersBefore_neq _ start); [exact Hp|lia].
Qed.

Lemma DirectAggregated_cons (parent : option nat) (start : nat)
    (n0 : NodeDef) (below : list NodeDef) :
  refersBefore parent start -> nd_parent n0 = parent ->
  nd_directChildFlags n0
    = orAll (map nd_flags (directChildren below start)) ->
  DirectAggregated (S start) below ->
  DirectAggregated start (n0 :: below).
Proof.
  intros Hp Hpar Hd Hbelow k n Hn.
  assert (Hskip : forall i, start <= i ->
            directChildren (n0 :: below) i = directChildren below i).
  { intros i Hi. unfold directChildren. apply filter_cons_False.
    rewrite Hpar. now apply refersBefore_neq with start. }
  rewrite Hskip by lia. destruct k as [|k]; simpl in Hn.
  - injection Hn as <-. now rewrite Nat.add_0_r.
  - rewrite (Hbelow k n Hn). do 3 f_equal. lia.
Qed.

Lemma DirectAggregated_app (parent : option nat) (start : nat)
    (l1 l2 : list NodeDef) :
  refersBefore parent start ->
  Placed parent start l1 -> Placed parent (start + length l1) l2 ->
  DirectAggregated start l1 -> DirectAggregated (start + length l1) l2 ->
  DirectAggregated start (l1 ++ l2).
Proof.
  intros Hp Hp1 Hp2 H1 H2 k n Hn.
  unfold directChildren. rewrite filter_app.
  apply lookup_app_Some in Hn as [Hn|[Hge Hn]].
  - pose proof (lookup_lt_Some _ _ _ Hn) as Hlen.
    fold (directChildren l2 (start + k)).
    rewrite (directChildren_outside _ _ _ _ Hp2), app_nil_r.
    + apply (H1 k n Hn).
    + apply refersBefore_neq with start; [exact Hp|lia].
    + left. lia.
  - fold (directChildren l1 (start + k)).
    rewrite (directChildren_outside _ _ _ _ Hp1), app_nil_l.
    + rewrite (H2 _ n Hn).
      now replace (start + length l1 + (k - length l1)) with (start + k)
        by lia.
    + apply refersBefore_neq with start; [exact Hp|lia].
    + right. lia.
Qed.

Lemma flatten_DirectAggregated (t : NodeTree) :
  forall parent start, refersBefore parent start ->
    DirectAggregated start (flattenTree parent start t).
Proof.
  induction t as [n kids IH] using NodeTree_ind. intros parent start Hp.
  rewrite flattenTree_unfold.
  apply DirectAggregated_cons with parent; try reflexivity; [exact Hp| |].
  - simpl. unfold directChildren. f_equal. symmetry.
    apply flattenForest_roots. simpl. lia.
  - assert (Hs : refersBefore (Some start) (S start)) by (simpl; lia).
    revert Hs. generalize (S start) as s. generalize (Some start) as p.
    induction IH as [|t kids Ht _ IHkids]; intros p s Hs; simpl.
    + intros k m H. discriminate H.
    + apply DirectAggregated_app with p; try assumption.
      * apply flatten_Placed.
      * apply flattenForest_Placed.
      * now apply Ht.
      * apply IHkids. destruct p; simpl in *; lia.
Qed.

Lemma flattenForest_DirectAggregated (ts : list NodeTree) :
  forall parent start, refersBefore parent start ->
    DirectAggregated start (flattenForest parent start ts).
Proof.
  induction ts as [|t ts IH]; intros parent start Hp; simpl.
  - intros k m H. discriminate H.
  - apply DirectAggregated_app with parent; try assumption.
    + apply flatten_Placed.
    + apply flattenForest_Placed.
    + now apply flatten_DirectAggregated.
    + apply IH. destruct parent; simpl in *; lia.
Qed.

(** Assigning the binding and output slices leaves the tree fields as
    they are. *)
Lemma assignSlices_same (l : list NodeDef) :
  Forall2 sameTreeFields l (assignSlices l).
Proof.
  apply Forall2_same_length_lookup_2.
  - unfold assignSlices. now rewrite length_imap.
  - intros i x y Hx Hy. unfold assignSlices in Hy.
    rewrite list_lookup_imap, Hx in Hy. injection Hy as <-.
    reflexivity.
Qed.

Lemma sameTreeFields_fields (n n' : NodeDef) :
  sameTreeFields n n' ->
  nd_index n' = nd_index n /\ nd_parent n' = nd_parent n /\
  nd_childCount n' = nd_childCount n /\ nd_flags n' = nd_flags n /\
  nd_childFlags n' = nd_childFlags n /\
  nd_directChildFlags n' = nd_directChildFlags n /\
  nd_matchedQueryIds n' = nd_matchedQueryIds n /\
  nd_childMatchedQueries n' = nd_childMatchedQueries n /\
  nd_element n' = nd_element n /\
  matchedWithTemplate n' = matchedWithTemplate n.
Proof. intros ->. repeat split; reflexivity. Qed.

Lemma Forall2_same_map {B : Type} (f : NodeDef -> B) (l l' : list NodeDef) :
  (forall n n', sameTreeFields n n' -> f n' = f n) ->
  Forall2 sameTreeFields l l' -> map f l' = map f l.
Proof.
  intros Hf. induction 1 as [|n n' l l' Hn _ IH]; [reflexivity|].
  simpl. now rewrite IH, (Hf n n' Hn).
Qed.

Lemma Forall2_same_following (l l' : list NodeDef) (k c : nat) :
  Forall2 sameTreeFields l l' ->
  Forall2 sameTreeFields (following l k c) (following l' k c).
Proof. intros H. now apply Forall2_take, Forall2_drop. Qed.

Lemma Forall2_same_directChildren (l l' : list NodeDef) (i : nat) :
  Forall2 sameTreeFields l l' ->
  Forall2 sameTreeFields (directChildren l i) (directChildren l' i).
Proof.
  unfold directChildren.
  induction 1 as [|n n' l l' Hn _ IH]; [constructor|].
  destruct (sameTreeFields_fields n n' Hn) as (_ & Hp & _).
  destruct (decide (nd_parent n = Some i)) as [E|E].
  - rewrite !filter_cons_True by congruence. now constructor.
  - rewrite !filter_cons_False by congruence. exact IH.
Qed.

Lemma Placed_same (parent : option nat) (start : nat) (l l' : list NodeDef) :
  Forall2 sameTreeFields l l' -> Placed parent start l ->
  Placed parent start l'.
Proof.
  intros Hs Hpl k n' Hn'.
  destruct (Forall2_lookup_r _ _ _ _ _ Hs Hn') as (n & Hn & Hnn).
  destruct (sameTreeFields_fields n n' Hnn) as (Ei & Ep & Ec & _).
  destruct (Hpl k n Hn) as (Hi & Hr & Hlam & Hp).
  rewrite Ei, Ep, Ec, <- (Forall2_length _ _ _ Hs).
  split; [exact Hi|]. split; [exact Hr|]. split.
  - intros j m' Hm' Hlt Hle.
    destruct (Forall2_lookup_r _ _ _ _ _ Hs Hm') as (m & Hm & Hmm).
    destruct (sameTreeFields_fields m m' Hmm) as (_ & _ & -> & _).
    now apply (Hlam j m).
  - destruct Hp as [[Hp Hroot]|(k' & n1 & Hn1 & Hlt & Hle & Hp & Hnear)].
    + left. split; [exact Hp|]. intros k' m' Hm' Hlt.
      destruct (Forall2_lookup_r _ _ _ _ _ Hs Hm') as (m & Hm & Hmm).
      destruct (sameTreeFields_fields m m' Hmm) as (_ & _ & -> & _).
      now apply (Hroot k' m).
    + right.
      destruct (Forall2_lookup_l _ _ _ _ _ Hs Hn1) as (n1' & Hn1' & Hnn1).
      destruct (sameTreeFields_fields n1 n1' Hnn1) as (_ & _ & Ec1 & _).
      exists k', n1'. rewrite Ec1.
      split; [exact Hn1'|]. split; [exact Hlt|]. split; [exact Hle|].
      split; [exact Hp|]. intros k'' m' Hm' Ha Hb.
      destruct (Forall2_lookup_r _ _ _ _ _ Hs Hm') as (m & Hm & Hmm).
      destruct (sameTreeFields_fields m m' Hmm) as (_ & _ & -> & _).
      now apply (Hnear k'' m).
Qed.

Lemma Aggregated_same (l l' : list NodeDef) :
  Forall2 sameTreeFields l l' -> Aggregated l -> Aggregated l'.
Proof.
  intros Hs Ha k n' Hn'.
  destruct (Forall2_lookup_r _ _ _ _ _ Hs Hn') as (n & Hn & Hnn).
  destruct (sameTreeFields_fields n n' Hnn)
    as (_ & _ & Ec & _ & Ecf & _ & _ & Ecq & _).
  destruct (Ha k n Hn) as (Hr & Hf & Hq).
  rewrite Ec, Ecf, Ecq, <- (Forall2_length _ _ _ Hs).
  split; [exact Hr|].
  pose proof (Forall2_same_following l l' k (nd_childCount n) Hs) as Hfol.
  rewrite (Forall2_same_map nd_flags _ _
             (fun a b H => proj1 (proj2 (proj2 (proj2
                (sameTreeFields_fields a b H))))) Hfol).
  rewrite (Forall2_same_map matchedWithTemplate _ _
             (fun a b H => proj2 (proj2 (proj2 (proj2 (proj2 (proj2 (proj2
                (proj2 (proj2 (sameTreeFields_fields a b H)))))))))) Hfol).
  split; assumption.
Qed.

Lemma DirectAggregated_same (start : nat) (l l' : list NodeDef) :
  Forall2 sameTreeFields l l' -> DirectAggregated start l ->
  DirectAggregated start l'.
Proof.
  intros Hs Ha k n' Hn'.
  destruct (Forall2_lookup_r _ _ _ _ _ Hs Hn') as (n & Hn & Hnn).
  destruct (sameTreeFields_fields n n' Hnn)
    as (_ & _ & _ & _ & _ & Ed & _).
  rewrite Ed, (Ha k n Hn).
  now rewrite (Forall2_same_map nd_flags _ _
             (fun a b H => proj1 (proj2 (proj2 (proj2
                (sameTreeFields_fields a b H)))))
             (Forall2_same_directChildren l l' (start + k) Hs)).
Qed.

(** The nodes of an assembled view definition satisfy the three
    invariants. *)
Lemma viewDef_layout (flags : Z) (trees : list NodeTree)
    (updateDirectives updateRenderer : ViewUpdateFn) :
  let nodes := vd_nodes (viewDef flags trees updateDirectives updateRenderer) in
  Placed None 0 nodes /\ Aggregated nodes /\ DirectAggregated 0 nodes.
Proof.
  simpl.
  pose proof (assignSlices_same (flattenForest None 0 trees)) as Hs.
  split; [|split].
  - apply (Placed_same _ _ _ _ Hs), flattenForest_Placed.
  - apply (Aggregated_same _ _ Hs), flattenForest_Aggregated.
  - apply (DirectAggregated_same _ _ _ Hs), flattenForest_DirectAggregated.
    exact I.
Qed.

(** In a placed list that starts the sequence, a [parent] reference is
    an earlier node whose subtree contains the referring node. *)
Lemma Placed_parent_range (nodes : list NodeDef) (j q : nat) (m : NodeDef) :
  Placed None 0 nodes -> nodes !! j = Some m -> nd_parent m = Some q ->
  exists nq, nodes !! q = Some nq /\ q < j /\ j <= q + nd_childCount nq.
Proof.
  intros Hpl Hm Hp. destruct (Hpl j m Hm) as (_ & _ & _ & Hcase).
  destruct Hcase as [[Hnone _]|(k' & n' & Hn' & Hlt & Hle & Hp' & _)].
  - congruence.
  - rewrite Hp in Hp'. injection Hp' as ->. now exists n'.
Qed.

Lemma Placed_transitiveChild (nodes : list NodeDef) (i : nat) (n : NodeDef) :
  Placed None 0 nodes -> nodes !! i = Some n ->
  forall j, transitiveChild nodes i j <-> i < j /\ j <= i + nd_childCount n.
Proof.
  intros Hpl Hn j. split.
  - induction 1 as [j m Hm Hp|j m q Hm Hp _ IH].
    + destruct (Placed_parent_range _ _ _ _ Hpl Hm Hp) as (ni & Hni & H1 & H2).
      rewrite Hn in Hni. injection Hni as <-. lia.
    + destruct (Placed_parent_range _ _ _ _ Hpl Hm Hp) as (nq & Hnq & H1 & H2).
      destruct (Hpl i n Hn) as (_ & _ & Hlam & _).
      specialize (Hlam q nq Hnq). lia.
  - induction j as [j IH] using lt_wf_ind. intros [Hlt Hle].
    destruct (Hpl i n Hn) as (_ & Hr & _).
    destruct (lookup_lt_is_Some_2 nodes j) as [m Hm]; [lia|].
    destruct (Hpl j m Hm) as (_ & _ & _ & Hcase).
    destruct Hcase as [[_ Hroot]|(k' & n' & Hn' & Hk & Hk' & Hp & Hnear)].
    + specialize (Hroot i n Hn). lia.
    + simpl in Hp.
      assert (Hge : i <= k').
      { destruct (Nat.le_gt_cases i k') as [H|H]; [exact H|].
        specialize (Hnear i n Hn). lia. }
      destruct (Nat.eq_dec k' i) as [->|Hne].
      * now apply tc_direct with m.
      * apply tc_step with m k'; [exact Hm|exact Hp|].
        apply IH; lia.
Qed.

Lemma WellFormedDef_layout (def : ViewDefinition) :
  WellFormedDef def ->
  Placed None 0 (vd_nodes def) /\ Aggregated (vd_nodes def) /\
  DirectAggregated 0 (vd_nodes def).
Proof. intros [flags trees ud ur _]. apply viewDef_layout. Qed.

(** C8: in a well-formed view definition, the node at position [i]
    carries [i] as its index; its transitive children, the nodes from
    which the parent references lead to it, are exactly the nodes at the
    positions [i+1 .. i+childCount], which exist in the sequence; its
    [childFlags] is the or of the flags of these nodes and its
    [directChildFlags] the or of the flags of the nodes whose parent it
    is. *)
Theorem child_aggregates (def : ViewDefinition) (i : nat) (n : NodeDef) :
  WellFormedDef def -> vd_nodes def !! i = Some n ->
  nd_index n = i /\
  (forall j, transitiveChild (vd_nodes def) i j
             <-> i < j /\ j <= i + nd_childCount n) /\
  length (following (vd_nodes def) i (nd_childCount n)) = nd_childCount n /\
  nd_childFlags n
    = orAll (map nd_flags (following (vd_nodes def) i (nd_childCount n))) /\
  nd_directChildFlags n
    = orAll (map nd_flags (directChildren (vd_nodes def) i)).
Proof.
  intros Hwf Hn.
  destruct (WellFormedDef_layout def Hwf) as (Hpl & Hagg & Hdir).
  destruct (Hpl i n Hn) as (Hi & Hr & _).
  destruct (Hagg i n Hn) as (_ & Hcf & _).
  split; [exact Hi|]. split; [now apply Placed_transitiveChild|].
  split; [|split; [exact Hcf|exact (Hdir i n Hn)]].
  unfold following. rewrite length_take, length_drop. lia.
Qed.

Lemma no_templates_WellFormedDef (flags : Z) (trees : list NodeTree)
    (ud ur : ViewUpdateFn) :
  Forall (fun m => nd_element m = None) (vd_nodes (viewDef flags trees ud ur)) ->
  WellFormedDef (viewDef flags trees ud ur).
Proof.
  intros H. constructor. intros j m e t Hj He _.
  rewrite Forall_lookup in H. specialize (H j m Hj). congruence.
Qed.

Lemma sampleDef_wf : WellFormedDef sampleDef.
Proof. apply no_templates_WellFormedDef. repeat constructor. Qed.

Lemma oneMatchDef_wf : WellFormedDef oneMatchDef.
Proof. apply no_templates_WellFormedDef. repeat constructor. Qed.

Lemma child_aggregates_witness :
  WellFormedDef sampleDef /\
  exists n, vd_nodes sampleDef !! 0 = Some n /\
    nd_index n = 0 /\
    (forall j, transitiveChild (vd_nodes sampleDef) 0 j
               <-> 0 < j /\ j <= 0 + nd_childCount n) /\
    length (following (vd_nodes sampleDef) 0 (nd_childCount n))
      = nd_childCount n /\
    nd_childFlags n
      = orAll (map nd_flags (following (vd_nodes sampleDef) 0 (nd_childCount n))) /\
    nd_directChildFlags n
      = orAll (map nd_flags (directChildren (vd_nodes sampleDef) 0)).
Proof.
  split; [exact sampleDef_wf|].
  eexists. split; [reflexivity|].
  apply (child_aggregates sampleDef 0 _ sampleDef_wf). reflexivity.
Defined.

(** ** Query filters *)

Lemma hasAll_lor_l (a b f : Z) :
  hasAll a f = true -> hasAll (Z.lor a b) f = true.
Proof.
  unfold hasAll. rewrite !Z.eqb_eq. intros H.
  rewrite Z.land_lor_distr_l, H.
  apply Z.bits_inj'. intros k _. rewrite Z.lor_spec, Z.land_spec.
  destruct (Z.testbit f k), (Z.testbit b k); reflexivity.
Qed.

Lemma hasAll_lor_r (a b f : Z) :
  hasAll b f = true -> hasAll (Z.lor a b) f = true.
Proof. rewrite Z.lor_comm. apply hasAll_lor_l. Qed.

Lemma hasAll_orAll {A : Type} (g : A -> Z) (l : list A) (k : nat) (x : A)
    (f : Z) :
  l !! k = Some x -> hasAll (g x) f = true ->
  hasAll (orAll (map g l)) f = true.
Proof.
  revert k. induction l as [|y l IH]; intros [|k] Hk Hx; try discriminate Hk;
    simpl in *.
  - injection Hk as ->. now apply hasAll_lor_l.
  - apply hasAll_lor_r. now apply (IH k).
Qed.

Lemma matchInside_filter (f : Z) (def : ViewDefinition) :
  matchInside f def -> WellFormedDef def ->
  hasAll (vd_nodeMatchedQueries def) f = true.
Proof.
  induction 1 as [def j m Hm Hf|def j m e t Hm He Ht _ IH]; intros Hwf.
  - destruct Hwf as [flags trees ud ur _].
    apply (hasAll_orAll matchedWithTemplate _ j m); [exact Hm|].
    now apply hasAll_lor_l.
  - destruct Hwf as [flags trees ud ur Htempl].
    specialize (IH (Htempl j m e t Hm He Ht)).
    apply (hasAll_orAll matchedWithTemplate _ j m); [exact Hm|].
    apply hasAll_lor_r. now rewrite He, Ht.
Qed.

Lemma matchAt_filter (f : Z) (def : ViewDefinition) (j : nat) (m : NodeDef) :
  WellFormedDef def -> vd_nodes def !! j = Some m -> matchAt f m ->
  hasAll (matchedWithTemplate m) f = true.
Proof.
  intros Hwf Hm [Hf|(e & t & He & Ht & Hin)].
  - now apply hasAll_lor_l.
  - apply hasAll_lor_r. rewrite He, Ht.
    apply matchInside_filter; [exact Hin|].
    destruct Hwf as [flags trees ud ur Htempl].
    exact (Htempl j m e t Hm He Ht).
Qed.

Lemma following_lookup (nodes : list NodeDef) (i c j : nat) :
  i < j -> j <= i + c ->
  following nodes i c !! (j - S i) = nodes !! j.
Proof.
  intros H1 H2. unfold following.
  rewrite lookup_take_lt by lia. rewrite lookup_drop. f_equal. lia.
Qed.

(** The claim of C2 takes the filter of a subtree to be the
    [childMatchedQueries] of its root; a subtree contains its root, and a
    match of the root itself is not recorded there.  The view of a single
    text node that matches the query with filter id 1 is well-formed, its
    node matches, and the filter of the node's subtree is empty. *)
Lemma root_match_not_in_child_filter :
  WellFormedDef oneMatchDef /\
  (exists n, vd_nodes oneMatchDef !! 0 = Some n /\
     hasAll (nd_matchedQueryIds n) 1 = true /\
     hasAll (nd_childMatchedQueries n) 1 = false) /\
  ~ (forall def f i n j m,
       WellFormedDef def ->
       vd_nodes def !! i = Some n -> vd_nodes def !! j = Some m ->
       i <= j -> j <= i + nd_childCount n ->
       hasAll (nd_matchedQueryIds m) f = true ->
       hasAll (nd_childMatchedQueries n) f = true).
Proof.
  split; [exact oneMatchDef_wf|]. split.
  - eexists. split; [reflexivity|]. split; reflexivity.
  - intros H.
    specialize (H oneMatchDef 1%Z 0 _ 0 _ oneMatchDef_wf eq_refl eq_refl
                  (Nat.le_refl 0) (Nat.le_0_l _) eq_refl).
    discriminate H.
Qed.

(** C2 (amended): in a well-formed view definition, when a query has a
    match at a transitive child of a node (at the child itself or inside
    the child's template), the node's [childMatchedQueries] has the bits
    of the query's filter id; together with the node's own matches this
    covers the whole subtree; and when a query has a match anywhere in
    the view, the view's [nodeMatchedQueries] has the bits.  The converse
    is not claimed. *)
Theorem bloom_filter_sound (def : ViewDefinition) (f : Z) :
  WellFormedDef def ->
  (forall i n j m,
     vd_nodes def !! i = Some n -> vd_nodes def !! j = Some m ->
     transitiveChild (vd_nodes def) i j -> matchAt f m ->
     hasAll (nd_childMatchedQueries n) f = true) /\
  (forall i n j m,
     vd_nodes def !! i = Some n -> vd_nodes def !! j = Some m ->
     j = i \/ transitiveChild (vd_nodes def) i j -> matchAt f m ->
     hasAll (Z.lor (matchedWithTemplate n) (nd_childMatchedQueries n)) f
       = true) /\
  (matchInside f def -> hasAll (vd_nodeMatchedQueries def) f = true).
Proof.
  intros Hwf.
  destruct (WellFormedDef_layout def Hwf) as (Hpl & Hagg & _).
  assert (Hsub : forall i n j m,
     vd_nodes def !! i = Some n -> vd_nodes def !! j = Some m ->
     transitiveChild (vd_nodes def) i j -> matchAt f m ->
     hasAll (nd_childMatchedQueries n) f = true).
  { intros i n j m Hn Hm Htc Hmatch.
    apply (Placed_transitiveChild _ i n Hpl Hn) in Htc as [H1 H2].
    destruct (Hagg i n Hn) as (_ & _ & ->).
    apply (hasAll_orAll matchedWithTemplate _ (j - S i) m).
    - rewrite following_lookup by lia. exact Hm.
    - now apply (matchAt_filter f def j). }
  split; [exact Hsub|]. split.
  - intros i n j m Hn Hm [->|Htc] Hmatch.
    + rewrite Hn in Hm. injection Hm as <-.
      apply hasAll_lor_l. now apply (matchAt_filter f def i).
    + apply hasAll_lor_r. now apply (Hsub i n j m).
  - intros Hin. now apply matchInside_filter.
Qed.

Lemma sample_text_in_div :
  transitiveChild (vd_nodes sampleDef) 0 1.
Proof. eapply tc_direct; reflexivity. Qed.

Lemma bloom_filter_sound_witness :
  WellFormedDef sampleDef /\
  (exists n m,
     vd_nodes sampleDef !! 0 = Some n /\ vd_nodes sampleDef !! 1 = Some m /\
     transitiveChild (vd_nodes sampleDef) 0 1 /\ matchAt 1 m /\
     hasAll (nd_childMatchedQueries n) 1 = true) /\
  matchInside 1 sampleDef /\
  hasAll (vd_nodeMatchedQueries sampleDef) 1 = true.
Proof.
  assert (Hin : matchInside 1 sampleDef)
    by (eapply (match_node 1 sampleDef 1); reflexivity).
  split; [exact sampleDef_wf|]. split; [|split; [exact Hin|]].
  - eexists. eexists. split; [reflexivity|]. split; [reflexivity|].
    split; [exact sample_text_in_div|].
    assert (Hm : matchAt 1 (nodeOf NodeFlags.TypeText 1))
      by (left; reflexivity).
    split; [exact Hm|].
    exact (proj1 (bloom_filter_sound sampleDef 1 sampleDef_wf)
             0 _ 1 _ eq_refl eq_refl sample_text_in_div Hm).
  - exact (proj2 (proj2 (bloom_filter_sound sampleDef 1 sampleDef_wf)) Hin).
Defined.

(** False positives are possible: the filter of the sample view has both
    bits of the filter id 3, and no node matches a query with that filter
    id. *)
Example bloom_filter_false_positive :
  hasAll (vd_nodeMatchedQueries sampleDef) 3 = true /\
  Forall (fun m => hasAll (nd_matchedQueryIds m) 3 = false)
         (vd_nodes sampleDef).
Proof. split; [reflexivity|repeat constructor]. Qed.

(** ** The check cycle: [CheckNoChanges] *)

Lemma NoChangesTrace_nil : NoChangesTrace [] None.
Proof. split; constructor. Qed.

Lemma NoChangesTrace_app (evs1 evs2 : list Event) (err : option CheckError) :
  NoChangesTrace evs1 None -> NoChangesTrace evs2 err ->
  NoChangesTrace (evs1 ++ evs2) err.
Proof.
  intros [Hc1 Hd1] [Hc2 Hd2]. split; [now apply Forall_app|].
  destruct err as [[path node b c v| | |]|]; try (now apply Forall_app).
  destruct Hd2 as (evs' & phase & -> & Hne & Hd2).
  exists (evs1 ++ evs'), phase. rewrite app_assoc.
  split; [reflexivity|]. split; [exact Hne|now apply Forall_app].
Qed.

Lemma Quiet_id : Quiet (fun r => r).
Proof.
  intros r Hr. split; [reflexivity|]. exists []. rewrite app_nil_r, Hr.
  split; [reflexivity|apply NoChangesTrace_nil].
Qed.

Lemma Quiet_andThen (f g : Run -> Run) :
  Quiet f -> Quiet g -> Quiet (fun r => andThen (f r) g).
Proof.
  intros Hf Hg r Hr. destruct (Hf r Hr) as (Hv & evs & Ht & Hn).
  unfold andThen. destruct (run_error (f r)) eqn:E.
  - split; [exact Hv|]. exists evs. rewrite E. now split.
  - destruct (Hg (f r) E) as (Hv' & evs' & Ht' & Hn').
    split; [congruence|]. exists (evs ++ evs').
    rewrite Ht', Ht, app_assoc. split; [reflexivity|].
    now apply NoChangesTrace_app.
Qed.

Lemma forEach_error {A : Type} (f : A -> Run -> Run) (l : list A) (r : Run) :
  run_error r <> None -> forEach f l r = r.
Proof.
  intros Hr. induction l as [|x l IH]; [reflexivity|].
  unfold forEach in *. simpl. unfold andThen at 2.
  destruct (run_error r); [exact IH|congruence].
Qed.

Lemma forEach_cons {A : Type} (f : A -> Run -> Run) (x : A) (l : list A)
    (r : Run) :
  forEach f (x :: l) r = andThen (andThen r (f x)) (forEach f l).
Proof.
  change (forEach f (x :: l) r) with (forEach f l (andThen r (f x))).
  unfold andThen at 2.
  destruct (run_error (andThen r (f x))) eqn:E; [|reflexivity].
  apply forEach_error. congruence.
Qed.

Lemma forEach_nil {A : Type} (f : A -> Run -> Run) (r : Run) :
  forEach f [] r = r.
Proof. reflexivity. Qed.

Lemma andThen_ok (r : Run) (f : Run -> Run) :
  run_error r = None -> andThen r f = f r.
Proof. intros H. unfold andThen. now rewrite H. Qed.

Lemma andThen_error (r : Run) (f : Run -> Run) :
  run_error r <> None -> andThen r f = r.
Proof. intros H. unfold andThen. destruct (run_error r); congruence. Qed.

Lemma Quiet_forEach {A : Type} (f : A -> Run -> Run) (l : list A) :
  (forall x, Quiet (f x)) -> Quiet (forEach f l).
Proof.
  intros Hf. induction l as [|x l IH]; [apply Quiet_id|].
  intros r Hr. rewrite forEach_cons, (andThen_ok r) by exact Hr.
  exact (Quiet_andThen (f x) (forEach f l) (Hf x) IH r Hr).
Qed.

Lemma compareBindings_trace (path : ViewPath) (phase : Phase) (i : nat)
    (n : NodeDef) (oldValues values : list Value) (count : nat) :
  forall k,
    NoChangesTrace
      (compareBindings path phase i n oldValues values k count).1
      (compareBindings path phase i n oldValues values k count).2.
Proof.
  induction count as [|count IH]; intros k; simpl.
  - apply NoChangesTrace_nil.
  - destruct (decide _) as [E|E].
    + specialize (IH (S k)).
      destruct (compareBindings path phase i n oldValues values (S k) count)
        as [evs e]. simpl in *.
      apply (NoChangesTrace_app [_] evs e); [|exact IH].
      split; repeat constructor. simpl. congruence.
    + simpl. split; [repeat constructor|].
      exists [], phase. split; [reflexivity|]. split; [exact E|constructor].
Qed.

Lemma setNodes_same (v : ViewData) (i : nat) (d : NodeData) :
  v_nodes v !! i = Some d -> setNodes v (<[i := d]> (v_nodes v)) = v.
Proof. intros H. rewrite insert_id by exact H. now destruct v. Qed.

Lemma checkNode_Quiet (path : ViewPath) (phase : Phase) (i : nat)
    (n : NodeDef) (values : list Value) :
  Quiet (checkNode CheckNoChanges path phase i n values).
Proof.
  intros r Hr. unfold checkNode.
  pose proof (compareBindings_trace path phase i n
                (v_oldValues (run_view r)) values
                (length (nd_bindings n)) 0) as H.
  destruct (compareBindings _ _ _ _ _ _ _ _) as [evs e]. simpl in *.
  split; [reflexivity|]. now exists evs.
Qed.

Lemma runCall_Quiet (path : ViewPath) (phase : Phase) (i : nat) (n : NodeDef)
    (c : CheckCall) :
  Quiet (runCall CheckNoChanges path phase i n c).
Proof.
  intros r Hr. unfold runCall.
  destruct (cc_eval c (run_world r)) as [w' [values|]].
  - exact (checkNode_Quiet path phase i n values
             (mkRun (run_view r) w' (run_trace r) None) eq_refl).
  - simpl. split; [reflexivity|]. exists []. rewrite app_nil_r.
    split; [reflexivity|]. split; constructor.
Qed.

Lemma checkNodes_Quiet (path : ViewPath) (phase : Phase)
    (calls : list CheckCall) (after : nat -> NodeDef -> Run -> Run)
    (items : list (nat * NodeDef)) :
  (forall i n, Quiet (after i n)) ->
  Quiet (checkNodes CheckNoChanges path phase calls after items).
Proof.
  intros Hafter. unfold checkNodes. apply Quiet_forEach.
  intros [i n]. apply Quiet_andThen; [|apply Hafter].
  apply Quiet_forEach. intros c. apply runCall_Quiet.
Qed.

Lemma updateDirectives_Quiet (path : ViewPath) :
  Quiet (updateDirectives CheckNoChanges path).
Proof.
  intros r Hr. unfold updateDirectives.
  apply checkNodes_Quiet; [|exact Hr]. intros i n. apply Quiet_id.
Qed.

Lemma checkEmbedded_quiet (check : ViewPath -> World -> ViewData -> Run)
    (path : ViewPath) (i : nat) (views : list ViewData) :
  QuietCheck check ->
  forall k w,
    (checkEmbedded check path i k views w).1.1.1 = views /\
    NoChangesTrace (checkEmbedded check path i k views w).1.2
                   (checkEmbedded check path i k views w).2.
Proof.
  intros Hq. induction views as [|e rest IH]; intros k w; simpl.
  - split; [reflexivity|apply NoChangesTrace_nil].
  - destruct (Hq (path ++ [ViaEmbedded i k]) w e) as [Hv Ht].
    destruct (run_error (check (path ++ [ViaEmbedded i k]) w e)) eqn:E.
    + simpl. split; [now rewrite Hv|exact Ht].
    + specialize (IH (S k) (run_world (check (path ++ [ViaEmbedded i k]) w e))).
      destruct (checkEmbedded check path i (S k) rest _)
        as [[[rest' w'] evs] err]. simpl in *.
      destruct IH as [-> IH]. split; [now rewrite Hv|].
      now apply NoChangesTrace_app.
Qed.

Lemma checkComponentView_quiet
    (check : ViewPath -> World -> ViewData -> Run) (path : ViewPath)
    (i : nat) (cv : option ViewData) (w : World) :
  QuietCheck check ->
  (checkComponentView check path i cv w).1.1.1 = cv /\
  NoChangesTrace (checkComponentView check path i cv w).1.2
                 (checkComponentView check path i cv w).2.
Proof.
  intros Hq. destruct cv as [child|]; simpl.
  - destruct (Hq (path ++ [ViaComponent i]) w child) as [Hv Ht].
    now rewrite Hv.
  - split; [reflexivity|apply NoChangesTrace_nil].
Qed.

Lemma checkContainer_quiet
    (check : ViewPath -> World -> ViewData -> Run) (path : ViewPath)
    (i : nat) (vc : option ViewContainerData) (w : World) :
  QuietCheck check ->
  (checkContainer check path i vc w).1.1.1 = vc /\
  NoChangesTrace (checkContainer check path i vc w).1.2
                 (checkContainer check path i vc w).2.
Proof.
  intros Hq. destruct vc as [[views]|]; simpl.
  - destruct (checkEmbedded_quiet check path i views Hq 0 w) as [Hv Ht].
    destruct (checkEmbedded check path i 0 views w)
      as [[[views' w'] evs] err]. simpl in *. now subst views'.
  - split; [reflexivity|apply NoChangesTrace_nil].
Qed.

Lemma checkOwnedViews_Quiet (check : ViewPath -> World -> ViewData -> Run)
    (path : ViewPath) (i : nat) :
  QuietCheck check -> Quiet (checkOwnedViews check path i).
Proof.
  intros Hq r Hr. unfold checkOwnedViews.
  destruct (asElementData (run_view r) i) as [d|] eqn:Hd;
    [|now apply Quiet_id].
  destruct d as [|re cv vc t| | |]; try now apply Quiet_id.
  destruct (checkComponentView_quiet check path i cv (run_world r) Hq)
    as [Hv1 Ht1].
  destruct (checkComponentView check path i cv (run_world r))
    as [[[cv' w1] evs1] err1]. simpl in Hv1, Ht1. subst cv'.
  destruct err1 as [e1|].
  - simpl. split; [now apply setNodes_same|].
    exists (evs1 ++ []). split; [reflexivity|now rewrite app_nil_r].
  - destruct (checkContainer_quiet check path i vc w1 Hq) as [Hv2 Ht2].
    destruct (checkContainer check path i vc w1) as [[[vc' w2] evs2] err2].
    simpl in Hv2, Ht2. subst vc'. simpl.
    split; [now apply setNodes_same|].
    exists (evs1 ++ evs2). split; [reflexivity|].
    now apply NoChangesTrace_app.
Qed.

Lemma updateRenderer_Quiet (check : ViewPath -> World -> ViewData -> Run)
    (path : ViewPath) :
  QuietCheck check -> Quiet (updateRenderer CheckNoChanges check path).
Proof.
  intros Hq r Hr. unfold updateRenderer.
  apply checkNodes_Quiet; [|exact Hr]. intros i n. unfold afterRenderer.
  destruct (nodeKind (nd_flags n)) as [[]|]; try apply Quiet_id.
  now apply checkOwnedViews_Quiet.
Qed.

Lemma checkView_QuietCheck (fuel : nat) :
  QuietCheck (checkView CheckNoChanges fuel).
Proof.
  induction fuel as [|fuel IH]; intros path w v; simpl.
  - split; [reflexivity|]. split; constructor.
  - destruct (eligible v); [|split; [reflexivity|apply NoChangesTrace_nil]].
    assert (Hq : Quiet (fun r =>
              andThen
                (andThen
                   (andThen
                      (andThen (updateDirectives CheckNoChanges path r)
                         (whenUpdating CheckNoChanges
                            (fun r => addEvents r
                                        (afterContentHooks path (run_view r)))))
                      (updateRenderer CheckNoChanges
                         (checkView CheckNoChanges fuel) path))
                   (whenUpdating CheckNoChanges
                      (fun r => addEvents r
                                  (afterViewHooks path (run_view r)))))
                (whenUpdating CheckNoChanges clearFirstCheck))).
    { repeat apply Quiet_andThen; try apply Quiet_id.
      - apply updateDirectives_Quiet.
      - now apply updateRenderer_Quiet. }
    destruct (Hq (mkRun v w [] None) eq_refl) as (Hv & evs & Ht & Hn).
    split; [exact Hv|]. simpl in Ht. now rewrite Ht.
Qed.

(** ** The check cycle: the two check types side by side *)

Lemma sameShape_inv (va vb : ViewData) :
  sameShape va vb ->
  v_def va = v_def vb /\ eligible va = eligible vb /\
  forall i, sameSlot (v_nodes va !! i) (v_nodes vb !! i).
Proof.
  intros [v|va' vb' Hd He Hs].
  - repeat split. intros i. apply slot_refl.
  - now repeat split.
Qed.

Lemma sameShape_option_refl (cv : option ViewData) :
  option_Forall2 sameShape cv cv.
Proof. destruct cv; constructor. apply shape_refl. Qed.

Lemma sameShape_list_refl (l : list ViewData) : Forall2 sameShape l l.
Proof. induction l; constructor; [apply shape_refl|assumption]. Qed.

Lemma sameSlot_element_l (re : Value) (cv : option ViewData)
    (vc : option ViewContainerData) (t : option TemplateData)
    (s : option NodeData) :
  sameSlot (Some (ElementData re cv vc t)) s ->
  exists re' cv' vc' t',
    s = Some (ElementData re' cv' vc' t') /\
    option_Forall2 sameShape cv cv' /\ sameContainer vc vc'.
Proof.
  intros H. inversion H as [s0|? re' ? cv' ? vc' ? t' Hcv Hvc|a b Ha Hb]; subst.
  - exists re, cv, vc, t. split; [reflexivity|].
    split; [apply sameShape_option_refl|apply container_refl].
  - now exists re', cv', vc', t'.
  - exfalso. now apply Ha.
Qed.

Lemma sameSlot_not_element_l (a b : option NodeData) :
  sameSlot a b -> ~ isElementData a -> ~ isElementData b.
Proof.
  intros H Ha. inversion H; subst; simpl in *; tauto.
Qed.

Lemma sameContainer_inv (vc vc' : option ViewContainerData) :
  sameContainer vc vc' ->
  match vc, vc' with
  | Some (mkViewContainerData l), Some (mkViewContainerData l') =>
      Forall2 sameShape l l'
  | None, None => True
  | _, _ => False
  end.
Proof.
  intros [c|l l' H]; [|exact H].
  destruct c as [[l]|]; [apply sameShape_list_refl|exact I].
Qed.

Lemma visits_app (evs1 evs2 : list Event) :
  visits (evs1 ++ evs2) = visits evs1 ++ visits evs2.
Proof. apply omap_app. Qed.

Lemma Extends_id : Extends (fun r => r).
Proof. intros r. exists []. now rewrite app_nil_r. Qed.

Lemma Extends_andThen (f g : Run -> Run) :
  Extends f -> Extends g -> Extends (fun r => andThen (f r) g).
Proof.
  intros Hf Hg r. destruct (Hf r) as [evs Hevs]. unfold andThen.
  destruct (run_error (f r)); [now exists evs|].
  destruct (Hg (f r)) as [evs' Hevs']. exists (evs ++ evs').
  now rewrite Hevs', Hevs, app_assoc.
Qed.

Lemma Extends_forEach {A : Type} (f : A -> Run -> Run) (l : list A) :
  (forall x, Extends (f x)) -> Extends (forEach f l).
Proof.
  intros Hf. induction l as [|x l IH]; [apply Extends_id|].
  intros r. destruct (run_error r) eqn:Hr.
  - rewrite forEach_error by congruence. apply Extends_id.
  - rewrite forEach_cons, (andThen_ok r) by exact Hr.
    apply (Extends_andThen (f x) (forEach f l) (Hf x) IH).
Qed.

Lemma Behind_extend (a a' b : Run) :
  Behind a b ->
  (exists evs, run_trace a' = run_trace a ++ evs) ->
  Behind a' b.
Proof.
  intros [He Hp] [evs Hevs]. split; [exact He|].
  rewrite Hevs, visits_app. now apply prefix_app_r.
Qed.

Lemma Steps_andThen (fa fb ga gb : Run -> Run) :
  Steps fa fb -> Steps ga gb -> Extends ga ->
  Steps (fun r => andThen (fa r) ga) (fun r => andThen (fb r) gb).
Proof.
  intros Hf Hg Hext a b Hl.
  destruct (Hf a b Hl) as [Hl'|Hb].
  - destruct Hl' as (Ea & Eb & Hrest).
    rewrite !andThen_ok by assumption.
    apply Hg. now repeat split.
  - right. destruct Hb as [Eb Hp].
    rewrite (andThen_error (fb b)) by exact Eb.
    apply Behind_extend with (fa a); [now split|].
    unfold andThen. destruct (run_error (fa a)).
    + exists []. now rewrite app_nil_r.
    + apply Hext.
Qed.

Lemma Steps_forEach {A : Type} (fa fb : A -> Run -> Run) (l : list A) :
  (forall x, Steps (fa x) (fb x)) -> (forall x, Extends (fa x)) ->
  Steps (forEach fa l) (forEach fb l).
Proof.
  intros Hs Hext. induction l as [|x l IH]; intros a b Hl.
  - now left.
  - rewrite !forEach_cons.
    destruct Hl as (Ea & Eb & Hrest).
    rewrite (andThen_ok a), (andThen_ok b) by assumption.
    apply (Steps_andThen (fa x) (fb x) (forEach fa l) (forEach fb l));
      [apply Hs|exact IH|now apply Extends_forEach|now repeat split].
Qed.

Lemma updateBindings_visits (path : ViewPath) (phase : Phase) (i : nat)
    (n : NodeDef) (firstCheck : bool) (values : list Value) (count : nat) :
  forall k oldValues,
    visits (updateBindings path phase i n firstCheck values k count
              oldValues).2
    = visitsOfBindings path phase i values k count.
Proof.
  induction count as [|count IH]; intros k oldValues; [reflexivity|].
  simpl.
  match goal with
  | |- context [updateBindings path phase i n firstCheck values (S k) count
                  ?o] => specialize (IH (S k) o);
      destruct (updateBindings path phase i n firstCheck values (S k) count o)
        as [[old2 changes] evs]
  end.
  simpl in *. unfold visits in *. simpl. now rewrite IH.
Qed.

Lemma compareBindings_visits (path : ViewPath) (phase : Phase) (i : nat)
    (n : NodeDef) (oldValues values : list Value) (count : nat) :
  forall k,
    visits (compareBindings path phase i n oldValues values k count).1
      `prefix_of` visitsOfBindings path phase i values k count /\
    ((compareBindings path phase i n oldValues values k count).2 = None ->
     visits (compareBindings path phase i n oldValues values k count).1
     = visitsOfBindings path phase i values k count).
Proof.
  induction count as [|count IH]; intros k; [now split|].
  simpl. destruct (decide _) as [E|E].
  - specialize (IH (S k)).
    destruct (compareBindings path phase i n oldValues values (S k) count)
      as [evs e]. simpl in *. destruct IH as [Hp He].
    unfold visits in *. simpl. split.
    + now apply prefix_cons.
    + intros H. now rewrite (He H).
  - simpl. split; [|discriminate].
    unfold visits. simpl. apply prefix_cons, prefix_nil.
Qed.

Lemma visits_hooks (path : ViewPath) (i : nat) (hooks : list LifecycleHook) :
  visits (map (EvHook path i) hooks) = [].
Proof. induction hooks; [reflexivity|assumption]. Qed.

Lemma visits_renders (path : ViewPath) (i : nat)
    (changes : list (nat * Value)) :
  visits (map (fun kv => EvRender path i kv.1 kv.2) changes) = [].
Proof. induction changes; [reflexivity|assumption]. Qed.

Lemma v_def_setNodes (v : ViewData) (nodes : gmap nat NodeData) :
  v_def (setNodes v nodes) = v_def v.
Proof. now destruct v. Qed.

Lemma v_def_setState (v : ViewData) (s : Z) : v_def (setState v s) = v_def v.
Proof. now destruct v. Qed.

Lemma v_def_setOldValues (v : ViewData) (o : list Value) :
  v_def (setOldValues v o) = v_def v.
Proof. now destruct v. Qed.

Lemma sameShape_setOldValues (va vb : ViewData) (o : list Value) :
  sameShape va vb -> sameShape (setOldValues va o) vb.
Proof.
  intros H. destruct (sameShape_inv va vb H) as (Hd & He & Hs).
  apply shape_views; destruct va; assumption.
Qed.

Lemma sameShape_setState (va vb : ViewData) (s : Z) :
  sameShape va vb -> eligible (setState va s) = eligible va ->
  sameShape (setState va s) vb.
Proof.
  intros H Hs'. destruct (sameShape_inv va vb H) as (Hd & He & Hs).
  apply shape_views.
  - now rewrite v_def_setState.
  - congruence.
  - destruct va. exact Hs.
Qed.

Lemma sameShape_insert_other (va vb : ViewData) (i : nat) (d : NodeData) :
  sameShape va vb ->
  ~ isElementData (v_nodes va !! i) -> ~ isElementData (Some d) ->
  sameShape (setNodes va (<[i := d]> (v_nodes va))) vb.
Proof.
  intros H Ha Hd'. destruct (sameShape_inv va vb H) as (Hd & He & Hs).
  apply shape_views.
  - now rewrite v_def_setNodes.
  - destruct va. exact He.
  - intros j. replace (v_nodes (setNodes va (<[i := d]> (v_nodes va))))
      with (<[i := d]> (v_nodes va)) by now destruct va.
    destruct (decide (i = j)) as [->|Hne].
    + rewrite lookup_insert_eq. apply slot_other; [exact Hd'|].
      exact (sameSlot_not_element_l _ _ (Hs j) Ha).
    + rewrite lookup_insert_ne by exact Hne. apply Hs.
Qed.

Lemma sameShape_insert_both (va vb : ViewData) (i : nat) (da db : NodeData) :
  sameShape va vb -> sameSlot (Some da) (Some db) ->
  sameShape (setNodes va (<[i := da]> (v_nodes va)))
            (setNodes vb (<[i := db]> (v_nodes vb))).
Proof.
  intros H Hab. destruct (sameShape_inv va vb H) as (Hd & He & Hs).
  apply shape_views.
  - now rewrite !v_def_setNodes.
  - destruct va, vb. exact He.
  - intros j.
    replace (v_nodes (setNodes va (<[i := da]> (v_nodes va))))
      with (<[i := da]> (v_nodes va)) by now destruct va.
    replace (v_nodes (setNodes vb (<[i := db]> (v_nodes vb))))
      with (<[i := db]> (v_nodes vb)) by now destruct vb.
    destruct (decide (i = j)) as [->|Hne].
    + now rewrite !lookup_insert_eq.
    + rewrite !lookup_insert_ne by exact Hne. apply Hs.
Qed.

Lemma applyChanges_shape (path : ViewPath) (i : nat) (n : NodeDef)
    (firstCheck : bool) (values : list Value) (changes : list (nat * Value))
    (va vb : ViewData) :
  sameShape va vb ->
  sameShape (applyChanges path i n firstCheck values changes va).1 vb /\
  visits (applyChanges path i n firstCheck values changes va).2 = [].
Proof.
  intros H. unfold applyChanges.
  destruct (nodeKind (nd_flags n)) as [[]|]; simpl;
    try (split; [exact H|reflexivity]).
  - split; [exact H|apply visits_renders].
  - split; [exact H|apply visits_renders].
  - unfold asPureExpressionData.
    destruct (v_nodes va !! i) as [[]|] eqn:E; try (split; [exact H|reflexivity]).
    destruct changes; [split; [exact H|reflexivity]|]. simpl.
    split; [|reflexivity].
    apply sameShape_insert_other; [exact H| |]; [rewrite E|]; simpl; tauto.
  - unfold asPureExpressionData.
    destruct (v_nodes va !! i) as [[]|] eqn:E; try (split; [exact H|reflexivity]).
    destruct changes; [split; [exact H|reflexivity]|]. simpl.
    split; [|reflexivity].
    apply sameShape_insert_other; [exact H| |]; [rewrite E|]; simpl; tauto.
  - unfold asPureExpressionData.
    destruct (v_nodes va !! i) as [[]|] eqn:E; try (split; [exact H|reflexivity]).
    destruct changes; [split; [exact H|reflexivity]|]. simpl.
    split; [|reflexivity].
    apply sameShape_insert_other; [exact H| |]; [rewrite E|]; simpl; tauto.
  - unfold asProviderData.
    destruct (v_nodes va !! i) as [[]|] eqn:E; simpl;
      try (split; [exact H|apply visits_hooks]).
    split; [|apply visits_hooks].
    apply sameShape_insert_other; [exact H| |]; [rewrite E|]; simpl; tauto.
Qed.

Lemma checkNode_Extends (ct : CheckType) (path : ViewPath) (phase : Phase)
    (i : nat) (n : NodeDef) (values : list Value) :
  Extends (checkNode ct path phase i n values).
Proof.
  intros r. unfold checkNode. destruct ct.
  - destruct (updateBindings _ _ _ _ _ _ _ _ _) as [[old' changes] evs].
    destruct (applyChanges _ _ _ _ _ _ _) as [view' evs'].
    now exists (evs ++ evs').
  - destruct (compareBindings _ _ _ _ _ _ _ _) as [evs e]. now exists evs.
Qed.

Lemma runCall_Extends (ct : CheckType) (path : ViewPath) (phase : Phase)
    (i : nat) (n : NodeDef) (c : CheckCall) :
  Extends (runCall ct path phase i n c).
Proof.
  intros r. unfold runCall.
  destruct (cc_eval c (run_world r)) as [w' [values|]].
  - apply (checkNode_Extends ct path phase i n values
             (mkRun (run_view r) w' (run_trace r) None)).
  - exists []. simpl. now rewrite app_nil_r.
Qed.

Lemma checkNode_Steps (path : ViewPath) (phase : Phase) (i : nat)
    (n : NodeDef) (values : list Value) :
  Steps (checkNode CheckAndUpdate path phase i n values)
        (checkNode CheckNoChanges path phase i n values).
Proof.
  intros a b (Ea & Eb & Hw & Hs & Hv). unfold checkNode.
  pose proof (updateBindings_visits path phase i n
                (firstCheckOf (run_view a)) values
                (length (nd_bindings n)) 0 (v_oldValues (run_view a))) as Hu.
  destruct (updateBindings _ _ _ _ _ _ _ _ _) as [[old' changes] evs].
  simpl in Hu.
  destruct (applyChanges_shape path i n (firstCheckOf (run_view a)) values
              changes (setOldValues (run_view a) old') (run_view b)
              (sameShape_setOldValues _ _ old' Hs)) as [Hshape Hnone].
  destruct (applyChanges _ _ _ _ _ _ _) as [view' evs']. simpl in *.
  destruct (compareBindings_visits path phase i n
              (v_oldValues (run_view b)) values (length (nd_bindings n)) 0)
    as [Hp He].
  destruct (compareBindings _ _ _ _ _ _ _ _) as [evsb e]. simpl in *.
  destruct e as [e|].
  - right. split; [discriminate|]. simpl.
    rewrite !visits_app, Hu, Hnone, app_nil_r, Hv. now apply prefix_app.
  - left. repeat split; simpl; try assumption.
    rewrite !visits_app, Hu, Hnone, app_nil_r, Hv, (He eq_refl).
    reflexivity.
Qed.

Lemma runCall_Steps (path : ViewPath) (phase : Phase) (i : nat) (n : NodeDef)
    (c : CheckCall) :
  Steps (runCall CheckAndUpdate path phase i n c)
        (runCall CheckNoChanges path phase i n c).
Proof.
  intros a b (Ea & Eb & Hw & Hs & Hv). unfold runCall. rewrite Hw.
  destruct (cc_eval c (run_world b)) as [w' [values|]].
  - apply checkNode_Steps. now repeat split.
  - right. split; [discriminate|]. simpl. now rewrite Hv.
Qed.

Lemma checkNodes_Extends (ct : CheckType) (path : ViewPath) (phase : Phase)
    (calls : list CheckCall) (after : nat -> NodeDef -> Run -> Run)
    (items : list (nat * NodeDef)) :
  (forall i n, Extends (after i n)) ->
  Extends (checkNodes ct path phase calls after items).
Proof.
  intros Hafter. unfold checkNodes. apply Extends_forEach.
  intros [i n]. apply Extends_andThen; [|apply Hafter].
  apply Extends_forEach. intros c. apply runCall_Extends.
Qed.

Lemma checkNodes_Steps (path : ViewPath) (phase : Phase)
    (calls : list CheckCall) (afterA afterB : nat -> NodeDef -> Run -> Run)
    (items : list (nat * NodeDef)) :
  (forall i n, Steps (afterA i n) (afterB i n)) ->
  (forall i n, Extends (afterA i n)) ->
  Steps (checkNodes CheckAndUpdate path phase calls afterA items)
        (checkNodes CheckNoChanges path phase calls afterB items).
Proof.
  intros Hsteps Hext. unfold checkNodes. apply Steps_forEach.
  - intros [i n]. apply Steps_andThen; [|apply Hsteps|apply Hext].
    apply Steps_forEach.
    + intros c. apply runCall_Steps.
    + intros c. apply runCall_Extends.
  - intros [i n]. apply Extends_andThen; [|apply Hext].
    apply Extends_forEach. intros c. apply runCall_Extends.
Qed.

Lemma updateDirectives_Extends (ct : CheckType) (path : ViewPath) :
  Extends (updateDirectives ct path).
Proof.
  intros r. unfold updateDirectives. apply checkNodes_Extends.
  intros i n. apply Extends_id.
Qed.

Lemma updateDirectives_Steps (path : ViewPath) :
  Steps (updateDirectives CheckAndUpdate path)
        (updateDirectives CheckNoChanges path).
Proof.
  intros a b Hl. unfold updateDirectives.
  destruct Hl as (Ea & Eb & Hw & Hs & Hv).
  destruct (sameShape_inv _ _ Hs) as (-> & _ & _).
  apply checkNodes_Steps; [| |now repeat split].
  - intros i n a' b' Hl'. now left.
  - intros i n. apply Extends_id.
Qed.

Lemma checkComponentView_together
    (checkA checkB : ViewPath -> World -> ViewData -> Run) (path : ViewPath)
    (i : nat) (cva cvb : option ViewData) (w : World) :
  ChecksTogether checkA checkB -> option_Forall2 sameShape cva cvb ->
  TogetherParts (option_Forall2 sameShape)
    (checkComponentView checkA path i cva w)
    (checkComponentView checkB path i cvb w).
Proof.
  intros Hc [va vb Hs|]; simpl.
  - destruct (Hc (path ++ [ViaComponent i]) w va vb Hs)
      as [(Ea & Eb & Hw & Hs' & Hv)|[Eb Hp]].
    + left. simpl. repeat split; try assumption. now constructor.
    + right. now split.
  - left. simpl. repeat split. constructor.
Qed.

Lemma checkEmbedded_together
    (checkA checkB : ViewPath -> World -> ViewData -> Run) (path : ViewPath)
    (i : nat) (la lb : list ViewData) :
  ChecksTogether checkA checkB -> Forall2 sameShape la lb ->
  forall k w,
    TogetherParts (Forall2 sameShape)
      (checkEmbedded checkA path i k la w)
      (checkEmbedded checkB path i k lb w).
Proof.
  intros Hc. induction 1 as [|va vb la lb Hs _ IH]; intros k w; simpl.
  - left. simpl. repeat split. constructor.
  - destruct (Hc (path ++ [ViaEmbedded i k]) w va vb Hs)
      as [(Ea & Eb & Hw & Hs' & Hv)|[Eb Hp]].
    + rewrite Ea, Eb, Hw.
      specialize (IH (S k) (run_world (checkB (path ++ [ViaEmbedded i k]) w vb))).
      destruct (checkEmbedded checkA path i (S k) la _)
        as [[[la' wa] evsa] erra].
      destruct (checkEmbedded checkB path i (S k) lb _)
        as [[[lb' wb] evsb] errb].
      destruct IH as [(Ea' & Eb' & Hw' & Hl & Hv')|[Eb' Hp']]; simpl in *.
      * left. simpl. repeat split; try assumption.
        -- now constructor.
        -- now rewrite !visits_app, Hv, Hv'.
      * right. simpl. split; [exact Eb'|].
        rewrite !visits_app, Hv. now apply prefix_app.
    + right.
      destruct (run_error (checkB (path ++ [ViaEmbedded i k]) w vb)) eqn:E;
        [|congruence].
      simpl. split; [discriminate|].
      destruct (run_error (checkA (path ++ [ViaEmbedded i k]) w va));
        [exact Hp|].
      destruct (checkEmbedded checkA path i (S k) la _)
        as [[[la' wa] evsa] erra]. simpl.
      rewrite visits_app. now apply prefix_app_r.
Qed.

Lemma checkContainer_together
    (checkA checkB : ViewPath -> World -> ViewData -> Run) (path : ViewPath)
    (i : nat) (vca vcb : option ViewContainerData) (w : World) :
  ChecksTogether checkA checkB -> sameContainer vca vcb ->
  TogetherParts sameContainer
    (checkContainer checkA path i vca w)
    (checkContainer checkB path i vcb w).
Proof.
  intros Hc Hs. apply sameContainer_inv in Hs.
  destruct vca as [[la]|], vcb as [[lb]|]; try contradiction; simpl.
  - pose proof (checkEmbedded_together checkA checkB path i la lb Hc Hs 0 w)
      as H.
    destruct (checkEmbedded checkA path i 0 la w) as [[[la' wa] evsa] erra].
    destruct (checkEmbedded checkB path i 0 lb w) as [[[lb' wb] evsb] errb].
    destruct H as [(Ea & Eb & Hw & Hl & Hv)|[Eb Hp]]; simpl in *.
    + left. simpl. repeat split; try assumption. now constructor.
    + right. now split.
  - left. simpl. repeat split. constructor.
Qed.

Lemma checkOwnedViews_Extends
    (check : ViewPath -> World -> ViewData -> Run) (path : ViewPath)
    (i : nat) :
  Extends (checkOwnedViews check path i).
Proof.
  intros r. unfold checkOwnedViews.
  destruct (asElementData (run_view r) i) as [[|re cv vc t| | |]|];
    try apply Extends_id.
  destruct (checkComponentView check path i cv (run_world r))
    as [[[cv' w1] evs1] err1].
  destruct err1.
  - now exists (evs1 ++ []).
  - destruct (checkContainer check path i vc w1) as [[[vc' w2] evs2] err2].
    now exists (evs1 ++ evs2).
Qed.

Lemma checkOwnedViews_Steps
    (checkA checkB : ViewPath -> World -> ViewData -> Run) (path : ViewPath)
    (i : nat) :
  ChecksTogether checkA checkB ->
  Steps (checkOwnedViews checkA path i) (checkOwnedViews checkB path i).
Proof.
  intros Hc a b (Ea & Eb & Hw & Hs & Hv). unfold checkOwnedViews, asElementData.
  destruct (sameShape_inv _ _ Hs) as (_ & _ & Hslots). specialize (Hslots i).
  destruct (v_nodes (run_view a) !! i) as [da|] eqn:Hda.
  2:{ pose proof (sameSlot_not_element_l _ _ Hslots (fun H => H)) as Hb.
      destruct (v_nodes (run_view b) !! i) as [[]|]; simpl in Hb;
        try tauto; left; now repeat split. }
  destruct da as [|re cva vca t| | |].
  2:{ apply sameSlot_element_l in Hslots
        as (re' & cvb & vcb & t' & -> & Hcv & Hvc).
      rewrite Hw.
      pose proof (checkComponentView_together checkA checkB path i cva cvb
                    (run_world b) Hc Hcv) as H1.
      destruct (checkComponentView checkA path i cva (run_world b))
        as [[[cva' wa1] evsa1] erra1].
      destruct (checkComponentView checkB path i cvb (run_world b))
        as [[[cvb' wb1] evsb1] errb1].
      destruct H1 as [(Ea1 & Eb1 & Hw1 & Hcv' & Hv1)|[Eb1 Hp1]]; simpl in *.
      - subst erra1 errb1 wa1.
        pose proof (checkContainer_together checkA checkB path i vca vcb
                      wb1 Hc Hvc) as H2.
        destruct (checkContainer checkA path i vca wb1)
          as [[[vca' wa2] evsa2] erra2].
        destruct (checkContainer checkB path i vcb wb1)
          as [[[vcb' wb2] evsb2] errb2].
        destruct H2 as [(Ea2 & Eb2 & Hw2 & Hvc' & Hv2)|[Eb2 Hp2]]; simpl in *.
        + left. repeat split; simpl; try assumption.
          * apply sameShape_insert_both; [exact Hs|now constructor].
          * now rewrite !visits_app, Hv, Hv1, Hv2.
        + right. split; [exact Eb2|]. simpl.
          rewrite !visits_app, Hv, Hv1. now apply prefix_app, prefix_app.
      - right. destruct errb1 as [eb|]; [|congruence].
        split; [discriminate|].
        destruct erra1.
        + simpl. rewrite !visits_app, Hv, !app_nil_r. now apply prefix_app.
        + destruct (checkContainer checkA path i vca wa1)
            as [[[vca' wa2] evsa2] erra2]. simpl.
          rewrite !visits_app, Hv, app_nil_r.
          now apply prefix_app, prefix_app_r. }
  all: pose proof (sameSlot_not_element_l _ _ Hslots (fun H => H)) as Hb;
    destruct (v_nodes (run_view b) !! i) as [[]|]; simpl in Hb;
    try tauto; left; now repeat split.
Qed.

Lemma afterRenderer_Extends
    (check : ViewPath -> World -> ViewData -> Run) (path : ViewPath)
    (i : nat) (n : NodeDef) :
  Extends (afterRenderer check path i n).
Proof.
  unfold afterRenderer.
  destruct (nodeKind (nd_flags n)) as [[]|]; try apply Extends_id.
  apply checkOwnedViews_Extends.
Qed.

Lemma updateRenderer_Extends (ct : CheckType)
    (check : ViewPath -> World -> ViewData -> Run) (path : ViewPath) :
  Extends (updateRenderer ct check path).
Proof.
  intros r. unfold updateRenderer. apply checkNodes_Extends.
  intros i n. apply afterRenderer_Extends.
Qed.

Lemma updateRenderer_Steps
    (checkA checkB : ViewPath -> World -> ViewData -> Run) (path : ViewPath) :
  ChecksTogether checkA checkB ->
  Steps (updateRenderer CheckAndUpdate checkA path)
        (updateRenderer CheckNoChanges checkB path).
Proof.
  intros Hc a b Hl. unfold updateRenderer.
  destruct Hl as (Ea & Eb & Hw & Hs & Hv).
  destruct (sameShape_inv _ _ Hs) as (-> & _ & _).
  apply checkNodes_Steps; [| |now repeat split].
  - intros i n. unfold afterRenderer.
    destruct (nodeKind (nd_flags n)) as [[]|];
      try (intros a' b' Hl'; now left).
    now apply checkOwnedViews_Steps.
  - intros i n. apply afterRenderer_Extends.
Qed.

Lemma visits_phaseHooks (path : ViewPath) (nodes : list NodeDef)
    (firstCheck : bool) (initFlag : Z) (initHook : LifecycleHook)
    (checkedFlag : Z) (checkedHook : LifecycleHook) :
  visits (phaseHooks path nodes firstCheck initFlag initHook
            checkedFlag checkedHook) = [].
Proof.
  unfold phaseHooks. induction (indexed nodes) as [|[i n] l IH];
    [reflexivity|].
  simpl. rewrite visits_app, IH, app_nil_r.
  destruct (firstCheck && _), (hasFlag (nd_flags n) checkedFlag); reflexivity.
Qed.

Lemma addEvents_Steps (hooks : Run -> list Event) :
  (forall r, visits (hooks r) = []) ->
  Steps (fun r => addEvents r (hooks r)) (fun r => r).
Proof.
  intros Hh a b (Ea & Eb & Hw & Hs & Hv). left.
  repeat split; simpl; try assumption.
  now rewrite visits_app, Hh, app_nil_r.
Qed.

Lemma addEvents_Extends (hooks : Run -> list Event) :
  Extends (fun r => addEvents r (hooks r)).
Proof. intros r. now exists (hooks r). Qed.

Lemma eligible_clearFirstCheck (v : ViewData) :
  eligible (setState v (Z.land (v_state v) (Z.lnot ViewState.FirstCheck)))
  = eligible v.
Proof.
  destruct v as [d r p c x n s o ds]. unfold eligible, hasFlag. simpl.
  now rewrite <- !Z.land_assoc.
Qed.

Lemma clearFirstCheck_Steps : Steps clearFirstCheck (fun r => r).
Proof.
  intros a b (Ea & Eb & Hw & Hs & Hv). left.
  repeat split; simpl; try assumption.
  apply sameShape_setState; [exact Hs|apply eligible_clearFirstCheck].
Qed.

Lemma clearFirstCheck_Extends : Extends clearFirstCheck.
Proof. intros r. exists []. simpl. now rewrite app_nil_r. Qed.

Lemma checkView_together (fuel : nat) :
  ChecksTogether (checkView CheckAndUpdate fuel) (checkView CheckNoChanges fuel).
Proof.
  induction fuel as [|fuel IH]; intros path w va vb Hs; simpl.
  - right. split; [discriminate|apply prefix_nil].
  - destruct (sameShape_inv _ _ Hs) as (_ & -> & _).
    destruct (eligible vb); [|left; now repeat split].
    assert (Hsteps : Steps
      (fun r =>
         andThen
           (andThen
              (andThen
                 (andThen (updateDirectives CheckAndUpdate path r)
                    (whenUpdating CheckAndUpdate
                       (fun r => addEvents r
                                   (afterContentHooks path (run_view r)))))
                 (updateRenderer CheckAndUpdate
                    (checkView CheckAndUpdate fuel) path))
              (whenUpdating CheckAndUpdate
                 (fun r => addEvents r (afterViewHooks path (run_view r)))))
           (whenUpdating CheckAndUpdate clearFirstCheck))
      (fun r =>
         andThen
           (andThen
              (andThen
                 (andThen (updateDirectives CheckNoChanges path r)
                    (whenUpdating CheckNoChanges
                       (fun r => addEvents r
                                   (afterContentHooks path (run_view r)))))
                 (updateRenderer CheckNoChanges
                    (checkView CheckNoChanges fuel) path))
              (whenUpdating CheckNoChanges
                 (fun r => addEvents r (afterViewHooks path (run_view r)))))
           (whenUpdating CheckNoChanges clearFirstCheck))).
    { repeat apply Steps_andThen.
      - apply updateDirectives_Steps.
      - apply addEvents_Steps. intros r. apply visits_phaseHooks.
      - apply addEvents_Extends.
      - now apply updateRenderer_Steps.
      - apply updateRenderer_Extends.
      - apply addEvents_Steps. intros r. apply visits_phaseHooks.
      - apply addEvents_Extends.
      - apply clearFirstCheck_Steps.
      - apply clearFirstCheck_Extends. }
    apply Hsteps. now repeat split.
Qed.

Lemma NoChangesTrace_report (evs : list Event) (err : option CheckError) :
  NoChangesTrace evs err ->
  ((exists path node binding cached value,
      err = Some (ChangedAfterChecked path node binding cached value))
   <-> Exists differs evs) /\
  (forall path node binding cached value,
     err = Some (ChangedAfterChecked path node binding cached value) ->
     cached <> value /\
     exists evs' phase,
       evs = evs' ++ [EvBinding path phase node binding cached value] /\
       Forall (fun ev => ~ differs ev) evs').
Proof.
  intros [_ Hd]. split; [split|].
  - intros (path & node & b & c & x & ->).
    destruct Hd as (evs' & phase & -> & Hne & _).
    apply Exists_app. right. constructor. exact Hne.
  - intros Hex.
    destruct err as [[path node b c x| | |]|];
      try (exfalso; rewrite Forall_forall in Hd; rewrite Exists_exists in Hex;
           destruct Hex as (ev & Hin & Hev); exact (Hd ev Hin Hev)).
    now exists path, node, b, c, x.
  - intros path node b c x ->.
    destruct Hd as (evs' & phase & -> & Hne & Hd).
    split; [exact Hne|]. now exists evs', phase.
Qed.

(** ** The check cycle: enough fuel *)

Lemma Fuelled_id (v : ViewData) : Fuelled v (fun r => r).
Proof. intros r Hr Hv. split; [exact Hv|]. now rewrite Hr. Qed.

Lemma Fuelled_andThen (v : ViewData) (f g : Run -> Run) :
  Fuelled v f -> Fuelled v g -> Fuelled v (fun r => andThen (f r) g).
Proof.
  intros Hf Hg r Hr Hv. destruct (Hf r Hr Hv) as [Hv' He].
  unfold andThen. destruct (run_error (f r)) eqn:E.
  - split; [exact Hv'|]. now rewrite E.
  - now apply Hg.
Qed.

Lemma Fuelled_forEach {A : Type} (v : ViewData) (f : A -> Run -> Run)
    (l : list A) :
  (forall x, Fuelled v (f x)) -> Fuelled v (forEach f l).
Proof.
  intros Hf. induction l as [|x l IH]; [apply Fuelled_id|].
  intros r Hr Hv. rewrite forEach_cons, (andThen_ok r) by exact Hr.
  exact (Fuelled_andThen v (f x) (forEach f l) (Hf x) IH r Hr Hv).
Qed.

Lemma compareBindings_error (path : ViewPath) (phase : Phase) (i : nat)
    (n : NodeDef) (oldValues values : list Value) (count : nat) :
  forall k,
    (compareBindings path phase i n oldValues values k count).2
    <> Some OutOfFuel.
Proof.
  induction count as [|count IH]; intros k; simpl; [discriminate|].
  destruct (decide _) as [E|E]; [|discriminate].
  specialize (IH (S k)).
  now destruct (compareBindings path phase i n oldValues values (S k) count).
Qed.

Lemma runCall_Fuelled (v : ViewData) (path : ViewPath) (phase : Phase)
    (i : nat) (n : NodeDef) (c : CheckCall) :
  Fuelled v (runCall CheckNoChanges path phase i n c).
Proof.
  intros r Hr Hv. unfold runCall, checkNode.
  destruct (cc_eval c (run_world r)) as [w' [values|]]; simpl.
  - pose proof (compareBindings_error path phase i n
                  (v_oldValues (run_view r)) values
                  (length (nd_bindings n)) 0) as H.
    now destruct (compareBindings _ _ _ _ _ _ _ _).
  - split; [exact Hv|discriminate].
Qed.

Lemma checkNodes_Fuelled (v : ViewData) (path : ViewPath) (phase : Phase)
    (calls : list CheckCall) (after : nat -> NodeDef -> Run -> Run)
    (items : list (nat * NodeDef)) :
  (forall i n, Fuelled v (after i n)) ->
  Fuelled v (checkNodes CheckNoChanges path phase calls after items).
Proof.
  intros Hafter. unfold checkNodes. apply Fuelled_forEach.
  intros [i n]. apply Fuelled_andThen; [|apply Hafter].
  apply Fuelled_forEach. intros c. apply runCall_Fuelled.
Qed.

Lemma checkEmbedded_fuelled (check : ViewPath -> World -> ViewData -> Run)
    (path : ViewPath) (i : nat) (views : list ViewData) :
  (forall c, c ∈ views ->
     forall p w, run_error (check p w c) <> Some OutOfFuel) ->
  forall k w, (checkEmbedded check path i k views w).2 <> Some OutOfFuel.
Proof.
  induction views as [|e rest IH]; intros Hc k w; simpl; [discriminate|].
  pose proof (Hc e (list_elem_of_here e rest) (path ++ [ViaEmbedded i k]) w)
    as He.
  destruct (run_error (check (path ++ [ViaEmbedded i k]) w e)) eqn:E.
  - exact He.
  - assert (Hrest : forall c, c ∈ rest ->
              forall p w, run_error (check p w c) <> Some OutOfFuel)
      by (intros c Hin; apply Hc; now apply list_elem_of_further).
    specialize (IH Hrest (S k)
                  (run_world (check (path ++ [ViaEmbedded i k]) w e))).
    now destruct (checkEmbedded check path i (S k) rest _)
      as [[[rest' w'] evs] err].
Qed.

Lemma checkOwnedViews_Fuelled (v : ViewData)
    (check : ViewPath -> World -> ViewData -> Run) (path : ViewPath)
    (i : nat) :
  QuietCheck check ->
  (forall j d c, v_nodes v !! j = Some d -> c ∈ ownedViews d ->
     forall p w, run_error (check p w c) <> Some OutOfFuel) ->
  Fuelled v (checkOwnedViews check path i).
Proof.
  intros Hq Hc r Hr Hv.
  split; [now rewrite (proj1 (checkOwnedViews_Quiet check path i Hq r Hr))|].
  unfold checkOwnedViews, asElementData. rewrite Hv.
  destruct (v_nodes v !! i) as [d|] eqn:Hd; [|now rewrite Hr].
  destruct d as [|re cv vc t| | |]; try now rewrite Hr.
  assert (Hown : forall c, c ∈ ownedViews (ElementData re cv vc t) ->
            forall p w, run_error (check p w c) <> Some OutOfFuel)
    by (intros c Hin; exact (Hc i _ c Hd Hin)).
  clear Hc. rename Hown into Hc.
  destruct cv as [child|]; simpl.
  - assert (Hchild := Hc child (list_elem_of_here _ _) (path ++ [ViaComponent i])
                        (run_world r)).
    destruct (run_error (check (path ++ [ViaComponent i]) (run_world r) child))
      eqn:E; [exact Hchild|].
    destruct vc as [[views]|]; simpl; [|discriminate].
    pose proof (checkEmbedded_fuelled check path i views
                  (fun c Hin => Hc c (list_elem_of_further _ _ _ Hin)) 0
                  (run_world (check (path ++ [ViaComponent i]) (run_world r)
                                child))) as H.
    now destruct (checkEmbedded check path i 0 views _)
      as [[[views' w'] evs] err].
  - destruct vc as [[views]|]; simpl; [|discriminate].
    pose proof (checkEmbedded_fuelled check path i views
                  (fun c Hin => Hc c Hin) 0 (run_world r)) as H.
    now destruct (checkEmbedded check path i 0 views _)
      as [[[views' w'] evs] err].
Qed.

Lemma checkView_enough_fuel (n : nat) (v : ViewData) :
  Within n v ->
  forall path w,
    run_error (checkView CheckNoChanges n path w v) <> Some OutOfFuel.
Proof.
  induction 1 as [n v _ IH]. intros path w. simpl.
  destruct (eligible v); [|discriminate].
  assert (Hf : Fuelled v (fun r =>
            andThen
              (andThen
                 (andThen
                    (andThen (updateDirectives CheckNoChanges path r)
                       (whenUpdating CheckNoChanges
                          (fun r => addEvents r
                                      (afterContentHooks path (run_view r)))))
                    (updateRenderer CheckNoChanges
                       (checkView CheckNoChanges n) path))
                 (whenUpdating CheckNoChanges
                    (fun r => addEvents r
                                (afterViewHooks path (run_view r)))))
              (whenUpdating CheckNoChanges clearFirstCheck))).
  { repeat apply Fuelled_andThen; try apply Fuelled_id.
    - intros r Hr Hv. unfold updateDirectives.
      apply checkNodes_Fuelled; [|exact Hr|exact Hv].
      intros i m. apply Fuelled_id.
    - intros r Hr Hv. unfold updateRenderer.
      apply checkNodes_Fuelled; [|exact Hr|exact Hv].
      intros i m. unfold afterRenderer.
      destruct (nodeKind (nd_flags m)) as [[]|]; try apply Fuelled_id.
      apply checkOwnedViews_Fuelled; [apply checkView_QuietCheck|exact IH]. }
  exact (proj2 (Hf (mkRun v w [] None) eq_refl eq_refl)).
Qed.

(** ** The check cycle: what [CheckAndUpdate] leaves behind *)

Lemma cachedValue_setOldValue_eq (oldValues : list Value) (i : nat)
    (v : Value) :
  cachedValue (setOldValue oldValues i v) i = v.
Proof.
  unfold cachedValue, setOldValue. destruct (decide _) as [H|H].
  - now rewrite list_lookup_insert_eq.
  - rewrite lookup_app_r by lia. rewrite lookup_app_r;
      rewrite length_replicate; [|lia].
    now replace (i - length oldValues - (i - length oldValues)) with 0 by lia.
Qed.

Lemma cachedValue_setOldValue_ne (oldValues : list Value) (i j : nat)
    (v : Value) :
  i <> j ->
  cachedValue (setOldValue oldValues i v) j = cachedValue oldValues j.
Proof.
  intros Hne. unfold cachedValue, setOldValue. destruct (decide _) as [H|H].
  - now rewrite list_lookup_insert_ne.
  - destruct (decide (j < length oldValues)) as [Hj|Hj].
    + now rewrite lookup_app_l.
    + rewrite (lookup_ge_None_2 oldValues j) by lia.
      rewrite lookup_app_r by lia.
      destruct (decide (j < i)) as [Hlt|Hge].
      * rewrite lookup_app_l by (rewrite length_replicate; lia).
        rewrite lookup_replicate_2 by lia. reflexivity.
      * rewrite lookup_app_r by (rewrite length_replicate; lia).
        rewrite length_replicate.
        destruct (j - length oldValues - (i - length oldValues)) eqn:E; [lia|].
        reflexivity.
Qed.

Lemma updateBindings_cache (path : ViewPath) (phase : Phase) (i : nat)
    (n : NodeDef) (firstCheck : bool) (values : list Value) (count : nat) :
  forall k oldValues,
    let old' :=
      (updateBindings path phase i n firstCheck values k count oldValues).1.1 in
    (forall k', k <= k' -> k' < k + count ->
       cachedValue old' (nd_bindingIndex n + k') = argument values k') /\
    (forall idx,
       idx < nd_bindingIndex n + k \/ nd_bindingIndex n + k + count <= idx ->
       cachedValue old' idx = cachedValue oldValues idx).
Proof.
  induction count as [|count IH]; intros k oldValues; simpl.
  - split; [intros; lia|reflexivity].
  - set (v := argument values k).
    set (c := cachedValue oldValues (nd_bindingIndex n + k)).
    set (old1 := if firstCheck || negb (bool_decide (c = v))
                 then setOldValue oldValues (nd_bindingIndex n + k) v
                 else oldValues).
    assert (H1 : cachedValue old1 (nd_bindingIndex n + k) = v).
    { unfold old1. destruct (firstCheck || negb (bool_decide (c = v))) eqn:E.
      - apply cachedValue_setOldValue_eq.
      - apply orb_false_elim in E as [_ E].
        apply negb_false_iff, bool_decide_eq_true in E. exact E. }
    assert (H2 : forall idx, idx <> nd_bindingIndex n + k ->
                   cachedValue old1 idx = cachedValue oldValues idx).
    { intros idx Hne. unfold old1.
      destruct (firstCheck || negb (bool_decide (c = v))); [|reflexivity].
      apply cachedValue_setOldValue_ne. lia. }
    specialize (IH (S k) old1).
    destruct (updateBindings path phase i n firstCheck values (S k) count old1)
      as [[old2 changes] evs]. simpl in *. destruct IH as [IHa IHb].
    split.
    + intros k' Hge Hlt. destruct (decide (k' = k)) as [->|Hne].
      * rewrite IHb by lia. exact H1.
      * apply IHa; lia.
    + intros idx Hidx. rewrite IHb by lia. apply H2. lia.
Qed.

Lemma compareBindings_ok (path : ViewPath) (phase : Phase) (i : nat)
    (n : NodeDef) (oldValues values : list Value) (count : nat) :
  forall k,
    (forall k', k <= k' -> k' < k + count ->
       cachedValue oldValues (nd_bindingIndex n + k') = argument values k') ->
    (compareBindings path phase i n oldValues values k count).2 = None.
Proof.
  induction count as [|count IH]; intros k H; [reflexivity|].
  simpl. destruct (decide _) as [E|E].
  - specialize (IH (S k)).
    destruct (compareBindings path phase i n oldValues values (S k) count)
      as [evs e]. simpl in *. apply IH. intros k' H1 H2. apply H; lia.
  - exfalso. apply E. apply H; lia.
Qed.

Lemma bindingsOf_app (l1 l2 : list NodeDef) :
  bindingsOf (l1 ++ l2) = bindingsOf l1 + bindingsOf l2.
Proof.
  unfold bindingsOf. induction l1 as [|n l1 IH]; [reflexivity|].
  simpl. rewrite IH. lia.
Qed.

Lemma bindingsOf_take_S (l : list NodeDef) (i : nat) (n : NodeDef) :
  l !! i = Some n ->
  bindingsOf (take (S i) l) = bindingsOf (take i l) + length (nd_bindings n).
Proof.
  intros H. rewrite (take_S_r _ _ _ H), bindingsOf_app.
  unfold bindingsOf at 2. simpl. lia.
Qed.

Lemma bindingsOf_take_le (l : list NodeDef) (i j : nat) :
  i <= j -> bindingsOf (take i l) <= bindingsOf (take j l).
Proof.
  intros H. replace j with (i + (j - i)) by lia.
  rewrite <- take_take_drop, bindingsOf_app. lia.
Qed.

Lemma slices_disjoint (nodes : list NodeDef) (i j : nat) (n m : NodeDef)
    (k k' : nat) :
  slicesInOrder nodes ->
  nodes !! i = Some n -> nodes !! j = Some m -> i <> j ->
  k < length (nd_bindings n) -> k' < length (nd_bindings m) ->
  nd_bindingIndex n + k <> nd_bindingIndex m + k'.
Proof.
  intros Hs Hn Hm Hne Hk Hk'.
  rewrite (Hs i n Hn), (Hs j m Hm).
  destruct (Nat.lt_total i j) as [Hlt|[->|Hgt]]; [|congruence|].
  - pose proof (bindingsOf_take_le nodes (S i) j ltac:(lia)) as H.
    rewrite (bindingsOf_take_S _ _ _ Hn) in H. lia.
  - pose proof (bindingsOf_take_le nodes (S j) i ltac:(lia)) as H.
    rewrite (bindingsOf_take_S _ _ _ Hm) in H. lia.
Qed.

Lemma sameTreeFields_bindings (n n' : NodeDef) :
  sameTreeFields n n' -> nd_bindings n' = nd_bindings n.
Proof. now intros ->. Qed.

Lemma WellFormedDef_slicesInOrder (def : ViewDefinition) :
  WellFormedDef def -> slicesInOrder (vd_nodes def).
Proof.
  intros [flags trees ud ur _] i n' Hn'. simpl in *.
  pose proof (assignSlices_same (flattenForest None 0 trees)) as Hs.
  unfold assignSlices in Hn'. rewrite list_lookup_imap in Hn'.
  destruct (flattenForest None 0 trees !! i) as [n|] eqn:Hn; [|discriminate].
  injection Hn' as <-. simpl. unfold bindingsOf. f_equal. symmetry.
  apply (Forall2_same_map (fun n => length (nd_bindings n))).
  - intros a b H. now rewrite (sameTreeFields_bindings a b H).
  - now apply Forall2_take.
Qed.

Lemma callsFor_none (l : list CheckCall) (i : nat) :
  i ∉ map cc_nodeIndex l -> callsFor l i = [].
Proof.
  unfold callsFor. induction l as [|c l IH]; intros H; [reflexivity|].
  simpl in H. apply not_elem_of_cons in H as [Hne H].
  rewrite filter_cons_False by congruence. now apply IH.
Qed.

Lemma callsFor_at_most_one (l : list CheckCall) (i : nat) :
  NoDup (map cc_nodeIndex l) ->
  callsFor l i = [] \/ exists c, callsFor l i = [c].
Proof.
  induction l as [|c l IH]; intros Hnd; [now left|].
  simpl in Hnd. apply NoDup_cons in Hnd as [Hnotin Hnd].
  unfold callsFor in *.
  destruct (decide (cc_nodeIndex c = i)) as [E|E].
  - rewrite filter_cons_True by exact E. right. exists c. f_equal.
    apply callsFor_none. now rewrite <- E.
  - rewrite filter_cons_False by exact E. now apply IH.
Qed.

Lemma callsFor_elem (l : list CheckCall) (i : nat) (c : CheckCall) :
  c ∈ callsFor l i <-> c ∈ l /\ cc_nodeIndex c = i.
Proof. unfold callsFor. rewrite list_elem_of_filter. tauto. Qed.

Lemma v_fields_setNodes (v : ViewData) (nodes : gmap nat NodeData) :
  v_def (setNodes v nodes) = v_def v /\
  v_state (setNodes v nodes) = v_state v /\
  v_oldValues (setNodes v nodes) = v_oldValues v /\
  v_nodes (setNodes v nodes) = nodes.
Proof. now destruct v. Qed.

Lemma v_fields_setOldValues (v : ViewData) (o : list Value) :
  v_def (setOldValues v o) = v_def v /\
  v_state (setOldValues v o) = v_state v /\
  v_oldValues (setOldValues v o) = o /\
  v_nodes (setOldValues v o) = v_nodes v.
Proof. now destruct v. Qed.

Lemma v_fields_setState (v : ViewData) (s : Z) :
  v_def (setState v s) = v_def v /\
  v_state (setState v s) = s /\
  v_oldValues (setState v s) = v_oldValues v /\
  v_nodes (setState v s) = v_nodes v.
Proof. now destruct v. Qed.

Lemma SlotFrame_refl (J : nat -> Prop) (v : ViewData) : SlotFrame J v v.
Proof. intros j _. reflexivity. Qed.

Lemma SlotFrame_trans (J1 J2 J : nat -> Prop) (v v1 v2 : ViewData) :
  (forall j, J1 j -> J j) -> (forall j, J2 j -> J j) ->
  SlotFrame J1 v v1 -> SlotFrame J2 v1 v2 -> SlotFrame J v v2.
Proof.
  intros H1 H2 F1 F2 j Hj. rewrite F2, F1; auto.
Qed.

Lemma CacheFrame_refl (J : nat -> Prop) (nodes : list NodeDef)
    (v v' : ViewData) :
  v_oldValues v' = v_oldValues v -> CacheFrame J nodes v v'.
Proof. intros H idx _. now rewrite H. Qed.

Lemma CacheFrame_trans (J1 J2 J : nat -> Prop) (nodes : list NodeDef)
    (v v1 v2 : ViewData) :
  (forall j, J1 j -> J j) -> (forall j, J2 j -> J j) ->
  CacheFrame J1 nodes v v1 -> CacheFrame J2 nodes v1 v2 ->
  CacheFrame J nodes v v2.
Proof.
  intros H1 H2 F1 F2 idx Hidx. rewrite F2, F1; [reflexivity| |];
    intros j n k Hj; apply Hidx; auto.
Qed.

Lemma OwnedCheckable_insert (v : ViewData) (i : nat) (d : NodeData) :
  OwnedCheckable v -> (forall c, c ∈ ownedViews d -> Checkable c) ->
  OwnedCheckable (setNodes v (<[i := d]> (v_nodes v))).
Proof.
  intros Hv Hd j d' c Hj Hc.
  destruct (v_fields_setNodes v (<[i := d]> (v_nodes v))) as (_ & _ & _ & E).
  rewrite E in Hj. destruct (decide (i = j)) as [->|Hne].
  - rewrite lookup_insert_eq in Hj. injection Hj as <-. now apply Hd.
  - rewrite lookup_insert_ne in Hj by exact Hne. exact (Hv j d' c Hj Hc).
Qed.

Lemma SlotFrame_insert (v : ViewData) (i : nat) (d : NodeData) :
  SlotFrame (fun j => j = i) v (setNodes v (<[i := d]> (v_nodes v))).
Proof.
  intros j Hj.
  destruct (v_fields_setNodes v (<[i := d]> (v_nodes v))) as (_ & _ & _ & ->).
  apply lookup_insert_ne. congruence.
Qed.

Lemma applyChanges_frame (path : ViewPath) (i : nat) (n : NodeDef)
    (firstCheck : bool) (values : list Value) (changes : list (nat * Value))
    (view : ViewData) :
  let view' := (applyChanges path i n firstCheck values changes view).1 in
  v_def view' = v_def view /\ v_state view' = v_state view /\
  v_oldValues view' = v_oldValues view /\
  SlotFrame (fun j => j = i) view view' /\
  (OwnedCheckable view -> OwnedCheckable view').
Proof.
  assert (Hsame : v_def view = v_def view /\ v_state view = v_state view /\
                  v_oldValues view = v_oldValues view /\
                  SlotFrame (fun j => j = i) view view /\
                  (OwnedCheckable view -> OwnedCheckable view)).
  { split; [reflexivity|]. split; [reflexivity|]. split; [reflexivity|].
    split; [apply SlotFrame_refl|auto]. }
  assert (Hins : forall d, ownedViews d = [] ->
            let view' := setNodes view (<[i := d]> (v_nodes view)) in
            v_def view' = v_def view /\ v_state view' = v_state view /\
            v_oldValues view' = v_oldValues view /\
            SlotFrame (fun j => j = i) view view' /\
            (OwnedCheckable view -> OwnedCheckable view')).
  { intros d Hd view'.
    destruct (v_fields_setNodes view (<[i := d]> (v_nodes view)))
      as (E1 & E2 & E3 & _).
    split; [exact E1|]. split; [exact E2|]. split; [exact E3|].
    split; [apply SlotFrame_insert|].
    intros Hv. apply OwnedCheckable_insert; [exact Hv|].
    intros c Hc. rewrite Hd in Hc. inversion Hc. }
  unfold applyChanges.
  destruct (nodeKind (nd_flags n)) as [[]|]; simpl; try exact Hsame.
  - destruct (asPureExpressionData view i) as [[]|]; try exact Hsame.
    destruct changes; [exact Hsame|]. now apply Hins.
  - destruct (asPureExpressionData view i) as [[]|]; try exact Hsame.
    destruct changes; [exact Hsame|]. now apply Hins.
  - destruct (asPureExpressionData view i) as [[]|]; try exact Hsame.
    destruct changes; [exact Hsame|]. now apply Hins.
  - destruct (asProviderData view i) as [[]|]; try exact Hsame.
    now apply Hins.
Qed.

Lemma checkNode_update (def : ViewDefinition) (w : World) (s : Z)
    (path : ViewPath) (phase : Phase) (i : nat) (n : NodeDef)
    (values : list Value) (r : Run) :
  Updating def w s r ->
  let r' := checkNode CheckAndUpdate path phase i n values r in
  Updating def w s r' /\
  Cached (v_oldValues (run_view r')) n values /\
  (forall idx,
     (forall k, k < length (nd_bindings n) -> idx <> nd_bindingIndex n + k) ->
     cachedValue (v_oldValues (run_view r')) idx
     = cachedValue (v_oldValues (run_view r)) idx) /\
  SlotFrame (fun j => j = i) (run_view r) (run_view r').
Proof.
  intros (He & Hd & Hw & Hs & Ho). unfold checkNode.
  destruct (updateBindings_cache path phase i n (firstCheckOf (run_view r))
              values (length (nd_bindings n)) 0 (v_oldValues (run_view r)))
    as [Hc Hf].
  destruct (updateBindings _ _ _ _ _ _ _ _ _) as [[old' changes] evs].
  simpl in Hc, Hf.
  destruct (v_fields_setOldValues (run_view r) old') as (E1 & E2 & E3 & E4).
  destruct (applyChanges_frame path i n (firstCheckOf (run_view r)) values
              changes (setOldValues (run_view r) old'))
    as (F1 & F2 & F3 & F4 & F5).
  destruct (applyChanges _ _ _ _ _ _ _) as [view' evs'].
  cbn [fst snd] in F1, F2, F3, F4, F5.
  unfold Updating. cbn [run_view run_world run_error].
  split; [|split; [|split]].
  - split; [reflexivity|]. split; [now rewrite F1, E1|]. split; [exact Hw|].
    split; [now rewrite F2, E2|]. apply F5.
    intros j d c Hj Hc'. rewrite E4 in Hj. exact (Ho j d c Hj Hc').
  - intros k Hk. rewrite F3, E3. apply Hc; lia.
  - intros idx Hidx. rewrite F3, E3.
    destruct (decide (idx < nd_bindingIndex n)) as [Hlt|Hge].
    + apply Hf. lia.
    + destruct (decide (idx < nd_bindingIndex n + length (nd_bindings n)))
        as [Hin|Hout].
      * exfalso. apply (Hidx (idx - nd_bindingIndex n)); lia.
      * apply Hf. lia.
  - intros j Hj. rewrite (F4 j Hj). now rewrite E4.
Qed.

Lemma runCall_update (def : ViewDefinition) (w : World) (s : Z)
    (path : ViewPath) (phase : Phase) (i : nat) (n : NodeDef)
    (c : CheckCall) (r : Run) :
  Updating def w s r -> pureCall c ->
  let r' := runCall CheckAndUpdate path phase i n c r in
  run_error r' = None ->
  Updating def w s r' /\
  (exists values, cc_eval c w = (w, Some values) /\
                  Cached (v_oldValues (run_view r')) n values) /\
  (forall idx,
     (forall k, k < length (nd_bindings n) -> idx <> nd_bindingIndex n + k) ->
     cachedValue (v_oldValues (run_view r')) idx
     = cachedValue (v_oldValues (run_view r)) idx) /\
  SlotFrame (fun j => j = i) (run_view r) (run_view r').
Proof.
  intros Hu Hpure. pose proof Hu as (He & Hd & Hw & Hs & Ho).
  unfold runCall. rewrite Hw. specialize (Hpure w).
  destruct (cc_eval c w) as [w' [values|]] eqn:E; simpl in Hpure; subst w';
    [|discriminate].
  intros _.
  assert (Hu' : Updating def w s (mkRun (run_view r) w (run_trace r) None)).
  { split; [reflexivity|]. split; [exact Hd|]. split; [reflexivity|].
    split; [exact Hs|exact Ho]. }
  destruct (checkNode_update def w s path phase i n values _ Hu')
    as (H1 & H2 & H3 & H4).
  split; [exact H1|]. split; [now exists values|]. now split.
Qed.

Lemma nodeCalls_update (def : ViewDefinition) (w : World) (s : Z)
    (path : ViewPath) (phase : Phase) (calls : list CheckCall) (i : nat)
    (n : NodeDef) (r : Run) :
  NoDup (map cc_nodeIndex calls) -> Forall pureCall calls ->
  vd_nodes def !! i = Some n ->
  Updating def w s r ->
  let r' := forEach (runCall CheckAndUpdate path phase i n)
                    (callsFor calls i) r in
  run_error r' = None ->
  Updating def w s r' /\
  CallsCached w calls (run_view r') i n /\
  CacheFrame (fun j => j = i /\ callsFor calls i <> []) (vd_nodes def)
             (run_view r) (run_view r') /\
  SlotFrame (fun j => j = i) (run_view r) (run_view r').
Proof.
  intros Hnd Hpure Hn Hu r'. subst r'. unfold CallsCached.
  destruct (callsFor_at_most_one calls i Hnd) as [E|[c E]]; rewrite E.
  - intros _. rewrite forEach_nil. split; [exact Hu|]. split.
    + intros c Hc. inversion Hc.
    + split; [now apply CacheFrame_refl|apply SlotFrame_refl].
  - assert (Hc : c ∈ calls).
    { apply (callsFor_elem calls i c). rewrite E. now left. }
    rewrite Forall_forall in Hpure. specialize (Hpure c Hc).
    change (forEach (runCall CheckAndUpdate path phase i n) [c] r)
      with (andThen r (runCall CheckAndUpdate path phase i n c)).
    rewrite (andThen_ok r) by apply Hu.
    intros Ee.
    destruct (runCall_update def w s path phase i n c r Hu Hpure Ee)
      as (H1 & (values & Hv & Hcached) & H3 & H4).
    split; [exact H1|]. split; [|split; [|exact H4]].
    + intros c' Hc'. apply list_elem_of_singleton in Hc' as ->.
      now exists values.
    + intros idx Hidx. apply H3. intros k Hk.
      apply (Hidx i n k); [split; [reflexivity|discriminate]|exact Hn|exact Hk].
Qed.

Lemma Cached_frame (nodes : list NodeDef) (J : nat -> Prop) (v v' : ViewData)
    (i : nat) (n : NodeDef) (values : list Value) :
  slicesInOrder nodes -> nodes !! i = Some n ->
  (forall j, J j -> j <> i) ->
  CacheFrame J nodes v v' ->
  Cached (v_oldValues v) n values -> Cached (v_oldValues v') n values.
Proof.
  intros Hs Hn HJ Hf Hc k Hk. rewrite Hf; [now apply Hc|].
  intros j m k' Hj Hm Hk'.
  apply (slices_disjoint nodes i j n m k k'); auto.
  intros ->. now apply (HJ j).
Qed.

Lemma CallsCached_frame (nodes : list NodeDef) (J : nat -> Prop)
    (w : World) (calls : list CheckCall) (v v' : ViewData) (i : nat)
    (n : NodeDef) :
  slicesInOrder nodes -> nodes !! i = Some n ->
  (callsFor calls i <> [] -> forall j, J j -> j <> i) ->
  CacheFrame J nodes v v' ->
  CallsCached w calls v i n -> CallsCached w calls v' i n.
Proof.
  intros Hs Hn HJ Hf Hc c Hin.
  destruct (Hc c Hin) as (values & He & Hcached).
  exists values. split; [exact He|].
  apply (Cached_frame nodes J v v' i n values); auto.
  apply HJ. intros E. rewrite E in Hin. inversion Hin.
Qed.

Section UpdateLoop.

Variables (def : ViewDefinition) (w : World) (s : Z) (path : ViewPath)
  (phase : Phase) (calls : list CheckCall)
  (after : nat -> NodeDef -> Run -> Run) (Aft : nat -> ViewData -> Prop).

Hypothesis calls_once : NoDup (map cc_nodeIndex calls).
Hypothesis calls_pure : Forall pureCall calls.
Hypothesis slices : slicesInOrder (vd_nodes def).
Hypothesis after_update :
  forall i n r, Updating def w s r -> vd_nodes def !! i = Some n ->
    run_error (after i n r) = None ->
    Updating def w s (after i n r) /\
    v_oldValues (run_view (after i n r)) = v_oldValues (run_view r) /\
    SlotFrame (fun j => j = i) (run_view r) (run_view (after i n r)) /\
    Aft i (run_view (after i n r)).
Hypothesis Aft_slot :
  forall i v v', v_nodes v' !! i = v_nodes v !! i -> Aft i v -> Aft i v'.

Lemma checkNodes_update (items : list (nat * NodeDef)) :
  forall r,
    NoDup (map fst items) ->
    (forall i n, (i, n) ∈ items -> vd_nodes def !! i = Some n) ->
    Updating def w s r ->
    run_error (checkNodes CheckAndUpdate path phase calls after items r)
      = None ->
    let r' := checkNodes CheckAndUpdate path phase calls after items r in
    Updating def w s r' /\
    CacheFrame (fun j => j ∈ map fst items /\ callsFor calls j <> [])
               (vd_nodes def) (run_view r) (run_view r') /\
    SlotFrame (fun j => j ∈ map fst items) (run_view r) (run_view r') /\
    forall i n, (i, n) ∈ items ->
      CallsCached w calls (run_view r') i n /\ Aft i (run_view r').
Proof.
  induction items as [|[i n] items IH]; intros r Hnd Hitems Hu Herr.
  - unfold checkNodes. simpl. split; [exact Hu|].
    split; [now apply CacheFrame_refl|]. split; [apply SlotFrame_refl|].
    intros i n Hin. inversion Hin.
  - unfold checkNodes in *. rewrite forEach_cons in *.
    rewrite (andThen_ok r) in * by apply Hu.
    set (rc := forEach (runCall CheckAndUpdate path phase i n)
                       (callsFor calls i) r) in *.
    set (body := fun '(i0, n0) r0 =>
                   andThen (forEach (runCall CheckAndUpdate path phase i0 n0)
                                    (callsFor calls i0) r0) (after i0 n0))
      in *.
    assert (Hn : vd_nodes def !! i = Some n) by (apply Hitems; now left).
    simpl in Hnd. apply NoDup_cons in Hnd as [Hnotin Hnd].
    destruct (run_error (andThen rc (after i n))) eqn:E1.
    { rewrite andThen_error in Herr by congruence. congruence. }
    rewrite andThen_ok in * by exact E1.
    destruct (run_error rc) eqn:Ec.
    { rewrite andThen_error in E1 by congruence. congruence. }
    rewrite (andThen_ok rc) in * by exact Ec.
    destruct (nodeCalls_update def w s path phase calls i n r
                calls_once calls_pure Hn Hu Ec) as (Hu1 & Hc1 & Hf1 & Hs1).
    fold rc in Hu1, Hc1, Hf1, Hs1.
    destruct (after_update i n rc Hu1 Hn E1) as (Hu2 & Ho2 & Hs2 & Ha2).
    assert (Hitems' : forall i0 n0, (i0, n0) ∈ items ->
                        vd_nodes def !! i0 = Some n0).
    { intros i0 n0 Hin. apply Hitems. now right. }
    destruct (IH (after i n rc) Hnd Hitems' Hu2 Herr)
      as (Hu3 & Hf3 & Hs3 & Hall).
    split; [exact Hu3|]. split; [|split].
    + apply (CacheFrame_trans
               (fun j => j = i /\ callsFor calls i <> [])
               (fun j => j ∈ map fst items /\ callsFor calls j <> [])
               _ _ _ (run_view (after i n rc))).
      * intros j [-> H]. split; [now left|exact H].
      * intros j [H1 H2]. split; [now right|exact H2].
      * intros idx Hidx. rewrite Ho2. now apply Hf1.
      * exact Hf3.
    + apply (SlotFrame_trans (fun j => j = i) (fun j => j ∈ map fst items)
               _ _ (run_view (after i n rc))).
      * intros j ->. now left.
      * intros j H. now right.
      * apply (SlotFrame_trans (fun j => j = i) (fun j => j = i)
                 _ _ (run_view rc)); auto.
      * exact Hs3.
    + intros i0 n0 Hin. apply elem_of_cons in Hin as [Heq|Hin].
      * injection Heq as -> ->. split.
        -- apply (CallsCached_frame (vd_nodes def)
                    (fun j => j ∈ map fst items /\ callsFor calls j <> [])
                    w calls (run_view (after i n rc))); auto.
           ++ intros _ j [Hj _] ->. contradiction.
           ++ intros c Hc. destruct (Hc1 c Hc) as (values & He & Hcached).
              exists values. split; [exact He|]. now rewrite Ho2.
        -- apply (Aft_slot i (run_view (after i n rc))); [|exact Ha2].
           apply Hs3. exact Hnotin.
      * now apply Hall.
Qed.

End UpdateLoop.

Lemma checkEmbedded_update (fuel : nat) (w : World) (path : ViewPath)
    (i : nat) (views : list ViewData) :
  SettlesViews fuel -> Forall Checkable views ->
  forall k,
    (checkEmbedded (checkView CheckAndUpdate fuel) path i k views w).2 = None ->
    let res := checkEmbedded (checkView CheckAndUpdate fuel) path i k views w in
    res.1.1.2 = w /\ Forall Checkable res.1.1.1 /\
    forall j e, res.1.1.1 !! j = Some e ->
      VerifiesAt fuel w (path ++ [ViaEmbedded i (k + j)]) e.
Proof.
  intros Hset. induction 1 as [|e views He _ IH]; intros k; simpl.
  - intros _. split; [reflexivity|]. split; [constructor|].
    intros j e H. discriminate H.
  - destruct (run_error (checkView CheckAndUpdate fuel
                           (path ++ [ViaEmbedded i k]) w e)) eqn:E;
      [simpl; discriminate|].
    destruct (Hset (path ++ [ViaEmbedded i k]) w e He E)
      as (Hw & Hc & Hv & _).
    rewrite Hw. specialize (IH (S k)).
    destruct (checkEmbedded (checkView CheckAndUpdate fuel) path i (S k)
                views w) as [[[views' w'] evs] err]. simpl in *.
    intros Herr. destruct (IH Herr) as (-> & Hall & Hver).
    split; [reflexivity|]. split; [now constructor|].
    intros [|j] e' Hj; simpl in Hj.
    + injection Hj as <-. now rewrite Nat.add_0_r.
    + replace (k + S j) with (S k + j) by lia. now apply Hver.
Qed.

Lemma checkOwnedViews_update (fuel : nat) (def : ViewDefinition) (w : World)
    (s : Z) (path : ViewPath) (i : nat) (r : Run) :
  SettlesViews fuel -> Updating def w s r ->
  let r' := checkOwnedViews (checkView CheckAndUpdate fuel) path i r in
  run_error r' = None ->
  Updating def w s r' /\
  v_oldValues (run_view r') = v_oldValues (run_view r) /\
  SlotFrame (fun j => j = i) (run_view r) (run_view r') /\
  OwnedVerify fuel w path (run_view r') i.
Proof.
  intros Hset Hu. pose proof Hu as (He & Hd & Hw & Hs & Ho).
  unfold checkOwnedViews, asElementData.
  destruct (v_nodes (run_view r) !! i) as [d|] eqn:Hslot.
  2:{ intros _. split; [exact Hu|]. split; [reflexivity|].
      split; [apply SlotFrame_refl|]. unfold OwnedVerify. now rewrite Hslot. }
  destruct d as [|re cv vc t| | |];
    try (intros _; split; [exact Hu|]; split; [reflexivity|];
         split; [apply SlotFrame_refl|]; unfold OwnedVerify;
         now rewrite Hslot).
  assert (Hcv : forall c, cv = Some c -> Checkable c).
  { intros c ->. apply (Ho i _ c Hslot). simpl. now left. }
  assert (Hvc : forall views, vc = Some (mkViewContainerData views) ->
                  Forall Checkable views).
  { intros views ->. apply Forall_forall. intros c Hc.
    apply (Ho i _ c Hslot). simpl. apply elem_of_app. now right. }
  assert (H1 : (checkComponentView (checkView CheckAndUpdate fuel) path i cv
                  (run_world r)).2 = None ->
               exists cv' evs1,
                 checkComponentView (checkView CheckAndUpdate fuel) path i cv
                   (run_world r) = (cv', w, evs1, None) /\
                 (forall c, cv' = Some c ->
                    Checkable c /\
                    VerifiesAt fuel w (path ++ [ViaComponent i]) c)).
  { rewrite Hw. destruct cv as [c|]; simpl.
    - intros E.
      destruct (Hset (path ++ [ViaComponent i]) w c (Hcv c eq_refl) E)
        as (Hw' & Hc' & Hv' & _).
      eexists _, _. rewrite Hw', E. split; [reflexivity|].
      intros c' [= <-]. now split.
    - intros _. eexists _, _. split; [reflexivity|]. intros c H.
      discriminate H. }
  destruct (checkComponentView (checkView CheckAndUpdate fuel) path i cv
              (run_world r)) as [[[cv' w1] evs1] err1].
  destruct err1 as [e1|]; [simpl; discriminate|].
  destruct (H1 eq_refl) as (cv'' & evs1' & [= -> -> ->] & Hcv').
  clear H1.
  assert (H2 : (checkContainer (checkView CheckAndUpdate fuel) path i vc w).2
                 = None ->
               exists vc' evs2,
                 checkContainer (checkView CheckAndUpdate fuel) path i vc w
                   = (vc', w, evs2, None) /\
                 (forall views, vc' = Some (mkViewContainerData views) ->
                    Forall Checkable views /\
                    forall k e, views !! k = Some e ->
                      VerifiesAt fuel w (path ++ [ViaEmbedded i k]) e)).
  { destruct vc as [[views]|]; simpl.
    - pose proof (checkEmbedded_update fuel w path i views Hset
                    (Hvc views eq_refl) 0) as H.
      destruct (checkEmbedded (checkView CheckAndUpdate fuel) path i 0 views w)
        as [[[views' w'] evs] err]. simpl in *.
      intros ->. destruct (H eq_refl) as (-> & Hall & Hver).
      eexists _, _. split; [reflexivity|].
      intros views0 [= <-]. now split.
    - intros _. eexists _, _. split; [reflexivity|]. intros views H.
      discriminate H. }
  destruct (checkContainer (checkView CheckAndUpdate fuel) path i vc w)
    as [[[vc' w2] evs2] err2].
  cbn [run_error run_view]. intros ->.
  destruct (H2 eq_refl) as (vc'' & evs2' & [= -> -> ->] & Hvc').
  clear H2.
  destruct (v_fields_setNodes (run_view r)
              (<[i := ElementData re cv'' vc'' t]> (v_nodes (run_view r))))
    as (E1 & E2 & E3 & E4).
  split; [|split; [exact E3|split; [apply SlotFrame_insert|]]].
  - split; [reflexivity|]. cbn [run_view run_world].
    split; [now rewrite E1|]. split; [reflexivity|].
    split; [now rewrite E2|].
    apply OwnedCheckable_insert; [exact Ho|].
    intros c Hc. simpl in Hc. apply elem_of_app in Hc as [Hc|Hc].
    + destruct cv'' as [c'|]; [|inversion Hc].
      apply list_elem_of_singleton in Hc as ->. now apply Hcv'.
    + destruct vc'' as [[views]|]; [|inversion Hc]. simpl in Hc.
      destruct (Hvc' views eq_refl) as [Hall _].
      rewrite Forall_forall in Hall. now apply Hall.
  - unfold OwnedVerify. rewrite E4, lookup_insert_eq. split.
    + intros c Hc. now apply Hcv'.
    + intros views k e Hv Hk. destruct (Hvc' views Hv) as [_ Hver].
      now apply Hver.
Qed.

(** ** The check cycle: verifying after an update *)

Lemma forEach_Verifying {A : Type} (f : A -> Run -> Run) (l : list A)
    (v : ViewData) (w : World) :
  (forall x r, x ∈ l -> Verifying v w r -> Verifying v w (f x r)) ->
  forall r, Verifying v w r -> Verifying v w (forEach f l r).
Proof.
  induction l as [|x l IH]; intros Hf r Hr; [exact Hr|].
  rewrite forEach_cons, (andThen_ok r) by apply Hr.
  assert (Hx : Verifying v w (f x r)) by (apply Hf; [now left|exact Hr]).
  rewrite andThen_ok by apply Hx.
  apply IH; [|exact Hx]. intros y r' Hy. apply Hf. now right.
Qed.

Lemma runCall_verify (path : ViewPath) (phase : Phase) (i : nat)
    (n : NodeDef) (c : CheckCall) (v : ViewData) (w : World)
    (values : list Value) (r : Run) :
  cc_eval c w = (w, Some values) -> Cached (v_oldValues v) n values ->
  Verifying v w r ->
  Verifying v w (runCall CheckNoChanges path phase i n c r).
Proof.
  intros He Hc (Hr & Hv & Hw). unfold runCall. rewrite Hw, He.
  unfold checkNode. cbn [run_view run_world run_trace].
  pose proof (compareBindings_ok path phase i n (v_oldValues (run_view r))
                values (length (nd_bindings n)) 0) as H.
  destruct (compareBindings _ _ _ _ _ _ _ _) as [evs e]. simpl in H.
  rewrite H.
  - now repeat split.
  - intros k _ Hk. rewrite Hv. apply Hc. lia.
Qed.

Lemma checkEmbedded_verify (fuel : nat) (w : World) (path : ViewPath)
    (i : nat) (views : list ViewData) :
  forall k,
    (forall j e, views !! j = Some e ->
       VerifiesAt fuel w (path ++ [ViaEmbedded i (k + j)]) e) ->
    exists evs,
      checkEmbedded (checkView CheckNoChanges fuel) path i k views w
      = (views, w, evs, None).
Proof.
  induction views as [|e views IH]; intros k H; simpl.
  - now exists [].
  - destruct (H 0 e eq_refl) as [He Hw]. rewrite Nat.add_0_r in He, Hw.
    rewrite He, Hw.
    destruct (IH (S k)) as [evs Hevs].
    { intros j e' Hj. replace (S k + j) with (k + S j) by lia.
      now apply H. }
    rewrite Hevs.
    rewrite (proj1 (checkView_QuietCheck fuel (path ++ [ViaEmbedded i k]) w e)).
    now eexists.
Qed.

Lemma checkOwnedViews_verify (fuel : nat) (w : World) (path : ViewPath)
    (i : nat) (v : ViewData) (r : Run) :
  OwnedVerify fuel w path v i -> Verifying v w r ->
  Verifying v w (checkOwnedViews (checkView CheckNoChanges fuel) path i r).
Proof.
  intros Ho (Hr & Hv & Hw). unfold checkOwnedViews, asElementData.
  unfold OwnedVerify in Ho. rewrite Hv.
  destruct (v_nodes v !! i) as [d|] eqn:Hslot; [|now repeat split].
  destruct d as [|re cv vc t| | |]; try now repeat split.
  destruct Ho as [Hcv Hvc]. rewrite Hw.
  assert (H1 : exists evs1,
            checkComponentView (checkView CheckNoChanges fuel) path i cv w
            = (cv, w, evs1, None)).
  { destruct cv as [c|]; simpl; [|now eexists].
    destruct (Hcv c eq_refl) as [He Hw']. rewrite He, Hw'.
    rewrite (proj1 (checkView_QuietCheck fuel (path ++ [ViaComponent i]) w c)).
    now eexists. }
  destruct H1 as [evs1 ->].
  assert (H2 : exists evs2,
            checkContainer (checkView CheckNoChanges fuel) path i vc w
            = (vc, w, evs2, None)).
  { destruct vc as [[views]|]; simpl; [|now eexists].
    destruct (checkEmbedded_verify fuel w path i views 0) as [evs Hevs].
    { intros j e Hj. now apply (Hvc views). }
    rewrite Hevs. now eexists. }
  destruct H2 as [evs2 ->]. cbn [run_view run_world run_error].
  split; [reflexivity|]. split; [|reflexivity].
  now apply setNodes_same.
Qed.

Lemma checkNodes_verify (path : ViewPath) (phase : Phase)
    (calls : list CheckCall) (after : nat -> NodeDef -> Run -> Run)
    (items : list (nat * NodeDef)) (v : ViewData) (w : World) (r : Run) :
  (forall i n, (i, n) ∈ items ->
     CallsCached w calls v i n /\
     forall r', Verifying v w r' -> Verifying v w (after i n r')) ->
  Verifying v w r ->
  Verifying v w (checkNodes CheckNoChanges path phase calls after items r).
Proof.
  intros H Hr. unfold checkNodes. apply forEach_Verifying; [|exact Hr].
  intros [i n] r' Hin Hr'. destruct (H i n Hin) as [Hc Hafter].
  assert (Hcalls : Verifying v w
            (forEach (runCall CheckNoChanges path phase i n)
                     (callsFor calls i) r')).
  { apply forEach_Verifying; [|exact Hr'].
    intros c r'' Hc' Hr''. destruct (Hc c Hc') as (values & He & Hcached).
    now apply (runCall_verify path phase i n c v w values). }
  rewrite andThen_ok by apply Hcalls. now apply Hafter.
Qed.

Lemma indexed_elem (nodes : list NodeDef) (i : nat) (n : NodeDef) :
  (i, n) ∈ indexed nodes <-> nodes !! i = Some n.
Proof.
  unfold indexed. rewrite elem_of_lookup_imap. split.
  - intros (j & m & [= -> ->] & H). exact H.
  - intros H. now exists i, n.
Qed.

Lemma indexed_NoDup (nodes : list NodeDef) : NoDup (map fst (indexed nodes)).
Proof.
  unfold indexed.
  change (map fst (imap (fun i n => (i, n)) nodes))
    with (fst <$> imap (fun (i : nat) (n : NodeDef) => (i, n)) nodes).
  rewrite fmap_imap.
  rewrite (imap_ext _ (fun (i : nat) (_ : NodeDef) => i))
    by (intros; reflexivity).
  rewrite (imap_seq_0 nodes (fun i => i)), list_fmap_id. apply NoDup_seq.
Qed.

Lemma andThen_no_error (r : Run) (f : Run -> Run) :
  run_error (andThen r f) = None ->
  run_error r = None /\ andThen r f = f r.
Proof.
  unfold andThen. destruct (run_error r) eqn:E; [congruence|].
  intros _. now split.
Qed.

Lemma CallsCached_old (w : World) (calls : list CheckCall) (v v' : ViewData)
    (i : nat) (n : NodeDef) :
  v_oldValues v' = v_oldValues v ->
  CallsCached w calls v i n -> CallsCached w calls v' i n.
Proof. unfold CallsCached. intros ->. auto. Qed.

Lemma OwnedVerify_slot (fuel : nat) (w : World) (path : ViewPath)
    (v v' : ViewData) (i : nat) :
  v_nodes v' !! i = v_nodes v !! i ->
  OwnedVerify fuel w path v i -> OwnedVerify fuel w path v' i.
Proof. unfold OwnedVerify. intros ->. auto. Qed.

Lemma calls_of_one_phase (def : ViewDefinition) (i : nat) :
  oneCallPerNode def ->
  callsFor (vd_updateDirectives def) i <> [] ->
  callsFor (vd_updateRenderer def) i <> [] -> False.
Proof.
  unfold oneCallPerNode, allCalls. rewrite map_app.
  intros Hnd Hd Hr. apply NoDup_app in Hnd as (_ & Hdisj & _).
  apply (Hdisj i).
  - destruct (callsFor (vd_updateDirectives def) i) as [|c l] eqn:E;
      [congruence|].
    assert (Hc : c ∈ callsFor (vd_updateDirectives def) i)
      by (rewrite E; now left).
    apply callsFor_elem in Hc as [Hc <-].
    apply list_elem_of_fmap. now exists c.
  - destruct (callsFor (vd_updateRenderer def) i) as [|c l] eqn:E;
      [congruence|].
    assert (Hc : c ∈ callsFor (vd_updateRenderer def) i)
      by (rewrite E; now left).
    apply callsFor_elem in Hc as [Hc <-].
    apply list_elem_of_fmap. now exists c.
Qed.

Lemma checkView_unfold (ct : CheckType) (fuel : nat) (path : ViewPath)
    (w : World) (v : ViewData) :
  checkView ct (S fuel) path w v
  = if eligible v then
      andThen
        (andThen
           (andThen
              (andThen (updateDirectives ct path (mkRun v w [] None))
                 (whenUpdating ct
                    (fun r => addEvents r
                                (afterContentHooks path (run_view r)))))
              (updateRenderer ct (checkView ct fuel) path))
           (whenUpdating ct
              (fun r => addEvents r (afterViewHooks path (run_view r)))))
        (whenUpdating ct clearFirstCheck)
    else mkRun v w [] None.
Proof. reflexivity. Qed.

Lemma Checkable_inv (v : ViewData) :
  Checkable v ->
  WellFormedDef (v_def v) /\ oneCallPerNode (v_def v) /\
  Forall pureCall (allCalls (v_def v)) /\ OwnedCheckable v.
Proof.
  intros [v' H1 H2 H3 H4]. split; [exact H1|]. split; [exact H2|].
  split; [exact H3|exact H4].
Qed.

Lemma afterRenderer_update (fuel : nat) (def : ViewDefinition) (w : World)
    (s : Z) (path : ViewPath) (i : nat) (n : NodeDef) (r : Run) :
  SettlesViews fuel -> Updating def w s r -> vd_nodes def !! i = Some n ->
  run_error (afterRenderer (checkView CheckAndUpdate fuel) path i n r) = None ->
  Updating def w s
    (afterRenderer (checkView CheckAndUpdate fuel) path i n r) /\
  v_oldValues
    (run_view (afterRenderer (checkView CheckAndUpdate fuel) path i n r))
    = v_oldValues (run_view r) /\
  SlotFrame (fun j => j = i) (run_view r)
    (run_view (afterRenderer (checkView CheckAndUpdate fuel) path i n r)) /\
  (forall n', vd_nodes def !! i = Some n' ->
     nodeKind (nd_flags n') = Some KElement ->
     OwnedVerify fuel w path
       (run_view (afterRenderer (checkView CheckAndUpdate fuel) path i n r))
       i).
Proof.
  intros Hset Hu Hn. unfold afterRenderer.
  destruct (nodeKind (nd_flags n)) as [k|] eqn:Hk.
  2:{ intros _. split; [exact Hu|]. split; [reflexivity|].
      split; [apply SlotFrame_refl|]. intros n' Hn' Hk'. congruence. }
  destruct k;
    try (intros _; split; [exact Hu|]; split; [reflexivity|];
         split; [apply SlotFrame_refl|]; intros n' Hn' Hk'; congruence).
  intros Herr.
  destruct (checkOwnedViews_update fuel def w s path i r Hset Hu Herr)
    as (H1 & H2 & H3 & H4).
  split; [exact H1|]. split; [exact H2|]. split; [exact H3|].
  intros n' _ _. exact H4.
Qed.

Lemma checkView_settles (fuel : nat) : SettlesViews fuel.
Proof.
  induction fuel as [|fuel IH]; intros path w v Hc.
  - simpl. discriminate.
  - rewrite !checkView_unfold.
    destruct (eligible v) eqn:Hel.
    2:{ intros _. cbn [run_view run_world]. split; [reflexivity|].
        split; [exact Hc|]. split; [|exact Hel].
        unfold VerifiesAt. rewrite checkView_unfold, Hel. now split. }
    destruct (Checkable_inv v Hc) as (Hwf & Honce & Hpure & Howned).
    pose proof (WellFormedDef_slicesInOrder _ Hwf) as Hslices.
    pose proof Honce as Honce'. unfold oneCallPerNode, allCalls in Honce'.
    rewrite map_app in Honce'. apply NoDup_app in Honce' as (Hnd1 & _ & Hnd2).
    pose proof Hpure as Hpure'. unfold allCalls in Hpure'.
    apply Forall_app in Hpure' as [Hp1 Hp2].
    set (def := v_def v) in *. set (s := v_state v).
    set (r0 := mkRun v w [] None).
    assert (Hu0 : Updating def w s r0).
    { split; [reflexivity|]. split; [reflexivity|]. split; [reflexivity|].
      split; [reflexivity|exact Howned]. }
    intros Herr.
    destruct (andThen_no_error _ _ Herr) as [Herr4 E5].
    rewrite E5. clear Herr E5.
    destruct (andThen_no_error _ _ Herr4) as [Herr3 E4].
    rewrite E4. clear Herr4 E4.
    destruct (andThen_no_error _ _ Herr3) as [Herr2 E3].
    rewrite E3 in Herr3 |- *. clear E3.
    destruct (andThen_no_error _ _ Herr2) as [Herr1 E2].
    rewrite E2 in Herr3 |- *. clear Herr2 E2.
    (* the directives phase *)
    unfold updateDirectives in *. cbn [run_view r0] in *.
    fold def in Herr1, Herr3 |- *.
    destruct (checkNodes_update def w s path UpdateDirectives
                (vd_updateDirectives def) (fun _ _ r => r) (fun _ _ => True)
                Hnd1 Hp1 Hslices
                ltac:(intros i n r Hu _ _; split; [exact Hu|];
                      split; [reflexivity|]; split; [apply SlotFrame_refl|exact I])
                ltac:(auto)
                (indexed (vd_nodes def)) r0 (indexed_NoDup _)
                ltac:(intros i n; apply indexed_elem) Hu0 Herr1)
      as (Hu1 & _ & _ & Hall1).
    set (r1 := checkNodes CheckAndUpdate path UpdateDirectives
                 (vd_updateDirectives def) (fun _ _ r => r)
                 (indexed (vd_nodes def)) r0) in *.
    (* the hooks after content, the renderer phase *)
    set (r2 := addEvents r1 (afterContentHooks path (run_view r1))).
    assert (Hu2 : Updating def w s r2) by exact Hu1.
    destruct Hu1 as (He1 & Hd1 & Hw1 & Hs1 & Ho1).
    assert (E3 : updateRenderer CheckAndUpdate (checkView CheckAndUpdate fuel)
                   path
                   (whenUpdating CheckAndUpdate
                      (fun r => addEvents r
                                  (afterContentHooks path (run_view r))) r1)
                 = checkNodes CheckAndUpdate path UpdateRenderer
                     (vd_updateRenderer def)
                     (afterRenderer (checkView CheckAndUpdate fuel) path)
                     (indexed (vd_nodes def)) r2).
    { unfold updateRenderer, whenUpdating. cbn [run_view addEvents].
      now rewrite Hd1. }
    rewrite E3 in Herr3 |- *. clear E3.
    destruct (checkNodes_update def w s path UpdateRenderer
                (vd_updateRenderer def)
                (afterRenderer (checkView CheckAndUpdate fuel) path)
                (fun i v' => forall n', vd_nodes def !! i = Some n' ->
                   nodeKind (nd_flags n') = Some KElement ->
                   OwnedVerify fuel w path v' i)
                Hnd2 Hp2 Hslices
                ltac:(intros i n r Hu Hn Herr;
                      exact (afterRenderer_update fuel def w s path i n r
                               IH Hu Hn Herr))
                ltac:(intros i va vb Hslot H n' Hn' Hk;
                      exact (OwnedVerify_slot fuel w path va vb i Hslot
                               (H n' Hn' Hk)))
                (indexed (vd_nodes def)) r2 (indexed_NoDup _)
                ltac:(intros i n; apply indexed_elem) Hu2 Herr3)
      as (Hu3 & Hf3 & _ & Hall3).
    set (r3 := checkNodes CheckAndUpdate path UpdateRenderer
                 (vd_updateRenderer def)
                 (afterRenderer (checkView CheckAndUpdate fuel) path)
                 (indexed (vd_nodes def)) r2) in *.
    destruct Hu3 as (He3 & Hd3 & Hw3 & Hs3 & Ho3).
    unfold whenUpdating, clearFirstCheck. cbn [run_view run_world addEvents].
    set (v' := setState (run_view r3)
                 (Z.land (v_state (run_view r3))
                    (Z.lnot ViewState.FirstCheck))).
    destruct (v_fields_setState (run_view r3)
                (Z.land (v_state (run_view r3))
                   (Z.lnot ViewState.FirstCheck))) as (F1 & F2 & F3 & F4).
    fold v' in F1, F2, F3, F4.
    split; [exact Hw3|]. split.
    { constructor; rewrite ?F1, ?Hd3; try assumption.
      intros i d c Hi Hin. rewrite F4 in Hi. exact (Ho3 i d c Hi Hin). }
    (* verification of the updated view *)
    assert (Hel' : eligible v' = true).
    { unfold v'. rewrite eligible_clearFirstCheck.
      unfold eligible. rewrite Hs3. exact Hel. }
    split; [|exact Hel'].
    unfold VerifiesAt. rewrite checkView_unfold.
    rewrite Hel'. unfold whenUpdating.
    assert (Hv0 : Verifying v' w (mkRun v' w [] None)) by now repeat split.
    assert (Hv1 : Verifying v' w
              (updateDirectives CheckNoChanges path (mkRun v' w [] None))).
    { unfold updateDirectives. cbn [run_view]. rewrite F1, Hd3.
      apply checkNodes_verify; [|exact Hv0].
      intros i n Hin. split; [|auto].
      apply (CallsCached_old w _ (run_view r3)); [exact F3|].
      apply (CallsCached_frame (vd_nodes def)
               (fun j => j ∈ map fst (indexed (vd_nodes def)) /\
                         callsFor (vd_updateRenderer def) j <> [])
               w _ (run_view r2)); auto.
      - now apply indexed_elem.
      - intros Hd j [_ Hr] ->.
        exact (calls_of_one_phase def i Honce Hd Hr).
      - exact (proj1 (Hall1 i n Hin)). }
    rewrite (andThen_ok _ _ (proj1 Hv1)).
    assert (Hv3 : Verifying v' w
              (updateRenderer CheckNoChanges (checkView CheckNoChanges fuel)
                 path
                 (updateDirectives CheckNoChanges path (mkRun v' w [] None)))).
    { unfold updateRenderer at 1.
      rewrite (proj1 (proj2 Hv1)), F1, Hd3.
      apply checkNodes_verify; [|exact Hv1].
      intros i n Hin. destruct (Hall3 i n Hin) as [Hc3 Ha3]. split.
      - now apply (CallsCached_old w _ (run_view r3)).
      - intros r' Hr'. unfold afterRenderer.
        destruct (nodeKind (nd_flags n)) as [[]|] eqn:Hk; try exact Hr'.
        apply checkOwnedViews_verify; [|exact Hr'].
        apply (OwnedVerify_slot fuel w path (run_view r3)); [now rewrite F4|].
        apply (Ha3 n); [now apply indexed_elem|exact Hk]. }
    rewrite (andThen_ok _ _ (proj1 Hv1)).
    rewrite (andThen_ok _ _ (proj1 Hv3)).
    rewrite (andThen_ok _ _ (proj1 Hv3)).
    split; [exact (proj1 Hv3)|exact (proj2 (proj2 Hv3))].
Qed.

(** C9: when [checkAndUpdateView] completes without an error on a view
    with well-formed definitions whose binding evaluators are pure, all
    the way down the view tree, then [checkNoChangesView], run right
    after it on the view and the application state it leaves, raises no
    error: no changed-after-checked error and no other. *)
Theorem check_then_verify (fuel : nat) (w : World) (v : ViewData) :
  Checkable v ->
  run_error (checkAndUpdateView fuel w v) = None ->
  run_error
    (checkNoChangesView fuel
       (run_world (checkAndUpdateView fuel w v))
       (run_view (checkAndUpdateView fuel w v)))
  = None.
Proof.
  intros Hc. unfold checkAndUpdateView, checkNoChangesView, checkViewFrom.
  destruct (hasFlag (v_state v) ViewState.Destroyed) eqn:Hd;
    [simpl; discriminate|].
  intros Herr.
  destruct (checkView_settles fuel [] w v Hc Herr) as (Hw & _ & Hv & Hel).
  rewrite Hw.
  destruct (hasFlag
              (v_state (run_view (checkView CheckAndUpdate fuel [] w v)))
              ViewState.Destroyed) eqn:Hd'; [|exact (proj1 Hv)].
  exfalso. destruct fuel as [|fuel]; [discriminate Herr|].
  rewrite checkView_unfold in Hd', Hel, Herr.
  destruct (eligible v) eqn:E.
  - unfold eligible in Hel. rewrite Hd' in Hel.
    rewrite andb_false_r in Hel. discriminate Hel.
  - simpl in Hd'. congruence.
Qed.

(** ** The check cycle: what a verification compares *)

Lemma Keeping_id (I : Run -> Prop) : Keeping I (fun r => r).
Proof. intros r _ H. exact H. Qed.

Lemma Keeping_andThen (I : Run -> Prop) (f g : Run -> Run) :
  Keeping I f -> Keeping I g -> Keeping I (fun r => andThen (f r) g).
Proof.
  intros Hf Hg r Hr HI. specialize (Hf r Hr HI). unfold andThen.
  destruct (run_error (f r)) eqn:E; [exact Hf|]. now apply Hg.
Qed.

Lemma Keeping_forEach {A : Type} (I : Run -> Prop) (f : A -> Run -> Run)
    (l : list A) :
  (forall x, x ∈ l -> Keeping I (f x)) -> Keeping I (forEach f l).
Proof.
  induction l as [|x l IH]; intros Hf; [apply Keeping_id|].
  intros r Hr HI. rewrite forEach_cons, (andThen_ok r) by exact Hr.
  apply (Keeping_andThen I (f x) (forEach f l)); [| |exact Hr|exact HI].
  - apply Hf. left.
  - apply IH. intros y Hy. apply Hf. now right.
Qed.

Lemma compareBindings_events (path : ViewPath) (phase : Phase) (i : nat)
    (n : NodeDef) (oldValues values : list Value) (count : nat) :
  forall k,
    Forall (fun ev =>
              exists k', k <= k' < k + count /\
                ev = EvBinding path phase i k'
                       (default VUndefined
                          (oldValues !! (nd_bindingIndex n + k')))
                       (default VUndefined (values !! k')))
           (compareBindings path phase i n oldValues values k count).1.
Proof.
  induction count as [|count IH]; intros k; simpl; [constructor|].
  assert (Hhere : exists k', k <= k' < k + S count /\
            EvBinding path phase i k
              (cachedValue oldValues (nd_bindingIndex n + k))
              (argument values k)
            = EvBinding path phase i k'
                (default VUndefined (oldValues !! (nd_bindingIndex n + k')))
                (default VUndefined (values !! k')))
    by (exists k; split; [lia|reflexivity]).
  destruct (decide _) as [E|E].
  - specialize (IH (S k)).
    destruct (compareBindings path phase i n oldValues values (S k) count)
      as [evs e]. simpl in *.
    constructor; [exact Hhere|].
    eapply Forall_impl; [exact IH|].
    intros ev (k' & Hk' & ->). exists k'. split; [lia|reflexivity].
  - simpl. constructor; [exact Hhere|constructor].
Qed.

Lemma compareBindings_error_kind (path : ViewPath) (phase : Phase) (i : nat)
    (n : NodeDef) (oldValues values : list Value) (count : nat) :
  forall k,
    match (compareBindings path phase i n oldValues values k count).2 with
    | Some (ChangedAfterChecked _ _ _ _ _) | None => True
    | _ => False
    end.
Proof.
  induction count as [|count IH]; intros k; simpl; [exact I|].
  destruct (decide _) as [E|E]; [|exact I].
  specialize (IH (S k)).
  now destruct (compareBindings path phase i n oldValues values (S k) count).
Qed.

Lemma viewAt_step (u c : ViewData) (s : PathStep) (rel : ViewPath) :
  eligible u = true -> ownedView u s = Some c ->
  viewAt u (s :: rel) = viewAt c rel.
Proof. intros He Ho. simpl. now rewrite He, Ho. Qed.

Lemma genuineBelow_lift (P : World -> Prop) (u c : ViewData) (p : ViewPath)
    (s : PathStep) (ev : Event) :
  eligible u = true -> ownedView u s = Some c ->
  genuineBelow P c (p ++ [s]) ev -> genuineBelow P u p ev.
Proof.
  intros He Ho. destruct ev as [path phase node k cached value| |];
    simpl; [|tauto|tauto].
  intros (rel & u' & -> & Hat & Howed). exists (s :: rel), u'.
  split; [now rewrite <- app_assoc|].
  split; [now rewrite (viewAt_step u c)|exact Howed].
Qed.

Lemma errorBelow_lift (P : World -> Prop) (u c : ViewData) (p : ViewPath)
    (s : PathStep) (err : option CheckError) :
  eligible u = true -> ownedView u s = Some c ->
  errorBelow P c (p ++ [s]) err -> errorBelow P u p err.
Proof.
  intros He Ho. destruct err as [[| path node | |]|]; simpl; try tauto.
  intros (rel & u' & -> & Hat & Hthrew). exists (s :: rel), u'.
  split; [now rewrite <- app_assoc|].
  split; [now rewrite (viewAt_step u c)|exact Hthrew].
Qed.

Lemma KeepsWorld_owned (P : World -> Prop) (u c : ViewData) (s : PathStep) :
  eligible u = true -> ownedView u s = Some c ->
  KeepsWorld P u -> KeepsWorld P c.
Proof.
  intros He Ho Hk path u' call w Hat. apply (Hk (s :: path)).
  now rewrite (viewAt_step u c).
Qed.

Lemma phaseCalls_allCalls (phase : Phase) (def : ViewDefinition)
    (c : CheckCall) :
  c ∈ phaseCalls phase def -> c ∈ allCalls def.
Proof.
  unfold allCalls. rewrite elem_of_app. destruct phase; simpl; tauto.
Qed.

Lemma runCall_Sound (P : World -> Prop) (u : ViewData) (p : ViewPath)
    (phase : Phase) (i : nat) (n : NodeDef) (c : CheckCall) :
  eligible u = true -> KeepsWorld P u ->
  vd_nodes (v_def u) !! i = Some n ->
  c ∈ phaseCalls phase (v_def u) -> cc_nodeIndex c = i ->
  Keeping (Sound P u p) (runCall CheckNoChanges p phase i n c).
Proof.
  intros He Hk Hn Hc Hi r Hr (Hv & Hw & Ht & _).
  assert (Hw' : P (cc_eval c (run_world r)).1).
  { apply (Hk [] u c); [reflexivity|exact He| |exact Hw].
    now apply (phaseCalls_allCalls phase). }
  unfold runCall, checkNode.
  destruct (cc_eval c (run_world r)) as [w' [values|]] eqn:Hev; simpl in *.
  - pose proof (compareBindings_events p phase i n
                  (v_oldValues (run_view r)) values
                  (length (nd_bindings n)) 0) as Hevs.
    pose proof (compareBindings_error_kind p phase i n
                  (v_oldValues (run_view r)) values
                  (length (nd_bindings n)) 0) as Herr.
    destruct (compareBindings _ _ _ _ _ _ _ _) as [evs e]. simpl in *.
    split; [exact Hv|]. split; [exact Hw'|]. split.
    + apply Forall_app. split; [exact Ht|].
      eapply Forall_impl; [exact Hevs|].
      intros ev (k & Hk' & ->). simpl. exists [], u.
      split; [now rewrite app_nil_r|]. split; [reflexivity|].
      exists n, c, (run_world r), values. rewrite Hev, Hv. simpl.
      repeat (split; [first [assumption|reflexivity|lia]|]). reflexivity.
    + destruct e as [[]|]; simpl in *; tauto.
  - split; [exact Hv|]. split; [exact Hw'|]. split; [exact Ht|].
    exists [], u. split; [now rewrite app_nil_r|]. split; [reflexivity|].
    exists n, c, (run_world r). rewrite Hev. simpl.
    split; [exact He|]. split; [exact Hn|].
    split; [now apply (phaseCalls_allCalls phase)|].
    split; [exact Hi|]. split; [exact Hw|reflexivity].
Qed.

Lemma checkNodes_Sound (P : World -> Prop) (u : ViewData) (p : ViewPath)
    (phase : Phase) (after : nat -> NodeDef -> Run -> Run) :
  eligible u = true -> KeepsWorld P u ->
  (forall i n, vd_nodes (v_def u) !! i = Some n ->
               Keeping (Sound P u p) (after i n)) ->
  Keeping (Sound P u p)
    (checkNodes CheckNoChanges p phase (phaseCalls phase (v_def u)) after
       (indexed (vd_nodes (v_def u)))).
Proof.
  intros He Hk Hafter. unfold checkNodes. apply Keeping_forEach.
  intros [i n] Hin. apply indexed_elem in Hin.
  apply (Keeping_andThen (Sound P u p)
           (forEach (runCall CheckNoChanges p phase i n)
              (callsFor (phaseCalls phase (v_def u)) i))
           (after i n)); [|now apply Hafter].
  apply Keeping_forEach. intros c Hc. apply callsFor_elem in Hc as [Hc Hi].
  now apply runCall_Sound.
Qed.

Lemma ownedView_component (u : ViewData) (i : nat) (n : NodeDef)
    (re : Value) (cv : option ViewData) (vc : option ViewContainerData)
    (t : option TemplateData) :
  vd_nodes (v_def u) !! i = Some n ->
  nodeKind (nd_flags n) = Some KElement ->
  v_nodes u !! i = Some (ElementData re cv vc t) ->
  ownedView u (ViaComponent i) = cv.
Proof. intros Hn Hk Hd. unfold ownedView. simpl. now rewrite Hn, Hk, Hd. Qed.

Lemma ownedView_embedded (u : ViewData) (i k : nat) (n : NodeDef)
    (re : Value) (cv : option ViewData) (views : list ViewData)
    (t : option TemplateData) :
  vd_nodes (v_def u) !! i = Some n ->
  nodeKind (nd_flags n) = Some KElement ->
  v_nodes u !! i
  = Some (ElementData re cv (Some (mkViewContainerData views)) t) ->
  ownedView u (ViaEmbedded i k) = views !! k.
Proof. intros Hn Hk Hd. unfold ownedView. simpl. now rewrite Hn, Hk, Hd. Qed.

Section OwnedSound.

Variable P : World -> Prop.
Variable u : ViewData.
Variable p : ViewPath.
Variable check : ViewPath -> World -> ViewData -> Run.

Hypothesis Helig : eligible u = true.
Hypothesis Hcheck :
  forall s c w, ownedView u s = Some c -> P w ->
    Sound P c (p ++ [s]) (check (p ++ [s]) w c).

Lemma checkEmbedded_sound (i : nat) (views : list ViewData) :
  forall k w,
    (forall j e, views !! j = Some e ->
                 ownedView u (ViaEmbedded i (k + j)) = Some e) ->
    P w ->
    P (checkEmbedded check p i k views w).1.1.2 /\
    Forall (genuineBelow P u p) (checkEmbedded check p i k views w).1.2 /\
    errorBelow P u p (checkEmbedded check p i k views w).2.
Proof.
  induction views as [|e rest IH]; intros k w Hown Hw; simpl.
  - split; [exact Hw|]. split; [constructor|exact I].
  - assert (Ho : ownedView u (ViaEmbedded i k) = Some e).
    { replace k with (k + 0) at 1 by lia. now apply Hown. }
    destruct (Hcheck _ e w Ho Hw) as (_ & Hw1 & Ht1 & He1).
    assert (Hlift : Forall (genuineBelow P u p)
              (run_trace (check (p ++ [ViaEmbedded i k]) w e))).
    { eapply Forall_impl; [exact Ht1|]. intros ev.
      now apply genuineBelow_lift. }
    destruct (run_error (check (p ++ [ViaEmbedded i k]) w e)) eqn:E.
    + simpl. split; [exact Hw1|]. split; [exact Hlift|].
      exact (errorBelow_lift P u e p (ViaEmbedded i k) (Some c) Helig Ho He1).
    + assert (Hrest : forall j e', rest !! j = Some e' ->
                ownedView u (ViaEmbedded i (S k + j)) = Some e').
      { intros j e' Hj. replace (S k + j) with (k + S j) by lia.
        now apply Hown. }
      specialize (IH (S k) _ Hrest Hw1).
      destruct (checkEmbedded check p i (S k) rest _)
        as [[[rest' w'] evs] err]. simpl in *.
      destruct IH as (Hw2 & Ht2 & He2).
      split; [exact Hw2|]. split; [|exact He2].
      apply Forall_app. now split.
Qed.

Lemma checkOwnedViews_Sound (i : nat) (n : NodeDef) :
  QuietCheck check ->
  vd_nodes (v_def u) !! i = Some n ->
  nodeKind (nd_flags n) = Some KElement ->
  Keeping (Sound P u p) (checkOwnedViews check p i).
Proof.
  intros Hq Hn Hkind r Hr (Hv & Hw & Ht & He).
  assert (Hview : run_view (checkOwnedViews check p i r) = u)
    by (now rewrite (proj1 (checkOwnedViews_Quiet check p i Hq r Hr))).
  split; [exact Hview|]. clear Hview.
  unfold checkOwnedViews, asElementData. rewrite Hv.
  destruct (v_nodes u !! i) as [d|] eqn:Hd;
    [|split; [exact Hw|]; split; [exact Ht|exact He]].
  destruct d as [|re cv vc t| | |];
    try (split; [exact Hw|]; split; [exact Ht|exact He]).
  pose proof (ownedView_component u i n re cv vc t Hn Hkind Hd) as Hcv.
  assert (Hcomp :
    P (checkComponentView check p i cv (run_world r)).1.1.2 /\
    Forall (genuineBelow P u p)
      (checkComponentView check p i cv (run_world r)).1.2 /\
    errorBelow P u p (checkComponentView check p i cv (run_world r)).2).
  { destruct cv as [child|]; simpl.
    - destruct (Hcheck _ child (run_world r) Hcv Hw) as (_ & Hw1 & Ht1 & He1).
      split; [exact Hw1|]. split.
      + eapply Forall_impl; [exact Ht1|]. intros ev.
        now apply genuineBelow_lift.
      + exact (errorBelow_lift P u child p (ViaComponent i) _ Helig Hcv He1).
    - split; [exact Hw|]. split; [constructor|exact I]. }
  destruct (checkComponentView check p i cv (run_world r))
    as [[[cv' w1] evs1] err1]. simpl in Hcomp.
  destruct Hcomp as (Hw1 & Ht1 & He1).
  destruct err1 as [e1|].
  - simpl. split; [exact Hw1|]. split; [|exact He1].
    rewrite app_nil_r. apply Forall_app. now split.
  - assert (Hcont :
      P (checkContainer check p i vc w1).1.1.2 /\
      Forall (genuineBelow P u p) (checkContainer check p i vc w1).1.2 /\
      errorBelow P u p (checkContainer check p i vc w1).2).
    { destruct vc as [[views]|]; simpl.
      - assert (Hown : forall j e, views !! j = Some e ->
                  ownedView u (ViaEmbedded i (0 + j)) = Some e).
        { intros j e Hj. simpl.
          now rewrite (ownedView_embedded u i j n re cv views t). }
        pose proof (checkEmbedded_sound i views 0 w1 Hown Hw1) as H.
        now destruct (checkEmbedded check p i 0 views w1)
          as [[[views' w'] evs] err].
      - split; [exact Hw1|]. split; [constructor|exact I]. }
    destruct (checkContainer check p i vc w1) as [[[vc' w2] evs2] err2].
    simpl in Hcont. destruct Hcont as (Hw2 & Ht2 & He2). simpl.
    split; [exact Hw2|]. split; [|exact He2].
    apply Forall_app. split; [exact Ht|]. apply Forall_app. now split.
Qed.

End OwnedSound.

Lemma andThen_whenUpdating (r : Run) (f : Run -> Run) :
  andThen r (whenUpdating CheckNoChanges f) = r.
Proof. unfold andThen, whenUpdating. now destruct (run_error r). Qed.

Lemma checkView_NoChanges_unfold (fuel : nat) (p : ViewPath) (w : World)
    (u : ViewData) :
  eligible u = true ->
  checkView CheckNoChanges (S fuel) p w u
  = andThen (updateDirectives CheckNoChanges p (mkRun u w [] None))
      (updateRenderer CheckNoChanges (checkView CheckNoChanges fuel) p).
Proof. intros He. simpl. rewrite He. now rewrite !andThen_whenUpdating. Qed.

Lemma updateDirectives_Sound (P : World -> Prop) (u : ViewData)
    (p : ViewPath) :
  eligible u = true -> KeepsWorld P u ->
  Keeping (Sound P u p) (updateDirectives CheckNoChanges p).
Proof.
  intros He Hk r Hr HI. unfold updateDirectives.
  rewrite (proj1 HI).
  apply (checkNodes_Sound P u p UpdateDirectives); try assumption.
  intros i n _. apply Keeping_id.
Qed.

Lemma updateRenderer_Sound (P : World -> Prop) (u : ViewData)
    (p : ViewPath) (check : ViewPath -> World -> ViewData -> Run) :
  eligible u = true -> KeepsWorld P u -> QuietCheck check ->
  (forall s c w, ownedView u s = Some c -> P w ->
     Sound P c (p ++ [s]) (check (p ++ [s]) w c)) ->
  Keeping (Sound P u p) (updateRenderer CheckNoChanges check p).
Proof.
  intros He Hk Hq Hcheck r Hr HI. unfold updateRenderer.
  rewrite (proj1 HI).
  apply (checkNodes_Sound P u p UpdateRenderer); try assumption.
  intros i n Hn. unfold afterRenderer.
  destruct (nodeKind (nd_flags n)) as [[]|] eqn:Hkind; try apply Keeping_id.
  now apply (checkOwnedViews_Sound P u p check He Hcheck i n).
Qed.

Lemma checkView_Sound (P : World -> Prop) (fuel : nat) :
  forall p w u, P w -> KeepsWorld P u ->
    Sound P u p (checkView CheckNoChanges fuel p w u).
Proof.
  induction fuel as [|fuel IH]; intros p w u Hw Hk.
  - simpl. split; [reflexivity|]. split; [exact Hw|].
    split; [constructor|exact I].
  - destruct (eligible u) eqn:He.
    + rewrite checkView_NoChanges_unfold by exact He.
      apply (Keeping_andThen (Sound P u p)
               (updateDirectives CheckNoChanges p)
               (updateRenderer CheckNoChanges
                  (checkView CheckNoChanges fuel) p)
               (updateDirectives_Sound P u p He Hk)).
      * apply updateRenderer_Sound; try assumption.
        -- apply checkView_QuietCheck.
        -- intros s c w' Ho Hw'. apply IH; [exact Hw'|].
           now apply (KeepsWorld_owned P u c s).
      * reflexivity.
      * split; [reflexivity|]. split; [exact Hw|].
        split; [constructor|exact I].
    + simpl. rewrite He. split; [reflexivity|]. split; [exact Hw|].
      split; [constructor|exact I].
Qed.

Lemma forEach_each {A : Type} (I : Run -> Prop)
    (Q : A -> list Event -> Prop) (f : A -> Run -> Run) (l : list A) :
  (forall x, x ∈ l -> Keeping I (f x)) ->
  (forall x, Extends (f x)) ->
  (forall x t evs, Q x t -> Q x (t ++ evs)) ->
  (forall x r, x ∈ l -> I r -> run_error r = None ->
     run_error (f x r) = None -> Q x (run_trace (f x r))) ->
  forall r, I r -> run_error r = None ->
    run_error (forEach f l r) = None ->
    forall x, x ∈ l -> Q x (run_trace (forEach f l r)).
Proof.
  intros Hkeep Hext Hmono Hpost.
  induction l as [|y l IH]; intros r HI Hr Hfin x Hx; [inversion Hx|].
  change (forEach f (y :: l) r) with (forEach f l (andThen r (f y))) in *.
  rewrite (andThen_ok r) in * by exact Hr.
  assert (Hy : run_error (f y r) = None).
  { destruct (run_error (f y r)) eqn:E; [|reflexivity].
    rewrite forEach_error in Hfin by congruence. congruence. }
  apply elem_of_cons in Hx as [->|Hx].
  - destruct (Extends_forEach f l Hext (f y r)) as [evs ->].
    apply Hmono. apply Hpost; [left|exact HI|exact Hr|exact Hy].
  - apply IH; try assumption.
    + intros z Hz. apply Hkeep. now right.
    + intros z r' Hz. apply Hpost. now right.
    + apply (Hkeep y); [left|exact Hr|exact HI].
Qed.

Lemma compareBindings_complete (path : ViewPath) (phase : Phase) (i : nat)
    (n : NodeDef) (oldValues values : list Value) (count : nat) :
  forall k,
    (compareBindings path phase i n oldValues values k count).2 = None ->
    forall k', k <= k' < k + count ->
      EvBinding path phase i k'
        (default VUndefined (oldValues !! (nd_bindingIndex n + k')))
        (default VUndefined (values !! k'))
      ∈ (compareBindings path phase i n oldValues values k count).1.
Proof.
  induction count as [|count IH]; intros k Hnone k' Hk'; [lia|].
  simpl in *. destruct (decide _) as [E|E]; [|discriminate Hnone].
  specialize (IH (S k)).
  destruct (compareBindings path phase i n oldValues values (S k) count)
    as [evs e]. simpl in *.
  destruct (decide (k' = k)) as [->|Hne]; [left|].
  right. apply IH; [exact Hnone|lia].
Qed.

Lemma CallCompared_mono (P : World -> Prop) (u : ViewData) (p : ViewPath)
    (phase : Phase) (i : nat) (n : NodeDef) (c : CheckCall)
    (t evs : list Event) :
  CallCompared P u p phase i n c t -> CallCompared P u p phase i n c (t ++ evs).
Proof.
  intros (w & values & Hw & Hev & H). exists w, values.
  split; [exact Hw|]. split; [exact Hev|].
  intros k Hk. apply elem_of_app. left. now apply H.
Qed.

Lemma ComparedBelow_mono (P : World -> Prop) (u : ViewData) (p : ViewPath)
    (t t' : list Event) :
  (forall ev, ev ∈ t -> ev ∈ t') ->
  ComparedBelow P u p t -> ComparedBelow P u p t'.
Proof.
  intros Hsub H rel u' phase c n k Hat He Hc Hn Hk.
  destruct (H rel u' phase c n k Hat He Hc Hn Hk)
    as (w & values & Hw & Hev & Hin).
  exists w, values. split; [exact Hw|]. split; [exact Hev|].
  now apply Hsub.
Qed.

Lemma OwnedCompared_mono (P : World -> Prop) (u : ViewData) (p : ViewPath)
    (i : nat) (t evs : list Event) :
  OwnedCompared P u p i t -> OwnedCompared P u p i (t ++ evs).
Proof.
  intros H s c Hs Ho. apply (ComparedBelow_mono P c (p ++ [s]) t).
  - intros ev Hev. apply elem_of_app. now left.
  - now apply H.
Qed.

Lemma runCall_complete (P : World -> Prop) (u : ViewData) (p : ViewPath)
    (phase : Phase) (i : nat) (n : NodeDef) (c : CheckCall) (r : Run) :
  Sound P u p r ->
  run_error (runCall CheckNoChanges p phase i n c r) = None ->
  CallCompared P u p phase i n c
    (run_trace (runCall CheckNoChanges p phase i n c r)).
Proof.
  intros (Hv & Hw & _) Hnone. unfold runCall, checkNode in *.
  exists (run_world r).
  destruct (cc_eval c (run_world r)) as [w' [values|]] eqn:Hev;
    simpl in *; [|discriminate Hnone].
  exists values. split; [exact Hw|]. split; [reflexivity|].
  intros k Hk.
  pose proof (compareBindings_complete p phase i n
                (v_oldValues (run_view r)) values
                (length (nd_bindings n)) 0) as Hall.
  destruct (compareBindings _ _ _ _ _ _ _ _) as [evs e]. simpl in *.
  apply elem_of_app. right. rewrite <- Hv.
  apply Hall; [exact Hnone|lia].
Qed.

Lemma checkNodes_complete (P : World -> Prop) (u : ViewData) (p : ViewPath)
    (phase : Phase) (after : nat -> NodeDef -> Run -> Run)
    (A : nat -> list Event -> Prop) :
  eligible u = true -> KeepsWorld P u ->
  (forall i n, vd_nodes (v_def u) !! i = Some n ->
               Keeping (Sound P u p) (after i n)) ->
  (forall i n, Extends (after i n)) ->
  (forall i t evs, A i t -> A i (t ++ evs)) ->
  (forall i n r, vd_nodes (v_def u) !! i = Some n ->
     Sound P u p r -> run_error r = None ->
     run_error (after i n r) = None -> A i (run_trace (after i n r))) ->
  forall r, Sound P u p r -> run_error r = None ->
    run_error (checkNodes CheckNoChanges p phase
                 (phaseCalls phase (v_def u)) after
                 (indexed (vd_nodes (v_def u))) r) = None ->
    forall i n, vd_nodes (v_def u) !! i = Some n ->
      (forall c, c ∈ phaseCalls phase (v_def u) -> cc_nodeIndex c = i ->
         CallCompared P u p phase i n c
           (run_trace (checkNodes CheckNoChanges p phase
                         (phaseCalls phase (v_def u)) after
                         (indexed (vd_nodes (v_def u))) r))) /\
      A i (run_trace (checkNodes CheckNoChanges p phase
                        (phaseCalls phase (v_def u)) after
                        (indexed (vd_nodes (v_def u))) r)).
Proof.
  intros He Hk Hafter Hext Hmono Hpost r HI Hr Hfin i n Hn.
  unfold checkNodes in *.
  apply (forEach_each (Sound P u p)
           (fun x t =>
              (forall c, c ∈ phaseCalls phase (v_def u) ->
                 cc_nodeIndex c = x.1 ->
                 CallCompared P u p phase x.1 x.2 c t) /\ A x.1 t)
           _ (indexed (vd_nodes (v_def u)))) with (x := (i, n));
    try assumption.
  - intros [j m] Hin. apply indexed_elem in Hin.
    apply (Keeping_andThen (Sound P u p)
             (forEach (runCall CheckNoChanges p phase j m)
                (callsFor (phaseCalls phase (v_def u)) j))
             (after j m)); [|now apply Hafter].
    apply Keeping_forEach. intros c Hc.
    apply callsFor_elem in Hc as [Hc Hj]. now apply runCall_Sound.
  - intros [j m].
    apply (Extends_andThen
             (forEach (runCall CheckNoChanges p phase j m)
                (callsFor (phaseCalls phase (v_def u)) j))
             (after j m)); [|apply Hext].
    apply Extends_forEach. intros c. apply runCall_Extends.
  - intros [j m] t evs [Hc Ha]. split; [|now apply Hmono].
    intros c Hin Hj. now apply CallCompared_mono, Hc.
  - intros [j m] r' Hin HI' Hr' Hnone. apply indexed_elem in Hin.
    simpl. destruct (andThen_no_error _ _ Hnone) as [Hcalls Heq].
    rewrite Heq in Hnone |- *.
    assert (Hkeep : forall c, c ∈ callsFor (phaseCalls phase (v_def u)) j ->
              Keeping (Sound P u p) (runCall CheckNoChanges p phase j m c)).
    { intros c Hc. apply callsFor_elem in Hc as [Hc Hj].
      now apply runCall_Sound. }
    split.
    + intros c Hc Hj.
      destruct (Hext j m (forEach (runCall CheckNoChanges p phase j m)
                            (callsFor (phaseCalls phase (v_def u)) j) r'))
        as [evs ->].
      apply CallCompared_mono.
      apply (forEach_each (Sound P u p)
               (fun c t => CallCompared P u p phase j m c t)
               (runCall CheckNoChanges p phase j m)
               (callsFor (phaseCalls phase (v_def u)) j));
        try assumption.
      * intros c'. apply runCall_Extends.
      * intros c' t evs'. apply CallCompared_mono.
      * intros c' r'' _ HI'' _ Hnone'. now apply runCall_complete.
      * now apply callsFor_elem.
    + apply Hpost; try assumption.
      now apply (Keeping_forEach (Sound P u p)
                   (runCall CheckNoChanges p phase j m)
                   (callsFor (phaseCalls phase (v_def u)) j) Hkeep).
  - now apply indexed_elem.
Qed.

Lemma ownedView_inv (u c : ViewData) (s : PathStep) :
  ownedView u s = Some c ->
  exists n re cv vc t,
    vd_nodes (v_def u) !! hostOf s = Some n /\
    nodeKind (nd_flags n) = Some KElement /\
    v_nodes u !! hostOf s = Some (ElementData re cv vc t).
Proof.
  unfold ownedView.
  destruct (vd_nodes (v_def u) !! hostOf s) as [n|]; [|discriminate].
  destruct (nodeKind (nd_flags n)) as [k|] eqn:Hk; [|discriminate].
  destruct (v_nodes u !! hostOf s) as [[|re cv vc t| | |]|];
    destruct k; try discriminate.
  intros _. now exists n, re, cv, vc, t.
Qed.

Section OwnedComplete.

Variable P : World -> Prop.
Variable u : ViewData.
Variable p : ViewPath.
Variable check : ViewPath -> World -> ViewData -> Run.

Hypothesis Helig : eligible u = true.
Hypothesis Hcheck :
  forall s c w, ownedView u s = Some c -> P w ->
    Sound P c (p ++ [s]) (check (p ++ [s]) w c).
Hypothesis Hcomplete :
  forall s c w, ownedView u s = Some c -> P w ->
    run_error (check (p ++ [s]) w c) = None ->
    ComparedBelow P c (p ++ [s]) (run_trace (check (p ++ [s]) w c)).

Lemma checkEmbedded_complete (i : nat) (views : list ViewData) :
  forall k w,
    (forall j e, views !! j = Some e ->
                 ownedView u (ViaEmbedded i (k + j)) = Some e) ->
    P w ->
    (checkEmbedded check p i k views w).2 = None ->
    forall j e, views !! j = Some e ->
      ComparedBelow P e (p ++ [ViaEmbedded i (k + j)])
        (checkEmbedded check p i k views w).1.2.
Proof.
  induction views as [|e rest IH]; intros k w Hown Hw Hnone j e' Hj;
    [discriminate Hj|].
  simpl in *.
  assert (Ho : ownedView u (ViaEmbedded i k) = Some e).
  { replace k with (k + 0) at 1 by lia. now apply Hown. }
  destruct (Hcheck _ e w Ho Hw) as (_ & Hw1 & _).
  pose proof (Hcomplete _ e w Ho Hw) as Hc.
  destruct (run_error (check (p ++ [ViaEmbedded i k]) w e)) eqn:E;
    [discriminate Hnone|].
  assert (Hrest : forall j e', rest !! j = Some e' ->
            ownedView u (ViaEmbedded i (S k + j)) = Some e').
  { intros j' e'' Hj'. replace (S k + j') with (k + S j') by lia.
    now apply Hown. }
  specialize (IH (S k) _ Hrest Hw1).
  destruct (checkEmbedded check p i (S k) rest _)
    as [[[rest' w'] evs] err]. simpl in *.
  destruct j as [|j].
  - injection Hj as <-. rewrite Nat.add_0_r.
    apply (ComparedBelow_mono P e _
             (run_trace (check (p ++ [ViaEmbedded i k]) w e)));
      [|now apply Hc].
    intros ev Hev. apply elem_of_app. now left.
  - replace (k + S j) with (S k + j) by lia.
    apply (ComparedBelow_mono P e' _ evs); [|now apply IH].
    intros ev Hev. apply elem_of_app. now right.
Qed.

Lemma checkOwnedViews_complete (i : nat) (r : Run) :
  Sound P u p r ->
  run_error (checkOwnedViews check p i r) = None ->
  OwnedCompared P u p i (run_trace (checkOwnedViews check p i r)).
Proof.
  intros (Hv & Hw & _) Hnone s c Hs Ho.
  destruct (ownedView_inv u c s Ho) as (n & re & cv & vc & t & Hn & Hkind & Hd).
  rewrite Hs in Hn, Hd.
  unfold checkOwnedViews, asElementData in *. rewrite Hv, Hd in *.
  pose proof (ownedView_component u i n re cv vc t Hn Hkind Hd) as Hcv.
  assert (Hcomp :
    (checkComponentView check p i cv (run_world r)).2 = None ->
    P (checkComponentView check p i cv (run_world r)).1.1.2 /\
    forall child, cv = Some child ->
      ComparedBelow P child (p ++ [ViaComponent i])
        (checkComponentView check p i cv (run_world r)).1.2).
  { destruct cv as [child|]; simpl.
    - intros E. destruct (Hcheck _ child (run_world r) Hcv Hw) as (_ & Hw1 & _).
      split; [exact Hw1|]. intros child' [= <-].
      now apply (Hcomplete _ child (run_world r) Hcv Hw).
    - intros _. split; [exact Hw|]. intros child' H. discriminate H. }
  destruct (checkComponentView check p i cv (run_world r))
    as [[[cv' w1] evs1] err1]. simpl in Hcomp.
  destruct err1 as [e1|]; [discriminate Hnone|].
  destruct (Hcomp eq_refl) as [Hw1 Hchild]. clear Hcomp.
  assert (Hcont :
    (checkContainer check p i vc w1).2 = None ->
    forall views k e, vc = Some (mkViewContainerData views) ->
      views !! k = Some e ->
      ComparedBelow P e (p ++ [ViaEmbedded i k])
        (checkContainer check p i vc w1).1.2).
  { destruct vc as [[views]|]; simpl; [|intros _ views k e H; discriminate H].
    assert (Hown : forall j e, views !! j = Some e ->
              ownedView u (ViaEmbedded i (0 + j)) = Some e).
    { intros j e Hj. simpl.
      now rewrite (ownedView_embedded u i j n re cv views t). }
    pose proof (checkEmbedded_complete i views 0 w1 Hown Hw1) as H.
    destruct (checkEmbedded check p i 0 views w1)
      as [[[views' w'] evs] err]. simpl in *.
    intros E views0 k e [= <-] Hk. now apply (H E k e). }
  destruct (checkContainer check p i vc w1) as [[[vc' w2] evs2] err2].
  simpl in Hcont, Hnone |- *. specialize (Hcont Hnone).
  destruct s as [i'|i' k]; simpl in Hs; subst i'.
  - rewrite Hcv in Ho.
    apply (ComparedBelow_mono P c _ evs1); [|now apply Hchild].
    intros ev Hev. rewrite !elem_of_app. tauto.
  - destruct vc as [[views]|].
    + rewrite (ownedView_embedded u i k n re cv views t Hn Hkind Hd) in Ho.
      apply (ComparedBelow_mono P c _ evs2);
        [|now apply (Hcont views k c)].
      intros ev Hev. rewrite !elem_of_app. tauto.
    + unfold ownedView in Ho. simpl in Ho.
      rewrite Hn, Hkind, Hd in Ho. discriminate Ho.
Qed.

End OwnedComplete.

Lemma afterRenderer_Sound (P : World -> Prop) (u : ViewData) (p : ViewPath)
    (check : ViewPath -> World -> ViewData -> Run) (i : nat) (n : NodeDef) :
  eligible u = true -> QuietCheck check ->
  (forall s c w, ownedView u s = Some c -> P w ->
     Sound P c (p ++ [s]) (check (p ++ [s]) w c)) ->
  vd_nodes (v_def u) !! i = Some n ->
  Keeping (Sound P u p) (afterRenderer check p i n).
Proof.
  intros He Hq Hsound Hn. unfold afterRenderer.
  destruct (nodeKind (nd_flags n)) as [[]|] eqn:Hkind; try apply Keeping_id.
  now apply (checkOwnedViews_Sound P u p check He Hsound i n).
Qed.

Lemma afterRenderer_complete (P : World -> Prop) (u : ViewData)
    (p : ViewPath) (check : ViewPath -> World -> ViewData -> Run)
    (i : nat) (n : NodeDef) (r : Run) :
  eligible u = true ->
  (forall s c w, ownedView u s = Some c -> P w ->
     Sound P c (p ++ [s]) (check (p ++ [s]) w c)) ->
  (forall s c w, ownedView u s = Some c -> P w ->
     run_error (check (p ++ [s]) w c) = None ->
     ComparedBelow P c (p ++ [s]) (run_trace (check (p ++ [s]) w c))) ->
  vd_nodes (v_def u) !! i = Some n ->
  Sound P u p r ->
  run_error (afterRenderer check p i n r) = None ->
  OwnedCompared P u p i (run_trace (afterRenderer check p i n r)).
Proof.
  intros He Hsound Hbelow Hn HI Hnone. unfold afterRenderer in *.
  destruct (nodeKind (nd_flags n)) as [k|] eqn:Hkind.
  - destruct k;
      try (intros s c Hs Ho;
           destruct (ownedView_inv u c s Ho)
             as (m & re & cv & vc & t & Hm & Hk & _);
           rewrite Hs, Hn in Hm; injection Hm as <-; congruence).
    now apply (checkOwnedViews_complete P u p check Hsound Hbelow i r).
  - intros s c Hs Ho.
    destruct (ownedView_inv u c s Ho) as (m & re & cv & vc & t & Hm & Hk & _).
    rewrite Hs, Hn in Hm. injection Hm as <-. congruence.
Qed.

Lemma updateDirectives_complete (P : World -> Prop) (u : ViewData)
    (p : ViewPath) (r : Run) :
  eligible u = true -> KeepsWorld P u ->
  Sound P u p r -> run_error r = None ->
  run_error (updateDirectives CheckNoChanges p r) = None ->
  forall i n c, vd_nodes (v_def u) !! i = Some n ->
    c ∈ vd_updateDirectives (v_def u) -> cc_nodeIndex c = i ->
    CallCompared P u p UpdateDirectives i n c
      (run_trace (updateDirectives CheckNoChanges p r)).
Proof.
  intros He Hk HI Hr Hnone i n c Hn Hc Hi. unfold updateDirectives in *.
  rewrite (proj1 HI) in *.
  refine (proj1 (checkNodes_complete P u p UpdateDirectives (fun _ _ r => r)
                   (fun _ _ => True) He Hk _ _ _ _ r HI Hr Hnone i n Hn)
            c Hc Hi); try tauto.
  - intros j m _. apply Keeping_id.
  - intros j m. apply Extends_id.
Qed.

Lemma updateRenderer_complete (P : World -> Prop) (u : ViewData)
    (p : ViewPath) (check : ViewPath -> World -> ViewData -> Run) (r : Run) :
  eligible u = true -> KeepsWorld P u -> QuietCheck check ->
  (forall s c w, ownedView u s = Some c -> P w ->
     Sound P c (p ++ [s]) (check (p ++ [s]) w c)) ->
  (forall s c w, ownedView u s = Some c -> P w ->
     run_error (check (p ++ [s]) w c) = None ->
     ComparedBelow P c (p ++ [s]) (run_trace (check (p ++ [s]) w c))) ->
  Sound P u p r -> run_error r = None ->
  run_error (updateRenderer CheckNoChanges check p r) = None ->
  forall i n, vd_nodes (v_def u) !! i = Some n ->
    (forall c, c ∈ vd_updateRenderer (v_def u) -> cc_nodeIndex c = i ->
       CallCompared P u p UpdateRenderer i n c
         (run_trace (updateRenderer CheckNoChanges check p r))) /\
    OwnedCompared P u p i
      (run_trace (updateRenderer CheckNoChanges check p r)).
Proof.
  intros He Hk Hq Hsound Hbelow HI Hr Hnone i n Hn.
  unfold updateRenderer in *. rewrite (proj1 HI) in *.
  apply (checkNodes_complete P u p UpdateRenderer (afterRenderer check p)
           (OwnedCompared P u p) He Hk); try assumption.
  - intros j m Hm. now apply afterRenderer_Sound.
  - intros j m. apply afterRenderer_Extends.
  - intros j t evs. apply OwnedCompared_mono.
  - intros j m r' Hm HI' _ Hn'. now apply afterRenderer_complete.
Qed.

Lemma checkView_complete (P : World -> Prop) (fuel : nat) :
  forall p w u, P w -> KeepsWorld P u ->
    run_error (checkView CheckNoChanges fuel p w u) = None ->
    ComparedBelow P u p (run_trace (checkView CheckNoChanges fuel p w u)).
Proof.
  induction fuel as [|fuel IH]; intros p w u Hw Hk Hnone;
    [discriminate Hnone|].
  destruct (eligible u) eqn:He.
  - rewrite checkView_NoChanges_unfold in * by exact He.
    assert (H0 : Sound P u p (mkRun u w [] None)).
    { split; [reflexivity|]. split; [exact Hw|].
      split; [constructor|exact I]. }
    destruct (andThen_no_error _ _ Hnone) as [E1 Eq].
    rewrite Eq in Hnone |- *. clear Eq.
    pose proof (updateDirectives_Sound P u p He Hk (mkRun u w [] None)
                  eq_refl H0) as H1.
    pose proof (updateDirectives_complete P u p (mkRun u w [] None) He Hk H0
                  eq_refl E1) as Hdir.
    assert (Hsound : forall s c w', ownedView u s = Some c -> P w' ->
              Sound P c (p ++ [s])
                (checkView CheckNoChanges fuel (p ++ [s]) w' c)).
    { intros s c w' Ho Hw'. apply checkView_Sound; [exact Hw'|].
      now apply (KeepsWorld_owned P u c s). }
    assert (Hbelow : forall s c w', ownedView u s = Some c -> P w' ->
              run_error (checkView CheckNoChanges fuel (p ++ [s]) w' c) = None ->
              ComparedBelow P c (p ++ [s])
                (run_trace (checkView CheckNoChanges fuel (p ++ [s]) w' c))).
    { intros s c w' Ho Hw' Hn. apply IH; [exact Hw'| |exact Hn].
      now apply (KeepsWorld_owned P u c s). }
    pose proof (updateRenderer_complete P u p (checkView CheckNoChanges fuel)
                  _ He Hk (checkView_QuietCheck fuel) Hsound Hbelow H1 E1
                  Hnone) as Hren.
    intros rel u' phase c n k Hat He' Hc Hn Hk'.
    destruct rel as [|s rest].
    + injection Hat as <-. rewrite app_nil_r.
      destruct phase; simpl in Hc.
      * destruct (Hdir _ n c Hn Hc eq_refl) as (w0 & values & Hw0 & Hev & Hall).
        exists w0, values. split; [exact Hw0|]. split; [exact Hev|].
        destruct (updateRenderer_Extends CheckNoChanges
                    (checkView CheckNoChanges fuel) p
                    (updateDirectives CheckNoChanges p (mkRun u w [] None)))
          as [evs ->].
        apply elem_of_app. left. now apply Hall.
      * destruct (proj1 (Hren _ n Hn) c Hc eq_refl)
          as (w0 & values & Hw0 & Hev & Hall).
        exists w0, values. split; [exact Hw0|]. split; [exact Hev|].
        now apply Hall.
    + simpl in Hat. rewrite He in Hat.
      destruct (ownedView u s) as [c0|] eqn:Ho; [|discriminate Hat].
      destruct (ownedView_inv u c0 s Ho) as (m & ? & ? & ? & ? & Hm & _).
      pose proof (proj2 (Hren _ m Hm) s c0 eq_refl Ho) as Hsub.
      destruct (Hsub rest u' phase c n k Hat He' Hc Hn Hk')
        as (w0 & values & Hw0 & Hev & Hin).
      exists w0, values. split; [exact Hw0|]. split; [exact Hev|].
      now rewrite <- app_assoc in Hin.
  - simpl. rewrite He. simpl.
    intros rel u' phase c n k Hat He' Hc Hn Hk'.
    destruct rel as [|s rest].
    + injection Hat as <-. congruence.
    + simpl in Hat. now rewrite He in Hat.
Qed.

Lemma genuineBelow_root (P : World -> Prop) (v : ViewData) (ev : Event) :
  genuineBelow P v [] ev -> genuine P v ev.
Proof.
  destruct ev as [path phase node k cached value| |]; simpl; try tauto.
  intros (rel & u & -> & Hat & Howed). now exists u.
Qed.

Lemma errorBelow_root (P : World -> Prop) (v : ViewData)
    (err : option CheckError) :
  errorBelow P v [] err -> genuineError P v err.
Proof.
  destruct err as [[| path node | |]|]; simpl; try tauto.
  intros (rel & u & -> & Hat & Hthrew). now exists u.
Qed.

Lemma Settled_KeepsWorld (w : World) (v : ViewData) :
  Settled w v -> KeepsWorld (fun w' => w' = w) v.
Proof.
  intros Hs path u c w' Hat He Hc ->.
  exact (proj1 (Hs path u c Hat He Hc) w).
Qed.

Lemma checkView_verifies (P : World -> Prop) (fuel : nat) (w : World)
    (v : ViewData) :
  P w -> KeepsWorld P v ->
  Forall (genuine P v) (run_trace (checkView CheckNoChanges fuel [] w v)) /\
  errorBelow P v [] (run_error (checkView CheckNoChanges fuel [] w v)) /\
  (run_error (checkView CheckNoChanges fuel [] w v) = None ->
   AllCompared P v (run_trace (checkView CheckNoChanges fuel [] w v))).
Proof.
  intros Hw Hk.
  destruct (checkView_Sound P fuel [] w v Hw Hk) as (_ & _ & Ht & He).
  split; [|split; [exact He|]].
  - eapply Forall_impl; [exact Ht|]. apply genuineBelow_root.
  - intros Hnone path u phase c n k Hat Hel Hc Hn Hlt.
    destruct (checkView_complete P fuel [] w v Hw Hk Hnone
                path u phase c n k Hat Hel Hc Hn Hlt)
      as (w' & values & Hw' & Hev & Hin).
    exists w', values. split; [exact Hw'|]. split; [exact Hev|].
    split; [|exact Hin].
    destruct (checkView_QuietCheck fuel [] w v) as [_ [_ Hd]].
    rewrite Hnone in Hd. rewrite Forall_forall in Hd.
    specialize (Hd _ Hin). simpl in Hd.
    destruct (decide (default VUndefined
                        (v_oldValues u !! (nd_bindingIndex n + k))
                      = default VUndefined (values !! k))) as [E|E];
      [exact E|now destruct Hd].
Qed.

Lemma Stale_eligible (w : World) (v : ViewData) :
  Stale w v -> eligible v = true.
Proof.
  intros (path & u & phase & c & n & k & values & Hat & He & _).
  destruct path as [|s rest]; simpl in Hat.
  - now injection Hat as <-.
  - now destruct (eligible v).
Qed.

Lemma eligible_not_destroyed (v : ViewData) :
  eligible v = true -> hasFlag (v_state v) ViewState.Destroyed = false.
Proof.
  unfold eligible. rewrite !andb_true_iff, !negb_true_iff. tauto.
Qed.

(** C6: for every view, a run of [checkNoChangesView] returns the view
    as it was, so the cached values, the node data and the state bits
    are unchanged; its trace consists of comparisons of recomputed
    bindings only, so no hook is invoked and nothing is rendered; it
    raises the changed-after-checked error exactly when a recomputed
    binding differs from its cached value, and the error names the view,
    node and binding of the last comparison, the first that differs; the
    bindings it recomputes are an initial part of those that
    [checkAndUpdateView] recomputes on the same view, in the same order
    and with the same values, and all of them when it raises no error;
    with fuel for the depth of the view tree the run is complete, it
    does not stop for lack of fuel.

    What is compared is read off the view and the expressions, not off
    the run: every event of the run compares the entry of [oldValues] at
    a binding's place in its node's slice with the value at that binding
    that a call of the phase's update function for the node evaluates
    to, for a checked view at the event's path; the changed-after-checked
    error names such a comparison; a check-cycle error names a view and
    node with an expression that throws, and the destroyed-view error is
    raised for a destroyed view only; and a run without error has made
    every such comparison, for every checked view, call and binding, and
    found the two values equal.  So, when the expressions have no side
    effect and none throws, the changed-after-checked error is raised if
    and only if some binding of a checked view has, in the application
    state, a value that differs from its cached value.  (An expression
    that throws during the verification raises the check-cycle error,
    and the verification, which must not mutate state, leaves the state
    word alone then too.) *)
Theorem checkNoChanges_verifies (fuel : nat) (w : World) (v : ViewData) :
  let b := checkNoChangesView fuel w v in
  let a := checkAndUpdateView fuel w v in
  run_view b = v /\
  Forall isComparison (run_trace b) /\
  ((exists path node binding cached value,
      run_error b = Some (ChangedAfterChecked path node binding cached value))
   <-> Exists differs (run_trace b)) /\
  (forall path node binding cached value,
     run_error b = Some (ChangedAfterChecked path node binding cached value) ->
     cached <> value /\
     exists evs phase,
       run_trace b = evs ++ [EvBinding path phase node binding cached value] /\
       Forall (fun ev => ~ differs ev) evs) /\
  visits (run_trace b) `prefix_of` visits (run_trace a) /\
  (run_error b = None -> visits (run_trace b) = visits (run_trace a)) /\
  (Within fuel v -> run_error b <> Some OutOfFuel) /\
  (forall P : World -> Prop, P w -> KeepsWorld P v ->
     Forall (genuine P v) (run_trace b) /\
     genuineError P v (run_error b) /\
     (forall path node binding cached value,
        run_error b
        = Some (ChangedAfterChecked path node binding cached value) ->
        exists phase,
          genuine P v (EvBinding path phase node binding cached value)) /\
     (run_error b = None -> AllCompared P v (run_trace b))) /\
  (Within fuel v -> Settled w v ->
   ((exists path node binding cached value,
       run_error b = Some (ChangedAfterChecked path node binding cached value))
    <-> Stale w v)).
Proof.
  unfold checkNoChangesView, checkAndUpdateView, checkViewFrom.
  destruct (hasFlag (v_state v) ViewState.Destroyed) eqn:Hdes.
  - simpl. split; [reflexivity|]. split; [constructor|]. split.
    + split.
      * intros (path & node & b & c & x & H). discriminate H.
      * intros H. inversion H.
    + split; [intros path node b c x H; discriminate H|].
      split; [reflexivity|]. split; [discriminate|].
      split; [intros _; discriminate|]. split.
      * intros P _ _. split; [constructor|].
        split; [split; [reflexivity|exact Hdes]|].
        split; [intros path node b c x H|intros H]; discriminate H.
      * intros _ _. split.
        -- intros (path & node & b & c & x & H). discriminate H.
        -- intros Hst. apply Stale_eligible, eligible_not_destroyed in Hst.
           congruence.
  - destruct (checkView_QuietCheck fuel [] w v) as [Hv Ht].
    destruct (NoChangesTrace_report _ _ Ht) as [Hiff Hname].
    simpl. split; [exact Hv|]. split; [exact (proj1 Ht)|].
    split; [exact Hiff|]. split; [exact Hname|].
    assert (Hfuel : Within fuel v ->
              run_error (checkView CheckNoChanges fuel [] w v)
              <> Some OutOfFuel)
      by (intros H; now apply checkView_enough_fuel).
    assert (Hlast : forall P path node binding cached value,
              Forall (genuine P v)
                (run_trace (checkView CheckNoChanges fuel [] w v)) ->
              run_error (checkView CheckNoChanges fuel [] w v)
              = Some (ChangedAfterChecked path node binding cached value) ->
              exists phase,
                genuine P v (EvBinding path phase node binding cached value)).
    { intros P path node binding cached value Hg Herr.
      destruct (Hname _ _ _ _ _ Herr) as (_ & evs & phase & Htr & _).
      exists phase. rewrite Htr in Hg. apply Forall_app in Hg as [_ Hg].
      now inversion Hg. }
    assert (Hrest :
      (forall P : World -> Prop, P w -> KeepsWorld P v ->
         Forall (genuine P v)
           (run_trace (checkView CheckNoChanges fuel [] w v)) /\
         genuineError P v
           (run_error (checkView CheckNoChanges fuel [] w v)) /\
         (forall path node binding cached value,
            run_error (checkView CheckNoChanges fuel [] w v)
            = Some (ChangedAfterChecked path node binding cached value) ->
            exists phase,
              genuine P v (EvBinding path phase node binding cached value)) /\
         (run_error (checkView CheckNoChanges fuel [] w v) = None ->
          AllCompared P v
            (run_trace (checkView CheckNoChanges fuel [] w v)))) /\
      (Within fuel v -> Settled w v ->
       ((exists path node binding cached value,
           run_error (checkView CheckNoChanges fuel [] w v)
           = Some (ChangedAfterChecked path node binding cached value))
        <-> Stale w v))).
    { split.
      - intros P Hw Hk.
        destruct (checkView_verifies P fuel w v Hw Hk) as (Hg & He & Hall).
        split; [exact Hg|]. split; [now apply errorBelow_root|].
        split; [|exact Hall]. intros path node binding cached value.
        now apply Hlast.
      - intros Hwithin Hset.
        pose proof (Settled_KeepsWorld w v Hset) as Hk.
        destruct (checkView_verifies (fun w' => w' = w) fuel w v eq_refl Hk)
          as (Hg & He & Hall).
        split.
        + intros (path & node & k & cached & value & Herr).
          destruct (Hname _ _ _ _ _ Herr) as (Hne & _).
          destruct (Hlast _ _ _ _ _ _ Hg Herr) as (phase & u & Hat & Howed).
          destruct Howed
            as (n & c & w' & values & Hel & Hn & Hc & Hi & Hlt & Hw' & Hev
                & Hcached & Hvalue).
          subst w' node cached value.
          now exists path, u, phase, c, n, k, values.
        + intros Hst. pose proof Hst as Hst'.
          destruct Hst
            as (path & u & phase & c & n & k & values & Hat & Hel & Hc & Hn
                & Hlt & Hev & Hne).
          destruct (run_error (checkView CheckNoChanges fuel [] w v))
            as [[path' node' k' cached value|path' node'|path'|]|] eqn:Herr.
          * now exists path', node', k', cached, value.
          * exfalso. simpl in He.
            destruct He as (rel & u' & -> & Hat' & n' & c' & w' & Hel' & Hn'
                            & Hc' & _ & -> & Hthrow).
            exact (proj2 (Hset _ u' c' Hat' Hel' Hc') Hthrow).
          * exfalso. exact He.
          * exfalso. now apply Hfuel.
          * exfalso.
            destruct (Hall eq_refl path u phase c n k Hat Hel Hc Hn Hlt)
              as (w' & values' & -> & Hev' & Heq & _).
            rewrite Hev in Hev'. injection Hev' as <-. now apply Hne. }
    destruct Hrest as [HP Hpure].
    destruct (checkView_together fuel [] w v v (shape_refl v))
      as [(Ea & Eb & _ & _ & Hvis)|[Eb Hp]].
    + split; [now rewrite Hvis|]. split; [now intros _|].
      split; [exact Hfuel|]. split; [exact HP|exact Hpure].
    + split; [exact Hp|]. split; [intros H; congruence|].
      split; [exact Hfuel|]. split; [exact HP|exact Hpure].
Qed.

(** ** The scenario of the specification *)

Lemma readName_pure (name : string) (i : nat) (argStyle : ArgumentType) :
  pureCall {| cc_nodeIndex := i; cc_argStyle := argStyle;
              cc_eval := readName name |}.
Proof. intros w. reflexivity. Qed.

Lemma textView_Checkable (name : string) : Checkable (textView (readName name)).
Proof.
  constructor.
  - apply no_templates_WellFormedDef. repeat constructor.
  - repeat constructor. intros H. inversion H.
  - repeat constructor.
  - intros i d c Hi Hc. simpl in Hi.
    apply lookup_singleton_Some in Hi as [_ <-]. inversion Hc.
Qed.

Lemma hostView_Checkable (name : string) :
  Checkable (hostView (textView (readName name))).
Proof.
  constructor.
  - apply no_templates_WellFormedDef. repeat constructor.
  - repeat constructor. intros H. inversion H.
  - repeat constructor.
  - intros i d c Hi Hc. simpl in Hi.
    apply lookup_insert_Some in Hi as [[_ <-]|[_ Hi]].
    + simpl in Hc. apply list_elem_of_singleton in Hc as ->.
      apply textView_Checkable.
    + apply lookup_singleton_Some in Hi as [_ <-]. inversion Hc.
Qed.

(** The first update in [worldA] leaves the views with the first check
    over and the values of [title] and [name] cached. *)
Example scenario_updated_view :
  run_view (checkAndUpdateView 2 worldA
              (hostView (textView (readName "name"))))
  = checkedHostView (checkedTextView (readName "name") (VStr "A")).
Proof. vm_compute. reflexivity. Qed.

Lemma checkedHostView_owned (expression : Evaluator) (cached : Value)
    (i : nat) (d : NodeData) (c : ViewData) :
  v_nodes (checkedHostView (checkedTextView expression cached)) !! i = Some d ->
  c ∈ ownedViews d -> c = checkedTextView expression cached.
Proof.
  intros Hi Hc. simpl in Hi.
  apply lookup_insert_Some in Hi as [[_ <-]|[_ Hi]].
  - simpl in Hc. now apply list_elem_of_singleton in Hc.
  - apply lookup_singleton_Some in Hi as [_ <-]. inversion Hc.
Qed.

Lemma checkedTextView_owned (expression : Evaluator) (cached : Value)
    (i : nat) (d : NodeData) (c : ViewData) :
  v_nodes (checkedTextView expression cached) !! i = Some d ->
  c ∈ ownedViews d -> False.
Proof.
  intros Hi Hc. simpl in Hi.
  apply lookup_singleton_Some in Hi as [_ <-]. inversion Hc.
Qed.

Lemma checkedHostView_Within (expression : Evaluator) (cached : Value) :
  Within 2 (checkedHostView (checkedTextView expression cached)).
Proof.
  constructor. intros i d c Hi Hc.
  rewrite (checkedHostView_owned expression cached i d c Hi Hc).
  constructor. intros j d' c' Hj Hc'.
  destruct (checkedTextView_owned expression cached j d' c' Hj Hc').
Qed.

Lemma ownedView_owned (v c : ViewData) (s : PathStep) :
  ownedView v s = Some c ->
  exists d, v_nodes v !! hostOf s = Some d /\ c ∈ ownedViews d.
Proof.
  intros Ho.
  destruct (ownedView_inv v c s Ho) as (n & re & cv & vc & t & Hn & Hk & Hd).
  exists (ElementData re cv vc t). split; [exact Hd|].
  unfold ownedView in Ho. rewrite Hn, Hk, Hd in Ho. simpl.
  apply elem_of_app. destruct s as [i|i k].
  - left. rewrite Ho. now left.
  - right. destruct vc as [vc|]; [|discriminate Ho].
    now apply list_elem_of_lookup_2 in Ho.
Qed.

Lemma checkedHostView_viewAt (expression : Evaluator) (cached : Value)
    (path : ViewPath) (u : ViewData) :
  viewAt (checkedHostView (checkedTextView expression cached)) path = Some u ->
  u = checkedHostView (checkedTextView expression cached) \/
  u = checkedTextView expression cached.
Proof.
  destruct path as [|s rest]; simpl; [intros [= <-]; now left|].
  destruct (ownedView _ s) as [c|] eqn:Ho; [|discriminate].
  destruct (ownedView_owned _ c s Ho) as (d & Hd & Hc).
  rewrite (checkedHostView_owned expression cached _ d c Hd Hc).
  destruct rest as [|s' rest]; simpl; [intros [= <-]; now right|].
  destruct (ownedView _ s') as [c'|] eqn:Ho'; [|discriminate].
  destruct (ownedView_owned _ c' s' Ho') as (d' & Hd' & Hc').
  destruct (checkedTextView_owned expression cached _ d' c' Hd' Hc').
Qed.

Lemma checkedHostView_Settled (name : string) (cached : Value) (w : World) :
  Settled w (checkedHostView (checkedTextView (readName name) cached)).
Proof.
  intros path u c Hat _ Hc.
  apply checkedHostView_viewAt in Hat as [-> | ->];
    apply elem_of_app in Hc as [Hc|Hc];
    try (now inversion Hc);
    apply list_elem_of_singleton in Hc as ->;
    (split; [intros w'; reflexivity|discriminate]).
Qed.

Lemma checkedHostView_Stale :
  Stale worldB (checkedHostView (checkedTextView (readName "name") (VStr "A"))).
Proof.
  exists [ViaComponent 0], (checkedTextView (readName "name") (VStr "A")),
    UpdateRenderer,
    {| cc_nodeIndex := 0; cc_argStyle := Inline; cc_eval := readName "name" |}.
  eexists. exists 0, [VStr "B"].
  split; [reflexivity|]. split; [reflexivity|].
  split; [left|]. split; [reflexivity|]. split; [simpl; lia|].
  split; [reflexivity|]. vm_compute. discriminate.
Qed.

Lemma checkNoChanges_verifies_witness :
  Within 2 (checkedHostView (checkedTextView (readName "name") (VStr "A"))) /\
  Settled worldB
    (checkedHostView (checkedTextView (readName "name") (VStr "A"))) /\
  Stale worldB
    (checkedHostView (checkedTextView (readName "name") (VStr "A"))) /\
  exists path node binding cached value,
    run_error
      (checkNoChangesView 2 worldB
         (checkedHostView (checkedTextView (readName "name") (VStr "A"))))
    = Some (ChangedAfterChecked path node binding cached value).
Proof.
  split; [apply checkedHostView_Within|].
  split; [apply checkedHostView_Settled|].
  split; [exact checkedHostView_Stale|].
  pose proof (checkNoChanges_verifies 2 worldB
                (checkedHostView
                   (checkedTextView (readName "name") (VStr "A")))) as H.
  cbv zeta in H.
  destruct H as (_ & _ & _ & _ & _ & _ & _ & _ & H).
  apply (H (checkedHostView_Within _ _) (checkedHostView_Settled _ _ _)).
  exact checkedHostView_Stale.
Defined.

Lemma check_then_verify_witness :
  Checkable (hostView (textView (readName "name"))) /\
  run_error
    (checkAndUpdateView 2 worldA (hostView (textView (readName "name"))))
  = None /\
  run_error
    (checkNoChangesView 2
       (run_world
          (checkAndUpdateView 2 worldA
             (hostView (textView (readName "name")))))
       (run_view
          (checkAndUpdateView 2 worldA
             (hostView (textView (readName "name"))))))
  = None.
Proof.
  split; [apply hostView_Checkable|].
  split; [vm_compute; reflexivity|].
  apply check_then_verify; [apply hostView_Checkable|].
  vm_compute. reflexivity.
Defined.

(** The first update renders ["A"], invokes the hooks of the component
    and clears the first-check bit; after a change of [name] the next
    update renders ["B"]; verifying right after it raises nothing. *)
Example scenario_update_then_verify :
  let first := checkAndUpdateView 2 worldA
                 (hostView (textView (readName "name"))) in
  let second := checkAndUpdateView 2 worldB (run_view first) in
  run_trace first
  = [EvBinding [] UpdateDirectives 1 0 VUndefined (VStr "t");
     EvHook [] 1 HookOnChanges; EvHook [] 1 HookOnInit;
     EvHook [] 1 HookDoCheck;
     EvBinding [ViaComponent 0] UpdateRenderer 0 0 VUndefined (VStr "A");
     EvRender [ViaComponent 0] 0 0 (VStr "A");
     EvHook [] 1 HookAfterViewInit] /\
  hasFlag (v_state (run_view first)) ViewState.FirstCheck = false /\
  run_trace second
  = [EvBinding [] UpdateDirectives 1 0 (VStr "t") (VStr "t");
     EvHook [] 1 HookDoCheck;
     EvBinding [ViaComponent 0] UpdateRenderer 0 0 (VStr "A") (VStr "B");
     EvRender [ViaComponent 0] 0 0 (VStr "B")] /\
  run_error (checkNoChangesView 2 worldB (run_view second)) = None.
Proof. vm_compute. repeat split; reflexivity. Qed.

Lemma checkNoChangesView_view (fuel : nat) (w : World) (v : ViewData) :
  run_view (checkNoChangesView fuel w v) = v.
Proof.
  unfold checkNoChangesView, checkViewFrom.
  destruct (hasFlag (v_state v) ViewState.Destroyed); [reflexivity|].
  apply checkView_QuietCheck.
Qed.

(** Verifying after [name] has changed, without an update in between,
    raises the error at the text binding of the component view and
    leaves the view alone. *)
Example scenario_changed_after_checked :
  let first := checkAndUpdateView 2 worldA
                 (hostView (textView (readName "name"))) in
  let verify := checkNoChangesView 2 worldB (run_view first) in
  run_error verify
  = Some (ChangedAfterChecked [ViaComponent 0] 0 0 (VStr "A") (VStr "B")) /\
  run_view verify = run_view first.
Proof. split; [vm_compute; reflexivity|]. apply checkNoChangesView_view. Qed.

(** An evaluator with a side effect is not pure: verifying right after
    a successful update finds another value. *)
Example impure_binding_is_reported :
  let first := checkAndUpdateView 2 worldA (hostView (textView nextTick)) in
  run_error first = None /\
  run_error (checkNoChangesView 2 (run_world first) (run_view first))
  = Some (ChangedAfterChecked [ViaComponent 0] 0 0 (VNum 0) (VNum 1)).
Proof. vm_compute. split; reflexivity. Qed.

(** An expression that throws during a verification raises the
    check-cycle error at its view and node; the view is as it was. *)
Example verification_of_throwing_expression :
  let v := checkedHostView (checkedTextView throwing (VStr "A")) in
  run_error (checkNoChangesView 2 worldA v)
  = Some (CheckCycleError [ViaComponent 0] 0) /\
  run_view (checkNoChangesView 2 worldA v) = v.
Proof. split; [vm_compute; reflexivity|]. apply checkNoChangesView_view. Qed.

(** ** The flag enumerations as sets of bits *)

Local Open Scope Z_scope.

Lemma hasFlag_true (flags f : Z) :
  hasFlag flags f = true <-> Z.land flags f <> 0.
Proof. unfold hasFlag. now rewrite negb_true_iff, Z.eqb_neq. Qed.

Lemma nodeKind_Some (flags : Z) (k : NodeKind) :
  nodeKind flags = Some k -> Z.land flags NodeFlags.Types = typeFlag k.
Proof.
  intros H. apply find_some in H as [_ H]. now apply Z.eqb_eq in H.
Qed.

Lemma categoryMask_in_Types (c : NodeCategory) :
  Z.land NodeFlags.Types (categoryMask c) = categoryMask c.
Proof. destruct c; reflexivity. Qed.

Lemma typeFlag_category (k : NodeKind) (c : NodeCategory) :
  Z.land (typeFlag k) (categoryMask c) <> 0 <-> c = categoryOf k.
Proof.
  split.
  - destruct k, c; vm_compute; congruence.
  - intros ->. destruct k; vm_compute; congruence.
Qed.

(** The six operands of [NodeFlags.Types] are pairwise disjoint and make
    up the mask; each is the or of the [Type...] bits declared in it; and
    for flags in which the dispatch finds the kind [k], whatever other
    bits they carry, the test [(flags & c) !== 0] succeeds for exactly one
    operand [c], the one [k] is declared in. *)
Theorem category_masks_classify :
  pairwiseDisjoint (map categoryMask allNodeCategories) = true /\
  NodeFlags.Types = orAll (map categoryMask allNodeCategories) /\
  (forall c,
     categoryMask c
     = orAll (map typeFlag
                  (filter (fun k => categoryOf k = c) allNodeKinds))) /\
  (forall flags k, nodeKind flags = Some k ->
     forall c, hasFlag flags (categoryMask c) = true <-> c = categoryOf k).
Proof.
  split; [reflexivity|]. split; [reflexivity|]. split.
  - intros c. destruct c; reflexivity.
  - intros flags k Hk c. rewrite hasFlag_true.
    rewrite (land_inside flags (categoryMask c) NodeFlags.Types)
      by apply categoryMask_in_Types.
    rewrite (nodeKind_Some flags k Hk). apply typeFlag_category.
Qed.

Lemma category_masks_classify_witness :
  nodeKind (Z.lor (Z.lor NodeFlags.TypeDirective NodeFlags.Component)
                  NodeFlags.OnInit) = Some KDirective /\
  forall c,
    hasFlag (Z.lor (Z.lor NodeFlags.TypeDirective NodeFlags.Component)
                   NodeFlags.OnInit) (categoryMask c) = true
    <-> c = CProvider.
Proof.
  split; [reflexivity|].
  apply (proj2 (proj2 (proj2 category_masks_classify))
           (Z.lor (Z.lor NodeFlags.TypeDirective NodeFlags.Component)
                  NodeFlags.OnInit) KDirective).
  reflexivity.
Defined.

Lemma independentBits_meet (bits : list Z) (f g : Z) :
  independentBits bits = true -> f ∈ bits -> g ∈ bits ->
  (Z.land f g <> 0 <-> f = g).
Proof.
  intros H Hf Hg. unfold independentBits in H.
  rewrite forallb_forall in H.
  specialize (H f (proj1 (list_elem_of_In _ _) Hf)).
  rewrite forallb_forall in H.
  specialize (H g (proj1 (list_elem_of_In _ _) Hg)).
  apply Bool.eqb_prop in H.
  rewrite <- (Z.eqb_eq f g), <- H, negb_true_iff, Z.eqb_neq. reflexivity.
Qed.

Lemma orAll_cons (f : Z) (fs : list Z) :
  orAll (f :: fs) = Z.lor f (orAll fs).
Proof. reflexivity. Qed.

Lemma hasFlag_orAll_independent (bits fs : list Z) (b : Z) :
  independentBits bits = true -> fs ⊆ bits -> b ∈ bits ->
  (hasFlag (orAll fs) b = true <-> b ∈ fs).
Proof.
  intros Hind Hsub Hb. rewrite hasFlag_true.
  induction fs as [|f fs IH].
  - simpl. rewrite Z.land_0_l. split; [congruence|]. intros H. inversion H.
  - assert (Hf : f ∈ bits) by (apply Hsub; left).
    assert (Hrest : fs ⊆ bits)
      by (intros x Hx; apply Hsub; now right).
    specialize (IH Hrest).
    rewrite orAll_cons, Z.land_lor_distr_l, Z.lor_eq_0_iff.
    rewrite elem_of_cons.
    pose proof (independentBits_meet bits f b Hind Hf Hb) as Hm.
    split.
    + intros H. destruct (Z.eq_dec (Z.land f b) 0) as [E|E].
      * right. apply IH. intros E'. apply H. now split.
      * left. symmetry. now apply Hm.
    + intros [->|Hin] [E1 E2].
      * now apply (proj2 Hm).
      * now apply (proj2 IH).
Qed.

Lemma orAll_inside (mask : Z) (bits fs : list Z) :
  allInside mask bits = true -> fs ⊆ bits ->
  Z.land (orAll fs) mask = orAll fs.
Proof.
  intros Hin Hsub. unfold allInside in Hin. rewrite forallb_forall in Hin.
  induction fs as [|f fs IH]; [reflexivity|].
  rewrite orAll_cons, Z.land_lor_distr_l.
  assert (Hf : f ∈ bits) by (apply Hsub; left).
  apply list_elem_of_In, Hin, Z.eqb_eq in Hf. rewrite Hf.
  rewrite IH; [reflexivity|]. intros x Hx. apply Hsub. now right.
Qed.

Lemma inside_ones_bound (x : Z) (n : Z) :
  0 <= n -> Z.land x (Z.ones n) = x -> 0 <= x < 2 ^ n.
Proof.
  intros Hn H. rewrite Z.land_ones in H by exact Hn. rewrite <- H.
  apply Z.mod_pos_bound. now apply Z.pow_pos_nonneg.
Qed.

(** The twenty-nine one-bit members of [NodeFlags] are the bits 0 to 28
    in declaration order, without a gap or a repetition.  So any or of
    them is a non-negative number below 2^29, and a member's bit is set
    in it exactly when the member was or-ed in. *)
Theorem node_flag_bits_independent :
  nodeFlagBits = map (fun n => Z.shiftl 1 (Z.of_nat n)) (seq 0 29) /\
  (forall fs, fs ⊆ nodeFlagBits ->
     0 <= orAll fs < 2 ^ 29 /\
     forall b, b ∈ nodeFlagBits ->
       (hasFlag (orAll fs) b = true <-> b ∈ fs)).
Proof.
  split; [reflexivity|]. intros fs Hsub. split.
  - apply inside_ones_bound; [lia|].
    now apply (orAll_inside (Z.ones 29) nodeFlagBits).
  - intros b Hb. now apply (hasFlag_orAll_independent nodeFlagBits).
Qed.

Lemma node_flag_bits_independent_witness :
  [NodeFlags.TypeDirective; NodeFlags.Component; NodeFlags.OnInit]
    ⊆ nodeFlagBits /\
  NodeFlags.Component ∈ nodeFlagBits /\
  0 <= orAll [NodeFlags.TypeDirective; NodeFlags.Component; NodeFlags.OnInit]
    < 2 ^ 29 /\
  (hasFlag
     (orAll [NodeFlags.TypeDirective; NodeFlags.Component; NodeFlags.OnInit])
     NodeFlags.Component = true
   <-> NodeFlags.Component
       ∈ [NodeFlags.TypeDirective; NodeFlags.Component; NodeFlags.OnInit]).
Proof.
  assert (Hsub : [NodeFlags.TypeDirective; NodeFlags.Component;
                  NodeFlags.OnInit] ⊆ nodeFlagBits).
  { intros x Hx. apply list_elem_of_In. apply list_elem_of_In in Hx.
    vm_compute in Hx |- *. tauto. }
  assert (Hin : NodeFlags.Component ∈ nodeFlagBits).
  { apply list_elem_of_In. vm_compute. tauto. }
  split; [exact Hsub|]. split; [exact Hin|].
  destruct (proj2 node_flag_bits_independent _ Hsub) as [Hbound Hdec].
  split; [exact Hbound|]. exact (Hdec _ Hin).
Defined.

Lemma lnot_disjoint (b b' : Z) :
  Z.land b b' = 0 -> Z.land (Z.lnot b) b' = b'.
Proof.
  intros H. apply Z.bits_inj'. intros n Hn.
  assert (Hb : Z.testbit (Z.land b b') n = false)
    by (rewrite H; apply Z.bits_0).
  rewrite Z.land_spec in Hb. rewrite Z.land_spec, Z.lnot_spec by exact Hn.
  destruct (Z.testbit b n), (Z.testbit b' n); simpl in *; congruence.
Qed.

Lemma hasFlag_self (b : Z) : b <> 0 -> forall s, hasFlag (Z.lor s b) b = true.
Proof.
  intros Hb s. apply hasFlag_true.
  rewrite Z.land_lor_distr_l, Z.land_diag, Z.lor_eq_0_iff. tauto.
Qed.

(** The four members of [ViewState] are independent bits: in any state
    word, [state |= b] makes the test of [b] succeed and [state &= ~b]
    makes it fail, and neither changes the test of another member. *)
Theorem view_state_bits_independent (state b b' : Z) :
  b ∈ viewStateBits -> b' ∈ viewStateBits ->
  hasFlag (Z.lor state b) b' = hasFlag state b' || (b =? b') /\
  hasFlag (Z.land state (Z.lnot b)) b' = hasFlag state b' && negb (b =? b').
Proof.
  intros Hb Hb'.
  pose proof (independentBits_meet viewStateBits b b' eq_refl Hb Hb') as Hm.
  destruct (Z.eqb_spec b b') as [<-|Hne].
  - assert (Hnz : b <> 0)
      by (rewrite <- (Z.land_diag b); now apply (proj2 Hm)).
    rewrite orb_true_r, andb_false_r. split; [now apply hasFlag_self|].
    unfold hasFlag. rewrite <- Z.land_assoc, (Z.land_comm (Z.lnot b)).
    now rewrite Z.land_lnot_diag, Z.land_0_r.
  - assert (Hd : Z.land b b' = 0).
    { destruct (Z.eq_dec (Z.land b b') 0) as [E|E]; [exact E|].
      exfalso. now apply Hne, Hm. }
    rewrite orb_false_r, andb_true_r. unfold hasFlag. split.
    + now rewrite Z.land_lor_distr_l, Hd, Z.lor_0_r.
    + now rewrite <- Z.land_assoc, lnot_disjoint.
Qed.

Lemma view_state_bits_independent_witness :
  ViewState.FirstCheck ∈ viewStateBits /\
  ViewState.ChecksEnabled ∈ viewStateBits /\
  hasFlag (Z.land (Z.lor ViewState.FirstCheck ViewState.ChecksEnabled)
                  (Z.lnot ViewState.FirstCheck))
          ViewState.ChecksEnabled
  = hasFlag (Z.lor ViewState.FirstCheck ViewState.ChecksEnabled)
            ViewState.ChecksEnabled
    && negb (ViewState.FirstCheck =? ViewState.ChecksEnabled).
Proof.
  assert (H1 : ViewState.FirstCheck ∈ viewStateBits)
    by (apply list_elem_of_In; vm_compute; tauto).
  assert (H2 : ViewState.ChecksEnabled ∈ viewStateBits)
    by (apply list_elem_of_In; vm_compute; tauto).
  split; [exact H1|]. split; [exact H2|].
  exact (proj2 (view_state_bits_independent
                  (Z.lor ViewState.FirstCheck ViewState.ChecksEnabled)
                  _ _ H1 H2)).
Defined.

(** [DepFlags.Value], written [2 << 2], is the bit 3; the three flags
    are independent bits, so in any or of them a flag tests as set
    exactly when it was or-ed in; the bit 2, which no member uses, is
    never set, and the value is at most 11. *)
Theorem dep_flags_independent :
  DepFlags.Value = Z.shiftl 1 3 /\
  (forall fs, fs ⊆ depFlagBits ->
     (forall b, b ∈ depFlagBits ->
        (hasFlag (orAll fs) b = true <-> b ∈ fs)) /\
     Z.testbit (orAll fs) 2 = false /\
     0 <= orAll fs <= 11).
Proof.
  split; [reflexivity|]. intros fs Hsub.
  pose proof (orAll_inside 11 depFlagBits fs eq_refl Hsub) as Hin.
  split; [|split].
  - intros b Hb. now apply (hasFlag_orAll_independent depFlagBits).
  - rewrite <- Hin, Z.land_spec. apply andb_false_r.
  - assert (H16 : 0 <= orAll fs < 2 ^ 4).
    { apply inside_ones_bound; [lia|].
      rewrite <- Hin, <- Z.land_assoc. reflexivity. }
    split; [lia|].
    destruct (Z_le_gt_dec (orAll fs) 11) as [Hle|Hgt]; [exact Hle|].
    exfalso.
    assert (Hcases : orAll fs = 12 \/ orAll fs = 13 \/ orAll fs = 14
                     \/ orAll fs = 15) by lia.
    destruct Hcases as [E|[E|[E|E]]]; rewrite E in Hin; discriminate Hin.
Qed.

Lemma dep_flags_independent_witness :
  [DepFlags.Optional; DepFlags.Value] ⊆ depFlagBits /\
  DepFlags.SkipSelf ∈ depFlagBits /\
  (hasFlag (orAll [DepFlags.Optional; DepFlags.Value]) DepFlags.SkipSelf = true
   <-> DepFlags.SkipSelf ∈ [DepFlags.Optional; DepFlags.Value]) /\
  Z.testbit (orAll [DepFlags.Optional; DepFlags.Value]) 2 = false /\
  0 <= orAll [DepFlags.Optional; DepFlags.Value] <= 11.
Proof.
  assert (Hsub : [DepFlags.Optional; DepFlags.Value] ⊆ depFlagBits).
  { intros x Hx. apply list_elem_of_In. apply list_elem_of_In in Hx.
    vm_compute in Hx |- *. tauto. }
  assert (Hin : DepFlags.SkipSelf ∈ depFlagBits)
    by (apply list_elem_of_In; vm_compute; tauto).
  split; [exact Hsub|]. split; [exact Hin|].
  destruct (proj2 dep_flags_independent _ Hsub) as (Hdec & Hbit & Hbound).
  split; [exact (Hdec _ Hin)|]. split; [exact Hbit|exact Hbound].
Defined.

(** The dispatch on a binding, [flags & BindingFlags.Types]: for flags
    made of one [Type...] member and any bits outside the mask, the
    masked value is that member, and the test of a [Type...] member
    succeeds for that member only. *)
Theorem binding_type_dispatch (t s : Z) :
  t ∈ bindingTypeFlags -> Z.land s BindingFlags.Types = 0 ->
  Z.land (Z.lor t s) BindingFlags.Types = t /\
  forall t', t' ∈ bindingTypeFlags ->
    (hasFlag (Z.lor t s) t' = true <-> t' = t).
Proof.
  intros Ht Hs.
  assert (Hin : forall x, x ∈ bindingTypeFlags ->
            Z.land BindingFlags.Types x = x).
  { intros x Hx. apply list_elem_of_In in Hx. vm_compute in Hx.
    destruct Hx as [<-|[<-|[<-|[<-|[]]]]]; reflexivity. }
  assert (Hmask : Z.land (Z.lor t s) BindingFlags.Types = t).
  { rewrite land_lor_outside by exact Hs.
    rewrite Z.land_comm. now apply Hin. }
  split; [exact Hmask|]. intros t' Ht'. rewrite hasFlag_true.
  rewrite (land_inside (Z.lor t s) t' BindingFlags.Types) by now apply Hin.
  rewrite Hmask.
  rewrite (independentBits_meet bindingTypeFlags t t' eq_refl Ht Ht').
  split; congruence.
Qed.

Lemma binding_type_dispatch_witness :
  BindingFlags.TypeElementStyle ∈ bindingTypeFlags /\
  Z.land BindingFlags.SyntheticHostProperty BindingFlags.Types = 0 /\
  Z.land (Z.lor BindingFlags.TypeElementStyle
                BindingFlags.SyntheticHostProperty) BindingFlags.Types
  = BindingFlags.TypeElementStyle.
Proof.
  assert (H : BindingFlags.TypeElementStyle ∈ bindingTypeFlags)
    by (apply list_elem_of_In; vm_compute; tauto).
  split; [exact H|]. split; [reflexivity|].
  exact (proj1 (binding_type_dispatch BindingFlags.TypeElementStyle
                  BindingFlags.SyntheticHostProperty H eq_refl)).
Defined.

Local Close Scope Z_scope.
